(** * ProjectMates: team, invitation and recommendation logic

    A shallow embedding of [services/apiService.ts] (with the record types of
    [types.ts]) over a model of the document store it talks to, and the
    properties of the team lifecycle, the invitation workflow, the
    recommendation scorer and the user search. *)

From Stdlib Require Import ZArith Ascii String.
From stdpp Require Import gmap strings list fin_maps sorting.

Local Open Scope string_scope.
Local Open Scope list_scope.
Local Open Scope nat_scope.

(** ** Record types ([types.ts])

    Optional fields ([f?: T]) are [option T] with [None] for an absent field;
    [teamId?: string | null] has the three values absent, [null] and a
    string, which the store's deep equality on array elements tells apart. *)

Inductive TeamStatus := LookingForATeam | InATeam.

#[global] Instance TeamStatus_eq_dec : EqDecision TeamStatus.
Proof. solve_decision. Defined.

Module User.
Record t := mk {
  id : string;
  name : string;
  avatarInitial : string;
  title : string;
  year : Z;
  about : string;
  email : string;
  department : string;
  interests : list string;
  skills : list string;
  workingPreferences : list string;
  teamStatus : TeamStatus;
  profileComplete : option bool;
  teamId : option (option string);
  isTeamOwner : option bool
}.

#[global] Instance eq_dec : EqDecision t.
Proof. solve_decision. Defined.
End User.

Module Team.
Record t := mk {
  id : string;
  name : string;
  ownerId : string;
  members : list User.t;
  skills : list string;
  interests : list string
}.

#[global] Instance eq_dec : EqDecision t.
Proof. solve_decision. Defined.
End Team.

Inductive InvitationStatus := pending.

#[global] Instance InvitationStatus_eq_dec : EqDecision InvitationStatus.
Proof. solve_decision. Defined.

Module Invitation.
Record sender := mkSender { id : string; name : string }.

(** The stored document is [Omit<Invitation, 'id'>]: the invitation's id is
    the key of the document, not a field of it. *)
Record t := mk {
  teamId : string;
  teamName : string;
  fromUser : sender;
  toUserId : string;
  status : InvitationStatus;
  createdAt : Z
}.

#[global] Instance sender_eq_dec : EqDecision sender.
Proof. solve_decision. Defined.
#[global] Instance eq_dec : EqDecision t.
Proof. solve_decision. Defined.
End Invitation.

Module ConversationParticipant.
Record t := mk { id : string; name : string; avatarInitial : string }.

#[global] Instance eq_dec : EqDecision t.
Proof. solve_decision. Defined.
End ConversationParticipant.

Module Conversation.
Record message := mkMessage { text : string; timestamp : Z; senderId : string }.

Record t := mk {
  participants : gmap string ConversationParticipant.t;
  participantIds : list string;
  lastMessage : option message;
  isGroupChat : option bool;
  groupName : option string;
  teamId : option string
}.
End Conversation.

(** ** The document store

    One finite map per collection, keyed by document id. *)

Record Db := mkDb {
  users : gmap string User.t;
  teams : gmap string Team.t;
  conversations : gmap string Conversation.t;
  invitations : gmap string Invitation.t
}.

Definition set_users (f : gmap string User.t → gmap string User.t) (db : Db) : Db :=
  mkDb (f (users db)) (teams db) (conversations db) (invitations db).
Definition set_teams (f : gmap string Team.t → gmap string Team.t) (db : Db) : Db :=
  mkDb (users db) (f (teams db)) (conversations db) (invitations db).
Definition set_conversations
    (f : gmap string Conversation.t → gmap string Conversation.t) (db : Db) : Db :=
  mkDb (users db) (teams db) (f (conversations db)) (invitations db).
Definition set_invitations
    (f : gmap string Invitation.t → gmap string Invitation.t) (db : Db) : Db :=
  mkDb (users db) (teams db) (conversations db) (f (invitations db)).

(** ** Errors and the monad of the asynchronous operations

    An operation runs on the store and either returns or throws; what it wrote
    before throwing stays written (only a batch is all-or-nothing). *)

Inductive Exn :=
| Error (message : string)      (* [throw new Error(message)] *)
| NotFound (path : string)      (* the store rejects an update of a missing document *)
| InvalidArgument.              (* the store rejects a query it does not serve *)

Inductive Result (A : Type) :=
| Ok (a : A)
| Throw (e : Exn).
Arguments Ok {A} a.
Arguments Throw {A} e.

Definition thrown {A} (r : Result A) : bool :=
  match r with Throw _ => true | Ok _ => false end.

Definition M (A : Type) : Type := Db → Result A * Db.

Definition ret {A} (a : A) : M A := λ db, (Ok a, db).
Definition throw {A} (e : Exn) : M A := λ db, (Throw e, db).
Definition bind {A B} (c : M A) (k : A → M B) : M B :=
  λ db, match c db with
        | (Ok a, db') => k a db'
        | (Throw e, db') => (Throw e, db')
        end.

Notation "'await' x ← c ; k" := (bind c (λ x, k))
  (at level 10, x name, c at level 100, k at level 200,
   format "'[v' 'await'  x  ←  c ; '/' k ']'").
Notation "'run' c ; k" := (bind c (λ _, k))
  (at level 10, c at level 100, k at level 200,
   format "'[v' 'run'  c ; '/' k ']'").

(** ** Store primitives *)

(** [updateDoc]/[batch.update] on one collection: fails on a missing document. *)
Definition update_in {A} (k : string) (f : A → A) (m : gmap string A)
    : option (gmap string A) :=
  match m !! k with
  | Some d => Some (<[k := f d]> m)
  | None => None
  end.

(** The writes the service issues, one constructor per collection and kind.
    An update carries the patch it applies to the stored document. *)
Inductive Write :=
| SetTeam (k : string) (d : Team.t)
| SetConversation (k : string) (d : Conversation.t)
| SetInvitation (k : string) (d : Invitation.t)
| UpdateUser (k : string) (patch : User.t → User.t)
| UpdateTeam (k : string) (patch : Team.t → Team.t)
| UpdateConversation (k : string) (patch : Conversation.t → Conversation.t)
| DeleteUser (k : string)
| DeleteTeam (k : string)
| DeleteConversation (k : string)
| DeleteInvitation (k : string).

Definition apply_write (w : Write) (db : Db) : option Db :=
  match w with
  | SetTeam k d => Some (set_teams (insert k d) db)
  | SetConversation k d => Some (set_conversations (insert k d) db)
  | SetInvitation k d => Some (set_invitations (insert k d) db)
  | UpdateUser k f =>
      m ← update_in k f (users db); Some (set_users (λ _, m) db)
  | UpdateTeam k f =>
      m ← update_in k f (teams db); Some (set_teams (λ _, m) db)
  | UpdateConversation k f =>
      m ← update_in k f (conversations db); Some (set_conversations (λ _, m) db)
  | DeleteUser k => Some (set_users (delete k) db)
  | DeleteTeam k => Some (set_teams (delete k) db)
  | DeleteConversation k => Some (set_conversations (delete k) db)
  | DeleteInvitation k => Some (set_invitations (delete k) db)
  end.

Definition write_path (w : Write) : string :=
  match w with
  | SetTeam k _ | UpdateTeam k _ | DeleteTeam k => "teams/" +:+ k
  | SetConversation k _ | UpdateConversation k _ | DeleteConversation k =>
      "conversations/" +:+ k
  | SetInvitation k _ | DeleteInvitation k => "invitations/" +:+ k
  | UpdateUser k _ | DeleteUser k => "users/" +:+ k
  end.

(** A single awaited write ([setDoc], [updateDoc], [deleteDoc], [addDoc]). *)
Definition write (w : Write) : M unit :=
  λ db, match apply_write w db with
        | Some db' => (Ok tt, db')
        | None => (Throw (NotFound (write_path w)), db)
        end.

(** [writeBatch(db)] collects writes in order; [batch.commit()] applies them
    all, or none of them when one is rejected. *)
Fixpoint apply_batch (batch : list Write) (db : Db) : Exn + Db :=
  match batch with
  | [] => inr db
  | w :: rest =>
      match apply_write w db with
      | Some db' => apply_batch rest db'
      | None => inl (NotFound (write_path w))
      end
  end.

Definition commit (batch : list Write) : M unit :=
  λ db, match apply_batch batch db with
        | inr db' => (Ok tt, db')
        | inl e => (Throw e, db)
        end.

(** [getDoc(ref)]: [None] when [snap.exists()] is false. *)
Definition getDoc_team (k : string) : M (option Team.t) :=
  λ db, (Ok (teams db !! k), db).
Definition getDoc_user (k : string) : M (option User.t) :=
  λ db, (Ok (users db !! k), db).
Definition getDoc_invitation (k : string) : M (option Invitation.t) :=
  λ db, (Ok (invitations db !! k), db).

(** [getDocs(query(collection, where...))]: the documents that satisfy the
    conjunction of the [where] clauses, as (document id, data) pairs. *)
Definition query {A} (P : A → bool) (m : gmap string A) : list (string * A) :=
  filter (λ kv, P kv.2 = true) (map_to_list m).

(** ** Array helpers *)

(** [Array.from(new Set(xs))]: first occurrences, in order. *)
Definition Set_add (acc : list string) (x : string) : list string :=
  if decide (x ∈ acc) then acc else acc ++ [x].
Definition Array_from_Set (xs : list string) : list string :=
  fold_left Set_add xs [].

(** The store's [arrayUnion(x)] and [arrayRemove(x)] field transforms. *)
Definition arrayUnion {A} `{EqDecision A} (x : A) (l : list A) : list A :=
  if decide (x ∈ l) then l else l ++ [x].
Definition arrayRemove {A} `{EqDecision A} (x : A) (l : list A) : list A :=
  filter (λ y, y ≠ x) l.

(** JavaScript truthiness of the optional fields that are tested. *)
Definition truthy_string (s : option string) : bool :=
  match s with
  | Some s => negb (bool_decide (s = ""))
  | None => false
  end.
Definition truthy_bool (b : option bool) : bool :=
  match b with Some true => true | _ => false end.

(** ** Field updates

    [batch.update(ref, {f: v, ...})] overwrites the named fields and keeps the
    others; one setter per field the service writes. *)

Module UserPatch.
Import User.
Definition set_teamId (v : option (option string)) (u : t) : t :=
  mk (id u) (name u) (avatarInitial u) (title u) (year u) (about u) (email u)
     (department u) (interests u) (skills u) (workingPreferences u)
     (teamStatus u) (profileComplete u) v (isTeamOwner u).
Definition set_isTeamOwner (v : option bool) (u : t) : t :=
  mk (id u) (name u) (avatarInitial u) (title u) (year u) (about u) (email u)
     (department u) (interests u) (skills u) (workingPreferences u)
     (teamStatus u) (profileComplete u) (teamId u) v.
Definition set_teamStatus (v : TeamStatus) (u : t) : t :=
  mk (id u) (name u) (avatarInitial u) (title u) (year u) (about u) (email u)
     (department u) (interests u) (skills u) (workingPreferences u)
     v (profileComplete u) (teamId u) (isTeamOwner u).
(** [delete u.profileComplete] *)
Definition delete_profileComplete (u : t) : t :=
  mk (id u) (name u) (avatarInitial u) (title u) (year u) (about u) (email u)
     (department u) (interests u) (skills u) (workingPreferences u)
     (teamStatus u) None (teamId u) (isTeamOwner u).
End UserPatch.

Module TeamPatch.
Import Team.
Definition set_members (v : list User.t) (d : t) : t :=
  mk (id d) (name d) (ownerId d) v (skills d) (interests d).
Definition set_skills (v : list string) (d : t) : t :=
  mk (id d) (name d) (ownerId d) (members d) v (interests d).
Definition set_interests (v : list string) (d : t) : t :=
  mk (id d) (name d) (ownerId d) (members d) (skills d) v.
End TeamPatch.

Module ConversationPatch.
Import Conversation.
Definition set_participantIds (v : list string) (c : t) : t :=
  mk (participants c) v (lastMessage c) (isGroupChat c) (groupName c) (teamId c).
Definition set_participants (v : gmap string ConversationParticipant.t) (c : t) : t :=
  mk v (participantIds c) (lastMessage c) (isGroupChat c) (groupName c) (teamId c).
End ConversationPatch.

(** ** Team management and invitations ([apiService]) *)

(** The conversation document of a team: [`team_${teamId}`]. *)
Definition teamConversationId (teamId : string) : string := "team_" +:+ teamId.

(** [{teamId: null, isTeamOwner: false, teamStatus: 'Looking for a team'}] *)
Definition clearTeamFields (u : User.t) : User.t :=
  UserPatch.set_teamId (Some None)
    (UserPatch.set_isTeamOwner (Some false)
       (UserPatch.set_teamStatus LookingForATeam u)).

(** [createTeam(teamName, owner)]. [newId] is the id the store generates for
    [doc(collection(db, 'teams'))]. *)
Definition createTeam (newId : string) (teamName : string) (owner : User.t)
    : M Team.t :=
  let ownerAsMember := UserPatch.delete_profileComplete owner in
  let newTeam :=
    Team.mk newId teamName (User.id owner) [ownerAsMember]
            (User.skills owner) (User.interests owner) in
  let participants : gmap string ConversationParticipant.t :=
    {[ User.id owner :=
         ConversationParticipant.mk (User.id owner) (User.name owner)
                                    (User.avatarInitial owner) ]} in
  run commit
    [ SetTeam newId newTeam;
      UpdateUser (User.id owner)
        (λ u, UserPatch.set_teamId (Some (Some newId))
                (UserPatch.set_isTeamOwner (Some true)
                   (UserPatch.set_teamStatus InATeam u)));
      SetConversation (teamConversationId newId)
        (Conversation.mk participants [User.id owner] None (Some true)
                         (Some teamName) (Some newId)) ];
  ret newTeam.

Definition getTeam (teamId : string) : M (option Team.t) := getDoc_team teamId.

Definition leaveTeam (user : User.t) (teamId : string) : M unit :=
  await teamSnap ← getDoc_team teamId;
  match teamSnap with
  | None =>
      (* Team might have been deleted. Just update the user. *)
      write (UpdateUser (User.id user) clearTeamFields)
  | Some team =>
      if decide (User.id user = Team.ownerId team) then
        if decide (1 < length (Team.members team)) then
          throw (Error "You are the owner. Please transfer ownership or remove other members before leaving.")
        else
          (* Owner is last member, delete team and its chat *)
          commit
            [ DeleteTeam teamId;
              DeleteConversation (teamConversationId teamId);
              UpdateUser (User.id user) clearTeamFields ]
      else
        (* Regular member, remove from team and its chat *)
        let updatedMembers :=
          filter (λ m, User.id m ≠ User.id user) (Team.members team) in
        let updatedSkills := Array_from_Set (flat_map User.skills updatedMembers) in
        let updatedInterests :=
          Array_from_Set (flat_map User.interests updatedMembers) in
        commit
          [ UpdateTeam teamId
              (λ d, TeamPatch.set_members updatedMembers
                      (TeamPatch.set_skills updatedSkills
                         (TeamPatch.set_interests updatedInterests d)));
            UpdateConversation (teamConversationId teamId)
              (λ c, ConversationPatch.set_participantIds
                      (arrayRemove (User.id user) (Conversation.participantIds c)) c);
            UpdateUser (User.id user) clearTeamFields ]
  end.

(** [sendInvitation(team, fromUser, toUser)]. [newId] is the id [addDoc]
    generates for the new document and [now] is [Timestamp.now()]. *)
Definition sendInvitation (newId : string) (now : Z)
    (team : Team.t) (fromUser toUser : User.t) : M unit :=
  (* Check if an invitation already exists *)
  await existingInvites ←
    (λ db, (Ok (query (λ i, bool_decide (Invitation.teamId i = Team.id team)
                            && bool_decide (Invitation.toUserId i = User.id toUser)
                            && bool_decide (Invitation.status i = pending))
                      (invitations db)), db));
  if negb (bool_decide (existingInvites = [])) then
    throw (Error "An invitation to this user for this team already exists.")
  else
    let newInvitation :=
      Invitation.mk (Team.id team) (Team.name team)
        (Invitation.mkSender (User.id fromUser) (User.name fromUser))
        (User.id toUser) pending now in
    write (SetInvitation newId newInvitation).

(** [handleInvitation(invitationId, accepted, user)]. The field path
    [`participants.${user.id}`] sets the entry of the participants map under
    the user's id. *)
Definition handleInvitation (invitationId : string) (accepted : bool)
    (user : User.t) : M unit :=
  await invSnap ← getDoc_invitation invitationId;
  match invSnap with
  | None => throw (Error "Invitation not found.")
  | Some invitation =>
      let teamId := Invitation.teamId invitation in
      await batch ←
        (if accepted then
           await teamSnap ← getDoc_team teamId;
           match teamSnap with
           | None => throw (Error "Team not found.")
           | Some teamData =>
               (* Create a clean user object to add to the team members array *)
               let userForTeam := UserPatch.delete_profileComplete user in
               let newSkills :=
                 Array_from_Set (Team.skills teamData ++ User.skills user) in
               let newInterests :=
                 Array_from_Set (Team.interests teamData ++ User.interests user) in
               let newParticipant :=
                 ConversationParticipant.mk (User.id user) (User.name user)
                                            (User.avatarInitial user) in
               ret
                 [ UpdateUser (User.id user)
                     (λ u, UserPatch.set_teamId (Some (Some teamId))
                             (UserPatch.set_teamStatus InATeam u));
                   UpdateTeam teamId
                     (λ d, TeamPatch.set_members
                             (arrayUnion userForTeam (Team.members d))
                             (TeamPatch.set_skills newSkills
                                (TeamPatch.set_interests newInterests d)));
                   (* Add user to the team's group chat *)
                   UpdateConversation (teamConversationId teamId)
                     (λ c, ConversationPatch.set_participantIds
                             (arrayUnion (User.id user) (Conversation.participantIds c))
                             (ConversationPatch.set_participants
                                (<[User.id user := newParticipant]>
                                   (Conversation.participants c)) c)) ]
           end
         else ret []);
      commit (batch ++ [DeleteInvitation invitationId])
  end.

(** [if (user.teamId)]: the team id when the field is a non-empty string. *)
Definition truthy_teamId (v : option (option string)) : option string :=
  match v with
  | Some (Some s) => if decide (s = "") then None else Some s
  | _ => None
  end.

Definition deleteUserAccount (user : User.t) : M unit :=
  (* This part needs to run before deleting the user document. *)
  run (match truthy_teamId (User.teamId user) with
       | Some teamId =>
           await teamSnap ← getDoc_team teamId;
           match teamSnap with
           | Some team =>
               if truthy_bool (User.isTeamOwner user) then
                 if decide (1 < length (Team.members team)) then
                   throw (Error "You are the owner of a team with other members. Please transfer ownership or remove all members before deleting your account.")
                 else
                   (* If owner is the only member, delete the team and its chat. *)
                   run write (DeleteTeam teamId);
                   write (DeleteConversation (teamConversationId teamId))
               else
                 (* User is a regular member, so remove them from the team and chat. *)
                 let updatedMembers :=
                   filter (λ m, User.id m ≠ User.id user) (Team.members team) in
                 run write (UpdateTeam teamId (TeamPatch.set_members updatedMembers));
                 write (UpdateConversation (teamConversationId teamId)
                          (λ c, ConversationPatch.set_participantIds
                                  (arrayRemove (User.id user)
                                     (Conversation.participantIds c)) c))
           | None => ret tt
           end
       | None => ret tt
       end);
  (* After handling team logic, delete the user document. *)
  write (DeleteUser (User.id user)).

(** ** Team recommendation algorithm *)

(** [new Set(xs).has(x)] *)
Definition Set_has (set : list string) (x : string) : bool := bool_decide (x ∈ set).

(** [Array.prototype.sort(compare)]. The sort is stable; the model is the
    stable insertion sort, which for a comparator that is a total preorder
    yields the one stably sorted arrangement. *)
Fixpoint sort_insert {A} (compare : A → A → Z) (x : A) (l : list A) : list A :=
  match l with
  | [] => [x]
  | y :: l' =>
      if (0 <? compare x y)%Z then y :: sort_insert compare x l' else x :: l
  end.
Definition Array_sort {A} (compare : A → A → Z) (l : list A) : list A :=
  foldr (sort_insert compare) [] l.

(** [{ ...team, score, commonSkills, commonInterests }] *)
Module ScoredTeam.
Record t := mk {
  team : Team.t;
  score : nat;
  commonSkills : list string;
  commonInterests : list string
}.
End ScoredTeam.

Definition scoreTeam (currentUser : User.t) (team : Team.t) : ScoredTeam.t :=
  let userSkills := Array_from_Set (User.skills currentUser) in
  let userInterests := Array_from_Set (User.interests currentUser) in
  let teamSkills := Array_from_Set (Team.skills team) in
  let teamInterests := Array_from_Set (Team.interests team) in
  let commonSkills := filter (λ skill, Set_has teamSkills skill = true) userSkills in
  let commonInterests :=
    filter (λ interest, Set_has teamInterests interest = true) userInterests in
  (* Simple scoring: more weight to common skills *)
  let score := length commonSkills * 2 + length commonInterests in
  ScoredTeam.mk team score commonSkills commonInterests.

(** [getRecommendedTeams(currentUser)]. [teamsCollection] is the 'teams'
    collection as the store enumerates it for the query; the [where] clause
    keeps the documents whose [ownerId] differs from the user's id. *)
Definition getRecommendedTeams (currentUser : User.t) (teamsCollection : list Team.t)
    : list ScoredTeam.t :=
  let querySnapshot :=
    filter (λ team, Team.ownerId team ≠ User.id currentUser) teamsCollection in
  (* Filter out teams user is already in *)
  let allTeams :=
    filter (λ team,
              negb (existsb (λ member, bool_decide (User.id member = User.id currentUser))
                            (Team.members team)) = true)
           querySnapshot in
  let scoredTeams := map (scoreTeam currentUser) allTeams in
  (* Filter out teams with no commonalities and sort by score *)
  Array_sort
    (λ a b, (Z.of_nat (ScoredTeam.score b) - Z.of_nat (ScoredTeam.score a))%Z)
    (filter (λ team, 0 < ScoredTeam.score team) scoredTeams).

(** ** User search *)

(** Text is [string], a list of 8-bit characters. ASCII text (every character
    below 128) is the same sequence of code units in JavaScript, and on it
    the functions below and the text functions further down ([toUpperCase],
    [trim], the order of [Array_sort2], [firstChar]) are the JavaScript ones.
    Other text is not modelled exactly: JavaScript changes the case of
    letters outside [A-Za-z], strips white space outside ASCII, and takes
    [s[0]] and the sort order from 16-bit code units. The properties that
    depend on what these functions do to a character say [isAscii] of the
    text they speak of. *)
Definition isAscii (s : string) : Prop :=
  Forall (λ c, nat_of_ascii c < 128) (list_ascii_of_string s).

#[global] Instance isAscii_dec s : Decision (isAscii s).
Proof. unfold isAscii. apply _. Defined.

(** [String.prototype.toLowerCase] on the ASCII letters. *)
Definition toLowerCase_ascii (c : ascii) : ascii :=
  let n := nat_of_ascii c in
  if ((65 <=? n) && (n <=? 90))%nat then ascii_of_nat (n + 32) else c.
Fixpoint toLowerCase (s : string) : string :=
  match s with
  | EmptyString => EmptyString
  | String c r => String (toLowerCase_ascii c) (toLowerCase r)
  end.

(** [s.includes(sub)] *)
Fixpoint includes (s sub : string) : bool :=
  String.prefix sub s
  || match s with
     | EmptyString => false
     | String _ r => includes r sub
     end.

Module Filters.
Record t := mk {
  name : option string;
  skill : option string;
  interest : option string;
  availability : option string
}.
End Filters.

(** A selected filter value: present, non-empty and not the "any" entry. *)
Definition selected (v : option string) (any : string) : option string :=
  match v with
  | Some s => if truthy_string (Some s) && negb (bool_decide (s = any)) then Some s else None
  | None => None
  end.

(** The [where] clauses the search puts on the 'users' collection. *)
Inductive Where :=
| IdNotEqual (id : string)             (* [where('id', '!=', id)] *)
| SkillsContains (skill : string)      (* [where('skills', 'array-contains', skill)] *)
| InterestsContains (interest : string)
                                       (* [where('interests', 'array-contains', interest)] *)
| TeamStatusEqual (status : TeamStatus).
                                       (* [where('teamStatus', '==', status)] *)

Definition matches (u : User.t) (w : Where) : bool :=
  match w with
  | IdNotEqual id => negb (bool_decide (User.id u = id))
  | SkillsContains skill => bool_decide (skill ∈ User.skills u)
  | InterestsContains interest => bool_decide (interest ∈ User.interests u)
  | TeamStatusEqual status => bool_decide (User.teamStatus u = status)
  end.

Definition arrayContains (w : Where) : bool :=
  match w with
  | SkillsContains _ | InterestsContains _ => true
  | _ => false
  end.

(** [getDocs(query(usersRef, ...queries))] over the collection as (document
    id, data) pairs. The store serves at most one [array-contains] clause in
    a query and rejects a query with more; the indexes a served query needs
    are taken to be deployed. *)
Definition getDocs_users (queries : list Where)
    (usersCollection : list (string * User.t)) : Result (list (string * User.t)) :=
  if decide (1 < length (filter (λ w, arrayContains w = true) queries))
  then Throw InvalidArgument
  else Ok (filter (λ d, forallb (matches d.2) queries = true) usersCollection).

(** [searchUsers(filters)]. [currentUser] is [auth.currentUser]'s uid, if any,
    and [usersCollection] the 'users' collection as (document id, data) pairs.
    In [{ id: doc.id, ...doc.data() }] the data's own [id] field, which every
    profile carries, is the one that remains. *)
Definition searchUsers (currentUser : option string) (filters : Filters.t)
    (usersCollection : list (string * User.t)) : Result (list User.t) :=
  match currentUser with
  | None => Throw (Error "No authenticated user found")
  | Some currentUserId =>
      let queries : list Where :=
        [IdNotEqual currentUserId]
        ++ match selected (Filters.skill filters) "Any Skill" with
           | Some skill => [SkillsContains skill]
           | None => []
           end
        ++ match selected (Filters.interest filters) "Any Interest" with
           | Some interest => [InterestsContains interest]
           | None => []
           end
        ++ match selected (Filters.availability filters) "Any" with
           | Some availability =>
               let status :=
                 if decide (availability = "Available")
                 then LookingForATeam else InATeam in
               [TeamStatusEqual status]
           | None => []
           end in
      match getDocs_users queries usersCollection with
      | Throw e => Throw e
      | Ok querySnapshot =>
          let users := map (λ d : string * User.t, d.2) querySnapshot in
          let users :=
            if truthy_string (Filters.name filters) then
              filter (λ u, includes (toLowerCase (User.name u))
                                    (toLowerCase (default "" (Filters.name filters))) = true)
                     users
            else users in
          Ok users
      end
  end.

(** * Auxiliary definitions for the properties *)

(** The writes of an accepted invitation, in the order they are batched. *)
Definition acceptWrites (teamId : string) (teamData : Team.t) (user : User.t)
    : list Write :=
  [ UpdateUser (User.id user)
      (λ u, UserPatch.set_teamId (Some (Some teamId))
              (UserPatch.set_teamStatus InATeam u));
    UpdateTeam teamId
      (λ d, TeamPatch.set_members
              (arrayUnion (UserPatch.delete_profileComplete user) (Team.members d))
              (TeamPatch.set_skills
                 (Array_from_Set (Team.skills teamData ++ User.skills user))
                 (TeamPatch.set_interests
                    (Array_from_Set (Team.interests teamData ++ User.interests user))
                    d)));
    UpdateConversation (teamConversationId teamId)
      (λ c, ConversationPatch.set_participantIds
              (arrayUnion (User.id user) (Conversation.participantIds c))
              (ConversationPatch.set_participants
                 (<[User.id user :=
                      ConversationParticipant.mk (User.id user) (User.name user)
                                                 (User.avatarInitial user)]>
                    (Conversation.participants c)) c)) ].

(** ** Notions used to state the recommendation properties *)

(** [|xs ∩ ys|], the lists read as sets of tags. *)
Definition commonCount (xs ys : list string) : nat :=
  size ((list_to_set xs : gset string) ∩ list_to_set ys).

(** The comparator [(a, b) => key(b) - key(a)]: descending by key. *)
Definition descending {A} (key : A → nat) (a b : A) : Z :=
  (Z.of_nat (key b) - Z.of_nat (key a))%Z.

(** A team the user neither owns nor belongs to. *)
Definition notOwnTeam (currentUser : User.t) (team : Team.t) : Prop :=
  Team.ownerId team ≠ User.id currentUser
  ∧ Forall (λ m, User.id m ≠ User.id currentUser) (Team.members team).

#[global] Instance notOwnTeam_dec currentUser team :
  Decision (notOwnTeam currentUser team).
Proof. unfold notOwnTeam. apply _. Defined.

(** ** Invariants of the store *)

(** The derived sets of a team are the unions over its members. *)
Definition aggregates_ok (team : Team.t) : Prop :=
  (list_to_set (Team.skills team) : gset string)
    = list_to_set (flat_map User.skills (Team.members team))
  ∧ (list_to_set (Team.interests team) : gset string)
    = list_to_set (flat_map User.interests (Team.members team)).

#[global] Instance aggregates_ok_dec team : Decision (aggregates_ok team).
Proof. unfold aggregates_ok. apply _. Defined.

Definition aggregates_inv (db : Db) : Prop :=
  map_Forall (λ _ team, aggregates_ok team) (teams db).

#[global] Instance aggregates_inv_dec db : Decision (aggregates_inv db).
Proof. unfold aggregates_inv. apply _. Defined.

(** The owner of a team is one of its members. *)
Definition owner_ok (team : Team.t) : Prop :=
  Team.ownerId team ∈ User.id <$> Team.members team.

#[global] Instance owner_ok_dec team : Decision (owner_ok team).
Proof. unfold owner_ok. apply _. Defined.

Definition owner_inv (db : Db) : Prop :=
  map_Forall (λ _ team, owner_ok team) (teams db).

#[global] Instance owner_inv_dec db : Decision (owner_inv db).
Proof. unfold owner_inv. apply _. Defined.

(** The profile passed to [deleteUserAccount] carries the owner flag whenever
    the user owns the team the profile refers to. *)
Definition owner_flag_set (user : User.t) (db : Db) : Prop :=
  ∀ teamId team,
    truthy_teamId (User.teamId user) = Some teamId →
    teams db !! teamId = Some team →
    User.id user = Team.ownerId team →
    truthy_bool (User.isTeamOwner user) = true.

(** The team records the membership changes write. *)
Definition memberLeft (user : User.t) (team : Team.t) : Team.t :=
  let updatedMembers := filter (λ m, User.id m ≠ User.id user) (Team.members team) in
  TeamPatch.set_members updatedMembers
    (TeamPatch.set_skills (Array_from_Set (flat_map User.skills updatedMembers))
       (TeamPatch.set_interests
          (Array_from_Set (flat_map User.interests updatedMembers)) team)).

Definition memberJoined (user : User.t) (team : Team.t) : Team.t :=
  TeamPatch.set_members
    (arrayUnion (UserPatch.delete_profileComplete user) (Team.members team))
    (TeamPatch.set_skills (Array_from_Set (Team.skills team ++ User.skills user))
       (TeamPatch.set_interests
          (Array_from_Set (Team.interests team ++ User.interests user)) team)).

Definition memberDeleted (user : User.t) (team : Team.t) : Team.t :=
  TeamPatch.set_members
    (filter (λ m, User.id m ≠ User.id user) (Team.members team)) team.

Definition participantLeft (user : User.t) (conv : Conversation.t) : Conversation.t :=
  ConversationPatch.set_participantIds
    (arrayRemove (User.id user) (Conversation.participantIds conv)) conv.

(** A team record without its derived sets. *)
Definition forget_aggregates (team : Team.t) : Team.t :=
  TeamPatch.set_skills [] (TeamPatch.set_interests [] team).

(** At most one pending invitation per (team, recipient) pair. *)
Definition unique_pending (db : Db) : Prop :=
  ∀ i j a b,
    invitations db !! i = Some a → invitations db !! j = Some b →
    Invitation.status a = pending → Invitation.status b = pending →
    Invitation.teamId a = Invitation.teamId b →
    Invitation.toUserId a = Invitation.toUserId b →
    i = j.

(** The query of [sendInvitation]: pending invitations of a team to a user. *)
Definition pendingFor (teamId toUserId : string) (i : Invitation.t) : Prop :=
  Invitation.teamId i = teamId ∧ Invitation.toUserId i = toUserId
  ∧ Invitation.status i = pending.

(** The same test as the conjunction of the query's [where] clauses. *)
Definition pendingFor_b (teamId toUserId : string) (i : Invitation.t) : bool :=
  bool_decide (Invitation.teamId i = teamId)
  && bool_decide (Invitation.toUserId i = toUserId)
  && bool_decide (Invitation.status i = pending).

(** Writes to the invitations collection. *)
Definition invitation_write (w : Write) : bool :=
  match w with
  | SetInvitation _ _ | DeleteInvitation _ => true
  | _ => false
  end.

(** A computation that leaves the invitations collection as it found it. *)
Definition keeps_invitations {A} (c : M A) : Prop :=
  ∀ db, invitations (c db).2 = invitations db.

(** ** Sequential executions of the service *)

Inductive Call :=
| CreateTeam (newId teamName : string) (owner : User.t)
| LeaveTeam (user : User.t) (teamId : string)
| SendInvitation (newId : string) (now : Z) (team : Team.t) (fromUser toUser : User.t)
| HandleInvitation (invitationId : string) (accepted : bool) (user : User.t)
| DeleteUserAccount (user : User.t).

(** The store after a call, whether it returned or threw. *)
Definition perform (c : Call) (db : Db) : Db :=
  match c with
  | CreateTeam newId teamName owner => (createTeam newId teamName owner db).2
  | LeaveTeam user teamId => (leaveTeam user teamId db).2
  | SendInvitation newId now team fromUser toUser =>
      (sendInvitation newId now team fromUser toUser db).2
  | HandleInvitation invitationId accepted user =>
      (handleInvitation invitationId accepted user db).2
  | DeleteUserAccount user => (deleteUserAccount user db).2
  end.

(** The ids the store generates for new documents are not in use. *)
Definition generated_fresh (c : Call) (db : Db) : Prop :=
  match c with
  | CreateTeam newId _ _ => teams db !! newId = None
  | SendInvitation newId _ _ _ _ => invitations db !! newId = None
  | _ => True
  end.

(** Calls run one after the other, each to completion. *)
Inductive execution : Db → list Call → Db → Prop :=
| execution_done db : execution db [] db
| execution_call db c calls db' :
    generated_fresh c db →
    execution (perform c db) calls db' →
    execution db (c :: calls) db'.

(** ** Sample data used by the worked examples *)

Module Sample.
Definition profile (id name : string) (skills interests : list string) : User.t :=
  User.mk id name (String.substring 0 1 name) "Student" 4 "" (id +:+ "@uni.edu")
          "CS" interests skills [] LookingForATeam (Some true) None None.

Definition alice : User.t := profile "alice" "Alice" ["Python"; "React"] ["AI"].
Definition bob : User.t := profile "bob" "Bob" ["Figma"] ["UI/UX"].
Definition carol : User.t := profile "carol" "Carol" ["Rust"] ["Systems"].

(** Three registered users, no team yet. *)
Definition registered : Db :=
  mkDb {[ "alice" := alice; "bob" := bob; "carol" := carol ]} ∅ ∅ ∅.

(** The store after the call [c], whatever it returned. *)
Definition after {A} (c : M A) (db : Db) : Db := (c db).2.

(** The stored profile of a user, as the client passes it to the service. *)
Definition current (id : string) (db : Db) : User.t :=
  default alice (users db !! id).

(** Alice has created team "Alpha" (document id [t1]). *)
Definition alpha_created : Db := after (createTeam "t1" "Alpha" alice) registered.
Definition alpha (db : Db) : Team.t :=
  default (Team.mk "" "" "" [] [] []) (teams db !! "t1").

(** ... has invited Bob (invitation [i1]) ... *)
Definition bob_invited : Db :=
  after (sendInvitation "i1" 1000 (alpha alpha_created)
           (current "alice" alpha_created) bob) alpha_created.

(** ... and Bob has accepted. *)
Definition bob_joined : Db := after (handleInvitation "i1" true bob) bob_invited.
(** *** A longer history

    Carol creates "Beta" ([t2]) and invites Alice; Alice creates "Alpha"
    ([t1]) and invites Bob; Bob creates "Gamma" ([t3]) and then accepts
    Alice's invitation; Alice accepts Carol's invitation, then leaves Beta,
    which clears her profile's team fields although she still owns Alpha.
    Bob, whose profile still carries the owner flag and now refers to
    Alpha, invites her to Alpha, and she accepts. *)
Definition team (k : string) (db : Db) : Team.t :=
  default (Team.mk "" "" "" [] [] []) (teams db !! k).
Definition invitation (k : string) (db : Db) : Invitation.t :=
  default (Invitation.mk "" "" (Invitation.mkSender "" "") "" pending 0)
          (invitations db !! k).
Definition conversation (k : string) (db : Db) : Conversation.t :=
  default (Conversation.mk ∅ [] None None None None) (conversations db !! k).

(** A call's outcome: whether it threw, and the store it left. *)
Definition outcome {A} (c : M A) (db : Db) : bool * Db := (thrown (c db).1, (c db).2).

Definition history : list (Db → bool * Db) :=
[ λ db, outcome (createTeam "t2" "Beta" (current "carol" db)) db;
  λ db, outcome (sendInvitation "i1" 1000 (team "t2" db) (current "carol" db)
                   (current "alice" db)) db;
  λ db, outcome (createTeam "t1" "Alpha" (current "alice" db)) db;
  λ db, outcome (sendInvitation "i2" 1001 (team "t1" db) (current "alice" db)
                   (current "bob" db)) db;
  λ db, outcome (createTeam "t3" "Gamma" (current "bob" db)) db;
  λ db, outcome (handleInvitation "i2" true (current "bob" db)) db;
  λ db, outcome (handleInvitation "i1" true (current "alice" db)) db;
  λ db, outcome (leaveTeam (current "alice" db) "t2") db;
  λ db, outcome (sendInvitation "i3" 1002 (team "t1" db) (current "bob" db)
                   (current "alice" db)) db ].

(** Runs the calls in order, logging which of them threw. *)
Definition replay (calls : list (Db → bool * Db)) (db : Db) : list bool * Db :=
  fold_left (λ acc call, let r := call acc.2 in (acc.1 ++ [r.1], r.2)) calls ([], db).

(** Alice has a pending invitation to the team she owns. *)
Definition alice_reinvited : Db := (replay history registered).2.

(** Alice has accepted it. *)
Definition alice_rejoined : Db :=
  after (handleInvitation "i3" true (current "alice" alice_reinvited)) alice_reinvited.
End Sample.


(** * Further operations of the service and their callers *)

(** ** Profiles *)

(** [getUserProfile(userId)]: [{ id: snap.id, ...snap.data() }], where the
    data's own [id] field is the one that remains. *)
Definition getUserProfile (userId : string) : M (option User.t) := getDoc_user userId.

(** [Partial<User>]: the fields an update names, [None] for a field it leaves
    out. *)
Module PartialUser.
Record t := mk {
  id : option string;
  name : option string;
  avatarInitial : option string;
  title : option string;
  year : option Z;
  about : option string;
  email : option string;
  department : option string;
  interests : option (list string);
  skills : option (list string);
  workingPreferences : option (list string);
  teamStatus : option TeamStatus;
  profileComplete : option bool;
  teamId : option (option string);
  isTeamOwner : option bool
}.

Definition empty : t :=
  mk None None None None None None None None None None None None None None None.

(** A named field overwrites the stored one. *)
Definition overwrite {A} (new : option A) (old : A) : A := default old new.
Definition overwrite_optional {A} (new : option A) (old : option A) : option A :=
  match new with Some v => Some v | None => old end.

(** [updateDoc(ref, profileData)] as a patch of the stored profile. *)
Definition apply (p : t) (u : User.t) : User.t :=
  User.mk (overwrite (id p) (User.id u))
          (overwrite (name p) (User.name u))
          (overwrite (avatarInitial p) (User.avatarInitial u))
          (overwrite (title p) (User.title u))
          (overwrite (year p) (User.year u))
          (overwrite (about p) (User.about u))
          (overwrite (email p) (User.email u))
          (overwrite (department p) (User.department u))
          (overwrite (interests p) (User.interests u))
          (overwrite (skills p) (User.skills u))
          (overwrite (workingPreferences p) (User.workingPreferences u))
          (overwrite (teamStatus p) (User.teamStatus u))
          (overwrite_optional (profileComplete p) (User.profileComplete u))
          (overwrite_optional (teamId p) (User.teamId u))
          (overwrite_optional (isTeamOwner p) (User.isTeamOwner u)).
End PartialUser.

Definition updateUserProfile (userId : string) (profileData : PartialUser.t)
    : M User.t :=
  run write (UpdateUser userId (PartialUser.apply profileData));
  await updatedUser ← getUserProfile userId;
  match updatedUser with
  | None => throw (Error "Could not retrieve updated user profile.")
  | Some updatedUser => ret updatedUser
  end.

(** [getSuggestedTeammates()]: [where id != uid], [where teamStatus ==
    'Looking for a team'], [limit(4)], over the 'users' collection as the
    store enumerates it. *)
Definition getSuggestedTeammates (currentUser : option string)
    (usersCollection : list (string * User.t)) : Result (list User.t) :=
  match currentUser with
  | None => Throw (Error "No authenticated user found")
  | Some currentUserId =>
      let querySnapshot :=
        take 4
          (filter (λ d : string * User.t,
                     negb (bool_decide (User.id d.2 = currentUserId))
                     && bool_decide (User.teamStatus d.2 = LookingForATeam) = true)
                  usersCollection) in
      Ok (map (λ d : string * User.t, d.2) querySnapshot)
  end.

(** ** Invitations as the recipient sees them *)

(** [listenForInvitations(callback)]: the snapshot the listener delivers for
    a state of the store, each invitation as [{ id: doc.id, ...doc.data() }],
    here the pair of the document id and its data. *)
Definition listenForInvitations (currentUser : option string) (db : Db)
    : Result (list (string * Invitation.t)) :=
  match currentUser with
  | None => Throw (Error "No authenticated user found")
  | Some currentUserId =>
      Ok (query (λ i, bool_decide (Invitation.toUserId i = currentUserId)
                      && bool_decide (Invitation.status i = pending))
                (invitations db))
  end.

(** [try { ... } catch (error) { ... }] around a call whose error is only
    reported. *)
Definition try_catch (c : M unit) : M unit :=
  λ db, match c db with
        | (Ok _, db') => (Ok tt, db')
        | (Throw _, db') => (Ok tt, db')
        end.

(** [canInvite] of the profile page. *)
Definition canInvite (currentUser : option User.t) (user : User.t) : bool :=
  match currentUser with
  | Some currentUser =>
      truthy_bool (User.isTeamOwner currentUser)
      && bool_decide (User.teamStatus user = LookingForATeam)
  | None => false
  end.

(** [handleInvite] of the profile page: the viewer invites the viewed user
    to the team the viewer's profile refers to. *)
Definition handleInvite (newId : string) (now : Z) (currentUser : option User.t)
    (user : User.t) : M unit :=
  match currentUser with
  | None => ret tt
  | Some currentUser =>
      match truthy_teamId (User.teamId currentUser) with
      | None => ret tt
      | Some teamId =>
          try_catch
            (await ownerTeam ← getTeam teamId;
             match ownerTeam with
             | Some ownerTeam => sendInvitation newId now ownerTeam currentUser user
             | None => ret tt
             end)
      end
  end.

(** ** Direct conversations *)

(** [[a, b].sort()]: the default sort orders the two strings by their code
    units, which for ASCII strings is the order of [String.ltb]. *)
Definition Array_sort2 (a b : string) : list string :=
  if String.ltb b a then [b; a] else [a; b].

Definition getDoc_conversation (k : string) : M (option Conversation.t) :=
  λ db, (Ok (conversations db !! k), db).

Definition findOrCreateConversation (currentUser otherUser : User.t) : M string :=
  let currentUserId := User.id currentUser in
  let otherUserId := User.id otherUser in
  let conversationId := String.concat "_" (Array_sort2 currentUserId otherUserId) in
  await docSnap ← getDoc_conversation conversationId;
  run (match docSnap with
       | None =>
           let participants : gmap string ConversationParticipant.t :=
             <[otherUserId :=
                 ConversationParticipant.mk otherUserId (User.name otherUser)
                                            (User.avatarInitial otherUser)]>
               {[ currentUserId :=
                    ConversationParticipant.mk currentUserId (User.name currentUser)
                                               (User.avatarInitial currentUser) ]} in
           write (SetConversation conversationId
                    (Conversation.mk participants [currentUserId; otherUserId]
                                     None None None None))
       | Some _ => ret tt
       end);
  ret conversationId.

(** ** Text entered in the forms *)

(** [s.split(sep)] for a one-character separator. *)
Fixpoint split (sep : ascii) (s : string) : list string :=
  match s with
  | EmptyString => [EmptyString]
  | String c r =>
      if Ascii.eqb c sep then EmptyString :: split sep r
      else match split sep r with
           | h :: t => String c h :: t
           | [] => [String c EmptyString]
           end
  end.

(** White space, among the ASCII characters. *)
Definition isWhiteSpace (c : ascii) : bool :=
  let n := nat_of_ascii c in ((9 <=? n) && (n <=? 13)) || (n =? 32).

Fixpoint trimStart (s : string) : string :=
  match s with
  | EmptyString => EmptyString
  | String c r => if isWhiteSpace c then trimStart r else s
  end.

Fixpoint trimEnd (s : string) : string :=
  match s with
  | EmptyString => EmptyString
  | String c r =>
      match trimEnd r with
      | EmptyString => if isWhiteSpace c then EmptyString else String c EmptyString
      | r' => String c r'
      end
  end.

(** [s.trim()], on ASCII text. *)
Definition trim (s : string) : string := trimEnd (trimStart s).

(** [value.split(',').map(s => s.trim()).filter(Boolean)]: the skills and
    interests typed into the onboarding and profile forms. *)
Definition parseTags (value : string) : list string :=
  filter (λ s, s ≠ EmptyString) (map trim (split "," value)).

(** [String.prototype.toUpperCase] on the ASCII letters. *)
Definition toUpperCase_ascii (c : ascii) : ascii :=
  let n := nat_of_ascii c in
  if ((97 <=? n) && (n <=? 122))%nat then ascii_of_nat (n - 32) else c.
Fixpoint toUpperCase (s : string) : string :=
  match s with
  | EmptyString => EmptyString
  | String c r => String (toUpperCase_ascii c) (toUpperCase r)
  end.

(** [n[0]] inside [join('')]: the first character (the first code unit, for
    ASCII text), nothing for [''] . *)
Definition firstChar (n : string) : string :=
  match n with
  | EmptyString => EmptyString
  | String c _ => String c EmptyString
  end.

(** [name.split(' ').map(n => n[0]).join('').toUpperCase() || '?'] of the
    sign-up form. *)
Definition avatarInitialOf (name : string) : string :=
  let initials := toUpperCase (String.concat "" (map firstChar (split " " name))) in
  if decide (initials = EmptyString) then "?" else initials.

(** The profile document the sign-up form writes for a new account. *)
Definition newUserProfile (uid name email : string) : User.t :=
  User.mk uid name (avatarInitialOf name) "New Student" 1
          "I'm a new student ready to find a great team for my project!"
          email "Not specified" [] [] [] LookingForATeam (Some false) None None.

(** ** Notions used to state the further properties *)

(** The [where] clauses [searchUsers] builds from the filters. *)
Definition searchQueries (currentUserId : string) (filters : Filters.t) : list Where :=
  [IdNotEqual currentUserId]
  ++ match selected (Filters.skill filters) "Any Skill" with
     | Some skill => [SkillsContains skill]
     | None => []
     end
  ++ match selected (Filters.interest filters) "Any Interest" with
     | Some interest => [InterestsContains interest]
     | None => []
     end
  ++ match selected (Filters.availability filters) "Any" with
     | Some availability =>
         let status :=
           if decide (availability = "Available")
           then LookingForATeam else InATeam in
         [TeamStatusEqual status]
     | None => []
     end.


(** A computation that leaves a part of the store as it found it. *)
Definition preserves {A X} (part : Db → X) (c : M A) : Prop :=
  ∀ db, part (c db).2 = part db.

(** Writes to the users collection. *)
Definition user_write (w : Write) : bool :=
  match w with
  | UpdateUser _ _ | DeleteUser _ => true
  | _ => false
  end.

(** The profile after an accepted invitation and after [createTeam]. *)
Definition profileJoined (teamId : string) (profile : User.t) : User.t :=
  UserPatch.set_teamId (Some (Some teamId)) (UserPatch.set_teamStatus InATeam profile).

Definition profileOwning (teamId : string) (profile : User.t) : User.t :=
  UserPatch.set_teamId (Some (Some teamId))
    (UserPatch.set_isTeamOwner (Some true) (UserPatch.set_teamStatus InATeam profile)).

(** The part of [deleteUserAccount] that runs before the user document is
    deleted: the update of the user's team and its conversation. *)
Definition detachFromTeam (user : User.t) : M unit :=
  match truthy_teamId (User.teamId user) with
  | Some teamId =>
      await teamSnap ← getDoc_team teamId;
      match teamSnap with
      | Some team =>
          if truthy_bool (User.isTeamOwner user) then
            if decide (1 < length (Team.members team)) then
              throw (Error "You are the owner of a team with other members. Please transfer ownership or remove all members before deleting your account.")
            else
              run write (DeleteTeam teamId);
              write (DeleteConversation (teamConversationId teamId))
          else
            let updatedMembers :=
              filter (λ m, User.id m ≠ User.id user) (Team.members team) in
            run write (UpdateTeam teamId (TeamPatch.set_members updatedMembers));
            write (UpdateConversation (teamConversationId teamId)
                     (λ c, ConversationPatch.set_participantIds
                             (arrayRemove (User.id user)
                                (Conversation.participantIds c)) c))
      | None => ret tt
      end
  | None => ret tt
  end.

(** The participants of a team's conversation are the team's members. *)
Definition synced (team : Team.t) (conv : Conversation.t) : Prop :=
  (list_to_set (Conversation.participantIds conv) : gset string)
  = list_to_set (User.id <$> Team.members team).

#[global] Instance synced_dec team conv : Decision (synced team conv).
Proof. unfold synced. apply _. Defined.

(** Every team has its conversation, and the two agree on who is in. *)
Definition roster_inv (db : Db) : Prop :=
  map_Forall
    (λ teamId team,
       match conversations db !! teamConversationId teamId with
       | Some conv => synced team conv
       | None => False
       end)
    (teams db).

#[global] Instance roster_inv_dec db : Decision (roster_inv db).
Proof. unfold roster_inv. apply map_Forall_dec. intros k t. case_match; apply _. Defined.

(** The conversation record an accepted invitation writes. *)
Definition participantJoined (user : User.t) (conv : Conversation.t) : Conversation.t :=
  ConversationPatch.set_participantIds
    (arrayUnion (User.id user) (Conversation.participantIds conv))
    (ConversationPatch.set_participants
       (<[User.id user :=
            ConversationParticipant.mk (User.id user) (User.name user)
                                       (User.avatarInitial user)]>
          (Conversation.participants conv)) conv).

(** The characters of a string. *)
Definition chars (s : string) : list ascii := list_ascii_of_string s.

(** [tags.join(', ')]: how the profile form shows a list of tags. *)
Definition showTags (tags : list string) : string := String.concat ", " tags.

(** A tag as the forms store it: not empty, without a comma, without white
    space at either end. *)
Definition cleanTag (t : string) : Prop :=
  t ≠ EmptyString ∧ (","%char ∉ chars t) ∧ trimStart t = t ∧ trimEnd t = t.

(** ** Messaging *)

(** [getConversations(callback)]: the snapshot the listener delivers for a
    state of the store, [where participantIds array-contains uid], each
    conversation as the pair of its document id and its data. *)
Definition getConversations (currentUser : option string) (db : Db)
    : Result (list (string * Conversation.t)) :=
  match currentUser with
  | None => Throw (Error "No authenticated user found")
  | Some currentUserId =>
      Ok (query (λ c, bool_decide (currentUserId ∈ Conversation.participantIds c))
                (conversations db))
  end.

(** The store together with the [messages] subcollections of the
    conversations: per conversation id, the message documents by their id.
    A subcollection can hold documents whether or not its parent document
    exists. *)
Record Chat := mkChat {
  store : Db;
  messages : gmap string (gmap string Conversation.message)
}.

(** [sendMessage(conversationId, text)]. [currentUser] is
    [auth.currentUser]'s uid, if any, [newId] the id [addDoc] generates for
    the message and [now] is [Timestamp.now()]. The message is added first,
    then the conversation's [lastMessage] is updated. *)
Definition sendMessage (currentUser : option string) (newId : string) (now : Z)
    (conversationId text : string) (chat : Chat) : Result unit * Chat :=
  match currentUser with
  | None => (Throw (Error "No authenticated user found"), chat)
  | Some currentUserId =>
      let newMessage := Conversation.mkMessage text now currentUserId in
      let added :=
        <[conversationId :=
            <[newId := newMessage]> (default ∅ (messages chat !! conversationId))]>
          (messages chat) in
      match write (UpdateConversation conversationId
                     (λ c, Conversation.mk (Conversation.participants c)
                             (Conversation.participantIds c) (Some newMessage)
                             (Conversation.isGroupChat c) (Conversation.groupName c)
                             (Conversation.teamId c)))
                  (store chat) with
      | (Ok _, db') => (Ok tt, mkChat db' added)
      | (Throw e, db') => (Throw e, mkChat db' added)
      end
  end.

(** [handleSendMessage] of the messages page: nothing is sent for a blank
    text or without a selected conversation. *)
Definition handleSendMessage (currentUser : option string) (newId : string) (now : Z)
    (selectedConversationId : option string) (newMessage : string) (chat : Chat)
    : Result unit * Chat :=
  if bool_decide (trim newMessage = EmptyString)
     || negb (truthy_string selectedConversationId)
  then (Ok tt, chat)
  else sendMessage currentUser newId now (default "" selectedConversationId)
                   newMessage chat.
(** * Properties *)

(** ** Running the monad *)

Ltac run_m :=
  unfold bind, ret, throw, write, commit, getDoc_team, getDoc_user,
    getDoc_invitation; simpl.

(** Settles a decidable statement about concrete data by evaluating its
    decision procedure. *)
Ltac by_evaluation :=
  match goal with
  | |- ?P => apply (bool_decide_unpack P); vm_compute; exact I
  end.

Ltac refuted_by_evaluation :=
  match goal with
  | |- ¬ ?P => apply (bool_decide_eq_false_1 P); vm_compute; reflexivity
  end.

Lemma update_in_Some {A} (k : string) (f : A → A) (m : gmap string A) (d : A) :
  m !! k = Some d → update_in k f m = Some (<[k := f d]> m).
Proof. intros H. unfold update_in. by rewrite H. Qed.

Lemma update_in_None {A} (k : string) (f : A → A) (m : gmap string A) :
  m !! k = None → update_in k f m = None.
Proof. intros H. unfold update_in. by rewrite H. Qed.

(** A rejected batch leaves the store as it was. *)
Lemma commit_Throw batch db e db' :
  commit batch db = (Throw e, db') → db' = db.
Proof. unfold commit. destruct (apply_batch batch db); congruence. Qed.

(** ** leaveTeam *)

(** C4. An owner of a team with more than one member cannot leave: the call
    throws the owner-must-transfer error and the store (so the team record
    and the user's profile) is unchanged. *)
Theorem leaveTeam_owner_with_others (user : User.t) (teamId : string) (db : Db)
    (team : Team.t) :
  teams db !! teamId = Some team →
  User.id user = Team.ownerId team →
  1 < length (Team.members team) →
  leaveTeam user teamId db =
    (Throw (Error "You are the owner. Please transfer ownership or remove other members before leaving."),
     db).
Proof.
  intros Hteam Hown Hlen. unfold leaveTeam. run_m. rewrite Hteam.
  rewrite decide_True by done. by rewrite decide_True by done.
Qed.

Lemma leaveTeam_owner_with_others_witness :
  let db := Sample.bob_joined in
  let alice := Sample.current "alice" db in
  (leaveTeam alice "t1" db).2 = db
  ∧ teams (leaveTeam alice "t1" db).2 !! "t1" = teams db !! "t1"
  ∧ users (leaveTeam alice "t1" db).2 !! "alice" = users db !! "alice".
Proof.
  intros db alice.
  rewrite (leaveTeam_owner_with_others alice "t1" db (Sample.alpha db));
    [done | by vm_compute | by vm_compute | vm_compute; lia].
Defined.

(** C5. When the owner is the only member, leaving deletes the team and its
    conversation and resets the team fields of the owner's profile. *)
Theorem leaveTeam_sole_owner (user : User.t) (teamId : string) (db : Db)
    (team : Team.t) (profile : User.t) :
  teams db !! teamId = Some team →
  User.id user = Team.ownerId team →
  length (Team.members team) = 1 →
  users db !! User.id user = Some profile →
  ∃ db' profile',
    leaveTeam user teamId db = (Ok tt, db')
    ∧ teams db' = delete teamId (teams db)
    ∧ teams db' !! teamId = None
    ∧ conversations db' = delete (teamConversationId teamId) (conversations db)
    ∧ conversations db' !! teamConversationId teamId = None
    ∧ invitations db' = invitations db
    ∧ users db' = <[User.id user := profile']> (users db)
    ∧ profile' = clearTeamFields profile
    ∧ User.teamId profile' = Some None
    ∧ User.isTeamOwner profile' = Some false
    ∧ User.teamStatus profile' = LookingForATeam.
Proof.
  intros Hteam Hown Hlen Hprof.
  exists (mkDb (<[User.id user := clearTeamFields profile]> (users db))
               (delete teamId (teams db))
               (delete (teamConversationId teamId) (conversations db))
               (invitations db)),
         (clearTeamFields profile).
  split.
  - unfold leaveTeam. run_m. rewrite Hteam.
    rewrite decide_True by done. rewrite decide_False by lia.
    run_m. by rewrite (update_in_Some _ _ _ _ Hprof).
  - simpl. repeat split; by rewrite lookup_delete_eq.
Qed.

Lemma leaveTeam_sole_owner_witness :
  let db := Sample.alpha_created in
  ∃ db', leaveTeam (Sample.current "alice" db) "t1" db = (Ok tt, db')
         ∧ teams db' !! "t1" = None
         ∧ conversations db' !! "team_t1" = None.
Proof.
  intros db.
  destruct (leaveTeam_sole_owner (Sample.current "alice" db) "t1" db
              (Sample.alpha db) (Sample.current "alice" db))
    as (db' & p' & Hrun & _ & Ht & _ & Hc & _); [by vm_compute ..|].
  exists db'. by repeat split.
Defined.

(** ** handleInvitation *)

Lemma handleInvitation_decline invitationId user db invitation :
  invitations db !! invitationId = Some invitation →
  handleInvitation invitationId false user db =
    (Ok tt, set_invitations (delete invitationId) db).
Proof. intros Hinv. unfold handleInvitation. run_m. by rewrite Hinv. Qed.

Lemma handleInvitation_accept_no_team invitationId user db invitation :
  invitations db !! invitationId = Some invitation →
  teams db !! Invitation.teamId invitation = None →
  handleInvitation invitationId true user db = (Throw (Error "Team not found."), db).
Proof.
  intros Hinv Hteam. unfold handleInvitation. run_m. rewrite Hinv. run_m.
  by rewrite Hteam.
Qed.

Lemma handleInvitation_accept_commit invitationId user db invitation teamData :
  invitations db !! invitationId = Some invitation →
  teams db !! Invitation.teamId invitation = Some teamData →
  handleInvitation invitationId true user db =
    commit (acceptWrites (Invitation.teamId invitation) teamData user
              ++ [DeleteInvitation invitationId]) db.
Proof.
  intros Hinv Hteam. unfold handleInvitation. run_m. rewrite Hinv. run_m.
  by rewrite Hteam.
Qed.

(** What the batch of an accepted invitation does when every document it
    updates is there. *)
Lemma accept_batch_applies invitationId teamId teamData user db profile conv :
  users db !! User.id user = Some profile →
  teams db !! teamId = Some teamData →
  conversations db !! teamConversationId teamId = Some conv →
  apply_batch (acceptWrites teamId teamData user ++ [DeleteInvitation invitationId]) db =
    inr (mkDb
           (<[User.id user :=
                UserPatch.set_teamId (Some (Some teamId))
                  (UserPatch.set_teamStatus InATeam profile)]> (users db))
           (<[teamId :=
                TeamPatch.set_members
                  (arrayUnion (UserPatch.delete_profileComplete user)
                              (Team.members teamData))
                  (TeamPatch.set_skills
                     (Array_from_Set (Team.skills teamData ++ User.skills user))
                     (TeamPatch.set_interests
                        (Array_from_Set
                           (Team.interests teamData ++ User.interests user))
                        teamData))]> (teams db))
           (<[teamConversationId teamId :=
                ConversationPatch.set_participantIds
                  (arrayUnion (User.id user) (Conversation.participantIds conv))
                  (ConversationPatch.set_participants
                     (<[User.id user :=
                          ConversationParticipant.mk (User.id user) (User.name user)
                                                     (User.avatarInitial user)]>
                        (Conversation.participants conv)) conv)]>
              (conversations db))
           (delete invitationId (invitations db))).
Proof.
  intros Hu Ht Hc. simpl.
  rewrite (update_in_Some _ _ _ _ Hu). simpl.
  rewrite (update_in_Some _ _ _ _ Ht). simpl.
  by rewrite (update_in_Some _ _ _ _ Hc).
Qed.

(** The batch of an accepted invitation only ever removes that invitation
    from the invitations collection. *)
Lemma accept_batch_invitations invitationId teamId teamData user db db' :
  apply_batch (acceptWrites teamId teamData user ++ [DeleteInvitation invitationId]) db
    = inr db' →
  invitations db' = delete invitationId (invitations db).
Proof.
  simpl. unfold update_in.
  destruct (users db !! User.id user); simpl; [|done].
  destruct (teams db !! teamId); simpl; [|done].
  destruct (conversations db !! teamConversationId teamId); simpl; [|done].
  by intros [= <-].
Qed.

(** C2 (as the code has it). Once the invitation is found, resolving it
    removes it from the store whenever the call completes, and declining
    always completes; when the call throws (accepting while the team is gone,
    or the batch is rejected) nothing is written, so the invitation stays. *)
Theorem handleInvitation_deletes_on_completion (invitationId : string)
    (accepted : bool) (user : User.t) (db : Db) (invitation : Invitation.t) :
  invitations db !! invitationId = Some invitation →
  match handleInvitation invitationId accepted user db with
  | (Ok _, db') =>
      invitations db' = delete invitationId (invitations db)
      ∧ invitations db' !! invitationId = None
  | (Throw _, db') =>
      db' = db ∧ invitations db' !! invitationId = Some invitation
  end
  ∧ (accepted = false → (handleInvitation invitationId accepted user db).1 = Ok tt).
Proof.
  intros Hinv. destruct accepted.
  - split; [|done].
    destruct (teams db !! Invitation.teamId invitation) as [teamData|] eqn:Hteam.
    + rewrite (handleInvitation_accept_commit _ _ _ _ _ Hinv Hteam).
      unfold commit.
      destruct (apply_batch _ db) as [e|db'] eqn:Hb; [done|].
      apply accept_batch_invitations in Hb. rewrite Hb.
      by rewrite lookup_delete_eq.
    + by rewrite (handleInvitation_accept_no_team _ _ _ _ Hinv Hteam).
  - rewrite (handleInvitation_decline _ _ _ _ Hinv). simpl.
    by rewrite lookup_delete_eq.
Qed.

Lemma handleInvitation_deletes_on_completion_witness :
  invitations (handleInvitation "i1" true Sample.bob Sample.bob_invited).2 !! "i1"
  = None.
Proof.
  pose proof (handleInvitation_deletes_on_completion "i1" true Sample.bob
                Sample.bob_invited
                (Invitation.mk "t1" "Alpha" (Invitation.mkSender "alice" "Alice")
                               "bob" pending 1000)) as H.
  destruct H as [H _]; [by vm_compute|].
  destruct (handleInvitation "i1" true Sample.bob Sample.bob_invited)
    as [[[]|e] db'] eqn:Hrun; [by destruct H|].
  by vm_compute in Hrun.
Defined.

(** C2 (as stated) fails: Alice dissolves her team while Bob's invitation is
    pending; when Bob then accepts, the call throws "Team not found." and the
    invitation is still in the store. *)
Lemma handleInvitation_always_deletes_counterexample :
  ¬ (∀ invitationId accepted user db,
       is_Some (invitations db !! invitationId) →
       invitations (handleInvitation invitationId accepted user db).2
         !! invitationId = None).
Proof.
  intros H.
  pose (db := Sample.after
                (leaveTeam (Sample.current "alice" Sample.bob_invited) "t1")
                Sample.bob_invited).
  specialize (H "i1" true Sample.bob db).
  assert (Hrun : handleInvitation "i1" true Sample.bob db
                 = (Throw (Error "Team not found."), db)) by by vm_compute.
  rewrite Hrun in H. simpl in H.
  assert (Hin : is_Some (invitations db !! "i1")) by (vm_compute; eauto).
  specialize (H Hin). by vm_compute in H.
Qed.

Lemma arrayUnion_new {A} `{EqDecision A} (x : A) (l : list A) :
  x ∉ l → arrayUnion x l = l ++ [x].
Proof. intros Hx. unfold arrayUnion. by rewrite decide_False. Qed.

Lemma arrayUnion_old {A} `{EqDecision A} (x : A) (l : list A) :
  x ∈ l → arrayUnion x l = l.
Proof. intros Hx. unfold arrayUnion. by rewrite decide_True. Qed.

(** C6 (as the code has it). With the accepting user's profile and the
    team's conversation in the store, accepting a pending invitation
    completes, removes exactly that invitation, and adds the user's summary
    (the profile passed in, without [profileComplete]) to the team's members
    and the user's id to the conversation's participants with [arrayUnion].
    The members gain exactly one entry, the summary at the end, unless an
    entry equal to the summary in every field is already among them, and
    only then are they unchanged: they gain it whenever no member has the
    user's id, and also when a member has that id with a different summary,
    who is then listed twice. The participants gain exactly the user's id
    unless it is already among them, and are unchanged then. Declining
    removes the invitation and changes no other collection. *)
Theorem handleInvitation_effect (invitationId : string) (user : User.t) (db : Db)
    (invitation : Invitation.t) (team : Team.t) (profile : User.t)
    (conv : Conversation.t) :
  invitations db !! invitationId = Some invitation →
  teams db !! Invitation.teamId invitation = Some team →
  users db !! User.id user = Some profile →
  conversations db !! teamConversationId (Invitation.teamId invitation) = Some conv →
  (∃ db' team' conv',
      handleInvitation invitationId true user db = (Ok tt, db')
      ∧ invitations db' = delete invitationId (invitations db)
      ∧ size (invitations db) = S (size (invitations db'))
      ∧ teams db' = <[Invitation.teamId invitation := team']> (teams db)
      ∧ Team.members team' =
          arrayUnion (UserPatch.delete_profileComplete user) (Team.members team)
      ∧ ((∀ m, m ∈ Team.members team → User.id m ≠ User.id user) →
         Team.members team' =
           Team.members team ++ [UserPatch.delete_profileComplete user]
         ∧ length (Team.members team') = S (length (Team.members team)))
      ∧ (UserPatch.delete_profileComplete user ∉ Team.members team →
         Team.members team' =
           Team.members team ++ [UserPatch.delete_profileComplete user]
         ∧ length (Team.members team') = S (length (Team.members team)))
      ∧ (UserPatch.delete_profileComplete user ∈ Team.members team →
         Team.members team' = Team.members team)
      ∧ conversations db' =
          <[teamConversationId (Invitation.teamId invitation) := conv']>
            (conversations db)
      ∧ Conversation.participantIds conv' =
          arrayUnion (User.id user) (Conversation.participantIds conv)
      ∧ (User.id user ∉ Conversation.participantIds conv →
         Conversation.participantIds conv' =
           Conversation.participantIds conv ++ [User.id user]
         ∧ length (Conversation.participantIds conv') =
             S (length (Conversation.participantIds conv)))
      ∧ (User.id user ∈ Conversation.participantIds conv →
         Conversation.participantIds conv' = Conversation.participantIds conv)
      ∧ Conversation.participants conv' !! User.id user =
          Some (ConversationParticipant.mk (User.id user) (User.name user)
                                           (User.avatarInitial user)))
  ∧ (∃ db',
      handleInvitation invitationId false user db = (Ok tt, db')
      ∧ invitations db' = delete invitationId (invitations db)
      ∧ size (invitations db) = S (size (invitations db'))
      ∧ teams db' = teams db
      ∧ users db' = users db
      ∧ conversations db' = conversations db).
Proof.
  intros Hinv Hteam Hprof Hconv.
  assert (Hsize : size (invitations db)
                  = S (size (delete invitationId (invitations db)))).
  { rewrite (map_size_delete_Some _ _ (mk_is_Some _ _ Hinv)).
    assert (size (invitations db) ≠ 0); [|lia].
    intros Hz. apply map_size_empty_iff in Hz. by rewrite Hz in Hinv. }
  split.
  - rewrite (handleInvitation_accept_commit _ _ _ _ _ Hinv Hteam). unfold commit.
    rewrite (accept_batch_applies _ _ _ _ _ _ _ Hprof Hteam Hconv).
    eexists _, _, _. split; [done|]. simpl.
    split; [done|]. split; [done|]. split; [done|]. split; [done|].
    assert (Happended :
              UserPatch.delete_profileComplete user ∉ Team.members team →
              arrayUnion (UserPatch.delete_profileComplete user) (Team.members team)
              = Team.members team ++ [UserPatch.delete_profileComplete user]
              ∧ length (arrayUnion (UserPatch.delete_profileComplete user)
                          (Team.members team))
                = S (length (Team.members team))).
    { intros Hnotin. rewrite (arrayUnion_new _ _ Hnotin). split; [done|].
      rewrite length_app. simpl. lia. }
    split.
    { intros Hnew. cbn. apply Happended. intros Hin. by apply (Hnew _ Hin). }
    split; [intros Hnotin; cbn; by apply Happended|].
    split; [intros Hin; cbn; by apply arrayUnion_old|].
    split; [done|]. split; [done|]. split.
    { intros Hnotin. cbn. rewrite (arrayUnion_new _ _ Hnotin). split; [done|].
      rewrite length_app. simpl. lia. }
    split; [intros Hin; cbn; by apply arrayUnion_old|].
    cbn. by rewrite lookup_insert_eq.
  - rewrite (handleInvitation_decline _ _ _ _ Hinv).
    eexists. split; [done|]. by simpl.
Qed.

Lemma handleInvitation_effect_witness :
  ∃ db', handleInvitation "i1" true Sample.bob Sample.bob_invited = (Ok tt, db')
         ∧ size (invitations Sample.bob_invited) = S (size (invitations db'))
         ∧ length (Team.members (Sample.team "t1" db')) = 2
         ∧ length (Conversation.participantIds (Sample.conversation "team_t1" db')) = 2.
Proof.
  destruct (handleInvitation_effect "i1" Sample.bob Sample.bob_invited
              (Sample.invitation "i1" Sample.bob_invited)
              (Sample.team "t1" Sample.bob_invited)
              (Sample.current "bob" Sample.bob_invited)
              (Sample.conversation "team_t1" Sample.bob_invited))
    as [(db' & t' & c' & Hrun & _ & Hsize & _) _]; [by vm_compute ..|].
  exists db'. split; [done|]. split; [done|].
  assert (Hdb : (handleInvitation "i1" true Sample.bob Sample.bob_invited).2 = db')
    by by rewrite Hrun.
  subst db'. by vm_compute.
Defined.

(** Every call of the longer history completes. *)
Example history_completes :
  (Sample.replay Sample.history Sample.registered).1 = repeat false 9.
Proof. by vm_compute. Qed.

(** C6 (as stated) fails: Alice is already a participant of her team's
    conversation when she accepts the invitation to it, so the conversation
    gains no participant. *)
Lemma handleInvitation_adds_one_counterexample :
  ¬ (∀ invitationId user db invitation team conv,
       invitations db !! invitationId = Some invitation →
       teams db !! Invitation.teamId invitation = Some team →
       conversations db !! teamConversationId (Invitation.teamId invitation)
         = Some conv →
       let db' := (handleInvitation invitationId true user db).2 in
       ∃ team' conv',
         teams db' !! Invitation.teamId invitation = Some team'
         ∧ length (Team.members team') = S (length (Team.members team))
         ∧ size (invitations db) = S (size (invitations db'))
         ∧ conversations db' !! teamConversationId (Invitation.teamId invitation)
           = Some conv'
         ∧ length (Conversation.participantIds conv')
           = S (length (Conversation.participantIds conv))).
Proof.
  intros H.
  destruct (H "i3" (Sample.current "alice" Sample.alice_reinvited)
              Sample.alice_reinvited
              (Sample.invitation "i3" Sample.alice_reinvited)
              (Sample.team "t1" Sample.alice_reinvited)
              (Sample.conversation "team_t1" Sample.alice_reinvited))
    as (team' & conv' & _ & _ & _ & Hconv & Hlen); [by vm_compute ..|].
  vm_compute in Hconv. injection Hconv as <-. by vm_compute in Hlen.
Qed.

(** A member who accepts an invitation to the team she is already in is
    listed a second time: Alice's stored profile has changed since her
    summary was written into Alpha's members, so [arrayUnion] finds no equal
    entry; her id is not added to the participants again. *)
Example handleInvitation_lists_member_twice :
  User.id <$> Team.members (Sample.team "t1" Sample.alice_reinvited)
  = ["alice"; "bob"]
  ∧ User.id <$> Team.members (Sample.team "t1" Sample.alice_rejoined)
    = ["alice"; "bob"; "alice"]
  ∧ Conversation.participantIds (Sample.conversation "team_t1" Sample.alice_rejoined)
    = Conversation.participantIds
        (Sample.conversation "team_t1" Sample.alice_reinvited).
Proof. repeat split; by vm_compute. Qed.

(** ** sendInvitation *)

Lemma query_nil {A} (P : A → bool) (m : gmap string A) :
  query P m = [] ↔ ∀ k d, m !! k = Some d → P d = false.
Proof.
  unfold query. split.
  - intros Hnil k d Hk. destruct (P d) eqn:HP; [|done].
    exfalso. eapply (filter_nil_not_elem_of _ _ (k, d) Hnil); [done|].
    by apply elem_of_map_to_list.
  - intros Hall. apply elem_of_nil_inv. intros [k d] Hin.
    apply list_elem_of_filter in Hin as [HP Hin]. simpl in HP.
    apply elem_of_map_to_list in Hin. rewrite (Hall _ _ Hin) in HP. done.
Qed.

Lemma pendingFor_b_true teamId toUserId i :
  pendingFor_b teamId toUserId i = true ↔ pendingFor teamId toUserId i.
Proof.
  unfold pendingFor_b, pendingFor.
  rewrite !andb_true_iff, !bool_decide_eq_true. tauto.
Qed.

Lemma sendInvitation_existing newId now team fromUser toUser db k i :
  invitations db !! k = Some i →
  pendingFor (Team.id team) (User.id toUser) i →
  sendInvitation newId now team fromUser toUser db =
    (Throw (Error "An invitation to this user for this team already exists."), db).
Proof.
  intros Hk Hp. unfold sendInvitation. run_m.
  rewrite bool_decide_eq_false_2; [done|].
  intros Hnil.
  change (query (pendingFor_b (Team.id team) (User.id toUser)) (invitations db) = [])
    in Hnil.
  rewrite query_nil in Hnil.
  specialize (Hnil _ _ Hk). apply pendingFor_b_true in Hp. congruence.
Qed.

Lemma sendInvitation_new newId now team fromUser toUser db :
  (∀ k i, invitations db !! k = Some i →
          ¬ pendingFor (Team.id team) (User.id toUser) i) →
  sendInvitation newId now team fromUser toUser db =
    (Ok tt,
     set_invitations
       (insert newId
          (Invitation.mk (Team.id team) (Team.name team)
             (Invitation.mkSender (User.id fromUser) (User.name fromUser))
             (User.id toUser) pending now)) db).
Proof.
  intros Hnone. unfold sendInvitation. run_m.
  rewrite bool_decide_eq_true_2; [done|].
  change (query (pendingFor_b (Team.id team) (User.id toUser)) (invitations db) = []).
  apply query_nil. intros k i Hk.
  destruct (pendingFor_b _ _ i) eqn:Hp; [|done].
  apply pendingFor_b_true in Hp. by destruct (Hnone _ _ Hk).
Qed.

(** Whether some pending invitation for the pair is in the store. *)
Lemma pending_dec teamId toUserId db :
  (∃ k i, invitations db !! k = Some i ∧ pendingFor teamId toUserId i)
  ∨ (∀ k i, invitations db !! k = Some i → ¬ pendingFor teamId toUserId i).
Proof.
  destruct (query (pendingFor_b teamId toUserId) (invitations db)) as [|[k i] l] eqn:Hq.
  - right. intros k i Hk Hp. rewrite query_nil in Hq.
    specialize (Hq _ _ Hk). apply pendingFor_b_true in Hp. congruence.
  - left. exists k, i.
    assert (Hin : (k, i) ∈ query (pendingFor_b teamId toUserId) (invitations db))
      by (rewrite Hq; left).
    unfold query in Hin. apply list_elem_of_filter in Hin as [HP Hin]. simpl in HP.
    split; [by apply elem_of_map_to_list | by apply pendingFor_b_true].
Qed.

(** *** Which calls touch the invitations collection *)

Lemma apply_write_invitations w db db' :
  invitation_write w = false → apply_write w db = Some db' →
  invitations db' = invitations db.
Proof.
  destruct w; simpl; try done; intros _;
    try (intros [= <-]; done);
    unfold update_in;
    match goal with |- context [?m !! ?k] => destruct (m !! k) end;
    simpl; by intros [= <-].
Qed.

Lemma write_invitations w db :
  invitation_write w = false → invitations (write w db).2 = invitations db.
Proof.
  intros Hw. unfold write. destruct (apply_write w db) eqn:Ha; [|done].
  by apply (apply_write_invitations _ _ _ Hw Ha).
Qed.

Lemma apply_batch_invitations batch db db' :
  forallb (λ w, negb (invitation_write w)) batch = true →
  apply_batch batch db = inr db' →
  invitations db' = invitations db.
Proof.
  revert db. induction batch as [|w batch IH]; intros db Hall; simpl.
  - by intros [= <-].
  - simpl in Hall. apply andb_true_iff in Hall as [Hw Hall].
    apply negb_true_iff in Hw.
    destruct (apply_write w db) as [db1|] eqn:Ha; [|done].
    intros Hb. rewrite (IH _ Hall Hb). by apply (apply_write_invitations _ _ _ Hw Ha).
Qed.

Lemma commit_invitations batch db :
  forallb (λ w, negb (invitation_write w)) batch = true →
  invitations (commit batch db).2 = invitations db.
Proof.
  intros Hall. unfold commit. destruct (apply_batch batch db) eqn:Hb; [done|].
  by apply (apply_batch_invitations _ _ _ Hall Hb).
Qed.

Lemma keeps_ret {A} (a : A) : keeps_invitations (ret a).
Proof. by intros db. Qed.

Lemma keeps_throw {A} e : keeps_invitations (@throw A e).
Proof. by intros db. Qed.

Lemma keeps_bind {A B} (c : M A) (k : A → M B) :
  keeps_invitations c → (∀ a, keeps_invitations (k a)) →
  keeps_invitations (bind c k).
Proof.
  intros Hc Hk db. unfold bind. specialize (Hc db).
  destruct (c db) as [[a|e] db1]; simpl in *; [|done].
  by rewrite Hk.
Qed.

Lemma keeps_write w : invitation_write w = false → keeps_invitations (write w).
Proof. intros Hw db. by apply write_invitations. Qed.

Lemma keeps_commit batch :
  forallb (λ w, negb (invitation_write w)) batch = true →
  keeps_invitations (commit batch).
Proof. intros Hb db. by apply commit_invitations. Qed.

Lemma keeps_getDoc_team k : keeps_invitations (getDoc_team k).
Proof. by intros db. Qed.

Create HintDb keeps.
#[local] Hint Resolve keeps_ret keeps_throw keeps_write keeps_commit
  keeps_getDoc_team : keeps.

Lemma createTeam_invitations newId teamName owner :
  keeps_invitations (createTeam newId teamName owner).
Proof. unfold createTeam. apply keeps_bind; auto with keeps. Qed.

Lemma leaveTeam_invitations user teamId :
  keeps_invitations (leaveTeam user teamId).
Proof.
  unfold leaveTeam. apply keeps_bind; [auto with keeps|].
  intros [team|]; [|auto with keeps].
  repeat case_decide; auto with keeps.
Qed.

Lemma deleteUserAccount_invitations user :
  keeps_invitations (deleteUserAccount user).
Proof.
  unfold deleteUserAccount. apply keeps_bind; [|auto with keeps].
  destruct (truthy_teamId _); [|auto with keeps].
  apply keeps_bind; [auto with keeps|].
  intros [team|]; [|auto with keeps].
  destruct (truthy_bool _); [case_decide; [auto with keeps|]|];
    apply keeps_bind; auto with keeps.
Qed.

Lemma handleInvitation_invitations invitationId accepted user db :
  invitations (handleInvitation invitationId accepted user db).2 = invitations db
  ∨ invitations (handleInvitation invitationId accepted user db).2
    = delete invitationId (invitations db).
Proof.
  destruct (invitations db !! invitationId) as [invitation|] eqn:Hinv.
  - destruct accepted.
    + destruct (teams db !! Invitation.teamId invitation) as [teamData|] eqn:Hteam.
      * rewrite (handleInvitation_accept_commit _ _ _ _ _ Hinv Hteam). unfold commit.
        destruct (apply_batch _ db) as [e|db'] eqn:Hb; [by left|].
        right. by apply accept_batch_invitations in Hb.
      * left. by rewrite (handleInvitation_accept_no_team _ _ _ _ Hinv Hteam).
    + right. by rewrite (handleInvitation_decline _ _ _ _ Hinv).
  - left. unfold handleInvitation. run_m. by rewrite Hinv.
Qed.

Lemma unique_pending_same db db' :
  invitations db' = invitations db → unique_pending db → unique_pending db'.
Proof. unfold unique_pending. intros ->. done. Qed.

Lemma unique_pending_delete db db' k :
  invitations db' = delete k (invitations db) →
  unique_pending db → unique_pending db'.
Proof.
  unfold unique_pending. intros -> Hu i j a b Hi Hj.
  apply lookup_delete_Some in Hi as [_ Hi]. apply lookup_delete_Some in Hj as [_ Hj].
  by apply Hu.
Qed.

Lemma unique_pending_insert db db' k new :
  invitations db' = <[k := new]> (invitations db) →
  (∀ j b, invitations db !! j = Some b →
          ¬ pendingFor (Invitation.teamId new) (Invitation.toUserId new) b) →
  unique_pending db → unique_pending db'.
Proof.
  unfold unique_pending. intros -> Hnone Hu i j a b Hi Hj Ha Hb Ht Hr.
  apply lookup_insert_Some in Hi as [[<- <-]|[Hik Hi]];
    apply lookup_insert_Some in Hj as [[<- <-]|[Hjk Hj]]; try done.
  - destruct (Hnone _ _ Hj). by repeat split.
  - destruct (Hnone _ _ Hi). by repeat split.
  - by apply (Hu i j a b).
Qed.

Lemma unique_pending_empty : unique_pending (mkDb ∅ ∅ ∅ ∅).
Proof. intros i j a b Hi. simpl in Hi. by rewrite lookup_empty in Hi. Qed.

Lemma sendInvitation_keeps_unique newId now team fromUser toUser db :
  invitations db !! newId = None →
  unique_pending db →
  unique_pending (sendInvitation newId now team fromUser toUser db).2.
Proof.
  intros Hfresh Hu.
  destruct (pending_dec (Team.id team) (User.id toUser) db) as [(k & i & Hk & Hp)|Hnone].
  - by rewrite (sendInvitation_existing _ _ _ _ _ _ _ _ Hk Hp).
  - rewrite (sendInvitation_new _ _ _ _ _ _ Hnone).
    eapply unique_pending_insert; [done | | done]. simpl. done.
Qed.

Lemma perform_keeps_unique c db :
  generated_fresh c db → unique_pending db → unique_pending (perform c db).
Proof.
  destruct c; simpl; intros Hfresh Hu.
  - eapply unique_pending_same; [apply createTeam_invitations | done].
  - eapply unique_pending_same; [apply leaveTeam_invitations | done].
  - by apply sendInvitation_keeps_unique.
  - destruct (handleInvitation_invitations invitationId accepted user db) as [H|H].
    + by eapply unique_pending_same.
    + by eapply unique_pending_delete.
  - eapply unique_pending_same; [apply deleteUserAccount_invitations | done].
Qed.

(** C9. [sendInvitation] throws, writing nothing, when a pending invitation
    for the same team and recipient is in the store; otherwise it adds
    exactly one pending invitation, under the generated id, that records the
    team's name and the sender's name as they are at that moment. So along
    any sequential execution of the service no (team, recipient) pair ever
    has two pending invitations. *)
Theorem sendInvitation_unique_pending :
  (∀ newId now team fromUser toUser db,
     (∃ k i, invitations db !! k = Some i
             ∧ pendingFor (Team.id team) (User.id toUser) i) →
     sendInvitation newId now team fromUser toUser db =
       (Throw (Error "An invitation to this user for this team already exists."), db))
  ∧ (∀ newId now team fromUser toUser db,
       (∀ k i, invitations db !! k = Some i →
               ¬ pendingFor (Team.id team) (User.id toUser) i) →
       invitations db !! newId = None →
       ∃ db' new,
         sendInvitation newId now team fromUser toUser db = (Ok tt, db')
         ∧ invitations db' = <[newId := new]> (invitations db)
         ∧ size (invitations db') = S (size (invitations db))
         ∧ new = Invitation.mk (Team.id team) (Team.name team)
                   (Invitation.mkSender (User.id fromUser) (User.name fromUser))
                   (User.id toUser) pending now
         ∧ users db' = users db ∧ teams db' = teams db
         ∧ conversations db' = conversations db)
  ∧ (∀ db calls db',
       unique_pending db → execution db calls db' → unique_pending db')
  ∧ unique_pending (mkDb ∅ ∅ ∅ ∅).
Proof.
  split; [|split; [|split]].
  - intros newId now team fromUser toUser db (k & i & Hk & Hp).
    by apply (sendInvitation_existing _ _ _ _ _ _ _ _ Hk Hp).
  - intros newId now team fromUser toUser db Hnone Hfresh.
    rewrite (sendInvitation_new _ _ _ _ _ _ Hnone).
    eexists _, _. split; [done|]. simpl. split; [done|].
    split; [by apply map_size_insert_None|]. done.
  - intros db calls db' Hu Hex. induction Hex as [|db c calls db' Hfresh _ IH]; [done|].
    apply IH. by apply perform_keeps_unique.
  - apply unique_pending_empty.
Qed.

Lemma sendInvitation_unique_pending_witness :
  (sendInvitation "i9" 2000 (Sample.team "t1" Sample.bob_invited)
     (Sample.current "alice" Sample.bob_invited) Sample.bob Sample.bob_invited).1
  = Throw (Error "An invitation to this user for this team already exists.")
  ∧ (∃ db', sendInvitation "i1" 1000 (Sample.team "t1" Sample.alpha_created)
              (Sample.current "alice" Sample.alpha_created) Sample.bob
              Sample.alpha_created = (Ok tt, db')
            ∧ size (invitations db') = 1)
  ∧ unique_pending
      (perform (SendInvitation "i2" 1001 (Sample.team "t1" Sample.alpha_created)
                  Sample.alice Sample.bob)
         (perform (SendInvitation "i1" 1000 (Sample.team "t1" Sample.alpha_created)
                     Sample.alice Sample.bob)
            (mkDb ∅ ∅ ∅ ∅))).
Proof.
  destruct sendInvitation_unique_pending as (Hexists & Hnew & Hexec & Hempty).
  split; [|split].
  - rewrite (Hexists "i9" 2000%Z (Sample.team "t1" Sample.bob_invited)
               (Sample.current "alice" Sample.bob_invited) Sample.bob
               Sample.bob_invited); [done|].
    exists "i1", (Sample.invitation "i1" Sample.bob_invited).
    split; [by vm_compute|]. unfold pendingFor. by vm_compute.
  - destruct (Hnew "i1" 1000%Z (Sample.team "t1" Sample.alpha_created)
                (Sample.current "alice" Sample.alpha_created) Sample.bob
                Sample.alpha_created) as (db' & new & Hrun & _ & Hsize & _).
    + intros k i Hk. by vm_compute in Hk.
    + by vm_compute.
    + exists db'. split; [done|]. rewrite Hsize. by vm_compute.
  - apply (Hexec (mkDb ∅ ∅ ∅ ∅)
             [ SendInvitation "i1" 1000 (Sample.team "t1" Sample.alpha_created)
                 Sample.alice Sample.bob;
               SendInvitation "i2" 1001 (Sample.team "t1" Sample.alpha_created)
                 Sample.alice Sample.bob ]); [done|].
    apply execution_call; [by vm_compute|].
    apply execution_call; [by vm_compute|].
    apply execution_done.
Defined.

(** ** Array helpers *)

Lemma elem_of_fold_Set_add xs acc x :
  x ∈ fold_left Set_add xs acc ↔ x ∈ acc ∨ x ∈ xs.
Proof.
  revert acc. induction xs as [|y xs IH]; intros acc; simpl.
  - rewrite elem_of_nil. tauto.
  - rewrite IH. unfold Set_add. rewrite elem_of_cons.
    case_decide as Hy.
    + split; [intros [?|?]; auto | intros [?|[->|?]]; auto].
    + rewrite elem_of_app, list_elem_of_singleton. tauto.
Qed.

Lemma NoDup_fold_Set_add xs acc :
  NoDup acc → NoDup (fold_left Set_add xs acc).
Proof.
  revert acc. induction xs as [|y xs IH]; intros acc Hacc; simpl; [done|].
  apply IH. unfold Set_add. case_decide as Hy; [done|].
  apply NoDup_app. split; [done|]. split; [|apply NoDup_singleton].
  intros z Hz Hz'. apply list_elem_of_singleton in Hz'. by subst.
Qed.

Lemma elem_of_Array_from_Set xs x : x ∈ Array_from_Set xs ↔ x ∈ xs.
Proof.
  unfold Array_from_Set. rewrite elem_of_fold_Set_add, elem_of_nil. tauto.
Qed.

Lemma NoDup_Array_from_Set xs : NoDup (Array_from_Set xs).
Proof. apply NoDup_fold_Set_add, NoDup_nil_2. Qed.

Lemma list_to_set_Array_from_Set xs :
  (list_to_set (Array_from_Set xs) : gset string) = list_to_set xs.
Proof.
  apply set_eq. intros x. by rewrite !elem_of_list_to_set, elem_of_Array_from_Set.
Qed.

Lemma Set_has_true ys x : Set_has (Array_from_Set ys) x = true ↔ x ∈ ys.
Proof. unfold Set_has. by rewrite bool_decide_eq_true, elem_of_Array_from_Set. Qed.

(** The common tags, as computed, are the intersection of the two tag sets. *)
Lemma elem_of_common xs ys x :
  x ∈ filter (λ x, Set_has (Array_from_Set ys) x = true) (Array_from_Set xs)
  ↔ x ∈ xs ∧ x ∈ ys.
Proof.
  rewrite list_elem_of_filter, Set_has_true, elem_of_Array_from_Set. tauto.
Qed.

Lemma NoDup_common xs ys :
  NoDup (filter (λ x, Set_has (Array_from_Set ys) x = true) (Array_from_Set xs)).
Proof. apply NoDup_filter, NoDup_Array_from_Set. Qed.

Lemma length_common xs ys :
  length (filter (λ x, Set_has (Array_from_Set ys) x = true) (Array_from_Set xs))
  = commonCount xs ys.
Proof.
  unfold commonCount. rewrite <- (size_list_to_set (C := gset string));
    [|apply NoDup_common].
  f_equal. apply set_eq. intros x.
  rewrite elem_of_list_to_set, elem_of_common, elem_of_intersection.
  by rewrite !elem_of_list_to_set.
Qed.

(** ** The sort *)

Section sort_by_key.
Context {A : Type} (key : A → nat).

Abbreviation descending := (descending key).

Lemma sort_insert_descending x y l :
  sort_insert descending x (y :: l) =
    if decide (key x < key y) then y :: sort_insert descending x l
    else x :: y :: l.
Proof.
  simpl. unfold descending at 1.
  destruct (0 <? Z.of_nat (key y) - Z.of_nat (key x))%Z eqn:Hlt.
  - apply Z.ltb_lt in Hlt. rewrite decide_True by lia. done.
  - apply Z.ltb_ge in Hlt. rewrite decide_False by lia. done.
Qed.

Lemma sort_insert_Permutation x l : sort_insert descending x l ≡ₚ x :: l.
Proof.
  induction l as [|y l IH]; [done|].
  rewrite sort_insert_descending. case_decide; [|done].
  rewrite IH. apply Permutation_swap.
Qed.

Lemma Array_sort_Permutation l : Array_sort descending l ≡ₚ l.
Proof.
  induction l as [|x l IH]; [done|]. simpl.
  rewrite sort_insert_Permutation. by rewrite IH.
Qed.

Lemma sort_insert_sorted x l :
  StronglySorted (λ a b, key b ≤ key a) l →
  StronglySorted (λ a b, key b ≤ key a) (sort_insert descending x l).
Proof.
  induction l as [|y l IH]; intros Hl.
  - simpl. repeat constructor.
  - rewrite sort_insert_descending. apply StronglySorted_inv in Hl as [Hl Hy].
    case_decide as Hxy.
    + constructor; [by apply IH|].
      rewrite sort_insert_Permutation. constructor; [lia|done].
    + constructor; [by constructor|].
      constructor; [lia|]. eapply Forall_impl; [exact Hy|]. simpl. lia.
Qed.

Lemma Array_sort_sorted l :
  StronglySorted (λ a b, key b ≤ key a) (Array_sort descending l).
Proof.
  induction l as [|x l IH]; simpl; [constructor|]. by apply sort_insert_sorted.
Qed.

(** Stability: elements with equal keys keep their relative order. *)
Lemma sort_insert_stable n x l :
  filter (λ a, key a = n) (sort_insert descending x l)
  = filter (λ a, key a = n) (x :: l).
Proof.
  induction l as [|y l IH]; [done|].
  rewrite sort_insert_descending. case_decide as Hxy; [|done].
  rewrite (filter_cons _ y), IH, !(filter_cons _ x), (filter_cons _ y).
  repeat case_decide; try done; lia.
Qed.

Lemma Array_sort_stable n l :
  filter (λ a, key a = n) (Array_sort descending l) = filter (λ a, key a = n) l.
Proof.
  induction l as [|x l IH]; [done|]. simpl.
  rewrite sort_insert_stable, !filter_cons, IH. done.
Qed.
End sort_by_key.

(** ** getRecommendedTeams *)

Lemma not_member_true currentUser team :
  negb (existsb (λ member, bool_decide (User.id member = User.id currentUser))
                (Team.members team)) = true
  ↔ Forall (λ m, User.id m ≠ User.id currentUser) (Team.members team).
Proof.
  rewrite negb_true_iff. induction (Team.members team) as [|m l IH]; simpl.
  - split; [constructor|done].
  - rewrite orb_false_iff, IH, bool_decide_eq_false, Forall_cons. tauto.
Qed.

Lemma score_scoreTeam currentUser team :
  ScoredTeam.score (scoreTeam currentUser team)
  = 2 * commonCount (User.skills currentUser) (Team.skills team)
    + commonCount (User.interests currentUser) (Team.interests team).
Proof. unfold scoreTeam. simpl. rewrite !length_common. lia. Qed.

(** The teams that are scored and kept, in the order of the collection. *)
Lemma recommended_candidates currentUser teamsCollection :
  filter (λ team, 0 < ScoredTeam.score team)
    (map (scoreTeam currentUser)
       (filter (λ team,
                  negb (existsb (λ member,
                                   bool_decide (User.id member = User.id currentUser))
                                (Team.members team)) = true)
          (filter (λ team, Team.ownerId team ≠ User.id currentUser) teamsCollection)))
  = scoreTeam currentUser
      <$> filter (λ team, notOwnTeam currentUser team
                          ∧ 0 < ScoredTeam.score (scoreTeam currentUser team))
            teamsCollection.
Proof.
  induction teamsCollection as [|team l IH]; [done|].
  rewrite (filter_cons (λ team, Team.ownerId team ≠ _)).
  rewrite (filter_cons (λ team, notOwnTeam _ team ∧ _)).
  destruct (decide (Team.ownerId team ≠ User.id currentUser)) as [Hown|Hown].
  - rewrite (filter_cons (λ team, negb _ = true)).
    destruct (decide (negb _ = true)) as [Hmem|Hmem].
    + simpl. rewrite (filter_cons (λ team, 0 < _)).
      apply not_member_true in Hmem.
      destruct (decide (0 < ScoredTeam.score (scoreTeam currentUser team))) as [Hs|Hs].
      * rewrite decide_True by done. rewrite fmap_cons. f_equal. apply IH.
      * rewrite decide_False by tauto. apply IH.
    + rewrite decide_False; [apply IH|].
      intros [[_ Hm] _]. by apply Hmem, not_member_true.
  - rewrite decide_False; [apply IH|]. intros [[Ho _] _]. done.
Qed.

(** C7. The recommendation contains no team the user owns, no team the user
    is a member of and no team of score 0; every entry is a team of the
    collection with score [2 * |user.skills ∩ team.skills| +
    |user.interests ∩ team.interests|] and with exactly the common skills
    and common interests as its matched lists; the result is in descending
    score order, and for each score it lists the qualifying teams of that
    score in the order of the collection (so ties are stable and no
    qualifying team is left out). *)
Theorem getRecommendedTeams_spec (currentUser : User.t) (teamsCollection : list Team.t) :
  let result := getRecommendedTeams currentUser teamsCollection in
  (∀ st, st ∈ result →
     ScoredTeam.team st ∈ teamsCollection
     ∧ Team.ownerId (ScoredTeam.team st) ≠ User.id currentUser
     ∧ (∀ m, m ∈ Team.members (ScoredTeam.team st) → User.id m ≠ User.id currentUser)
     ∧ ScoredTeam.score st ≠ 0
     ∧ ScoredTeam.score st
       = 2 * commonCount (User.skills currentUser) (Team.skills (ScoredTeam.team st))
         + commonCount (User.interests currentUser)
                       (Team.interests (ScoredTeam.team st))
     ∧ (∀ x, x ∈ ScoredTeam.commonSkills st
             ↔ x ∈ User.skills currentUser ∧ x ∈ Team.skills (ScoredTeam.team st))
     ∧ NoDup (ScoredTeam.commonSkills st)
     ∧ (∀ x, x ∈ ScoredTeam.commonInterests st
             ↔ x ∈ User.interests currentUser
               ∧ x ∈ Team.interests (ScoredTeam.team st))
     ∧ NoDup (ScoredTeam.commonInterests st))
  ∧ StronglySorted (λ a b, ScoredTeam.score b ≤ ScoredTeam.score a) result
  ∧ (∀ n, ScoredTeam.team <$> filter (λ st, ScoredTeam.score st = n) result
          = filter (λ team,
                      notOwnTeam currentUser team
                      ∧ 0 < ScoredTeam.score (scoreTeam currentUser team)
                      ∧ ScoredTeam.score (scoreTeam currentUser team) = n)
              teamsCollection).
Proof.
  intros result.
  assert (Hresult :
    result = Array_sort (descending ScoredTeam.score)
               (scoreTeam currentUser
                  <$> filter (λ team, notOwnTeam currentUser team
                                      ∧ 0 < ScoredTeam.score (scoreTeam currentUser team))
                        teamsCollection)).
  { unfold result, getRecommendedTeams. by rewrite recommended_candidates. }
  split; [|split].
  - intros st Hst. rewrite Hresult, Array_sort_Permutation in Hst.
    apply list_elem_of_fmap in Hst as (team & -> & Hteam).
    apply list_elem_of_filter in Hteam as [[[Hown Hmem] Hscore] Hin].
    split; [done|]. split; [done|].
    split; [intros m Hm; by apply (proj1 (Forall_forall _ _) Hmem)|].
    split; [simpl in *; lia|].
    split; [apply score_scoreTeam|].
    split; [intros x; apply elem_of_common|].
    split; [apply NoDup_common|].
    split; [intros x; apply elem_of_common|apply NoDup_common].
  - rewrite Hresult. apply Array_sort_sorted.
  - intros n. rewrite Hresult, Array_sort_stable. clear result Hresult.
    induction teamsCollection as [|team l IH]; [done|].
    rewrite (filter_cons (λ team, notOwnTeam _ team ∧ 0 < _ ∧ _)).
    rewrite (filter_cons (λ team, notOwnTeam _ team ∧ 0 < _)).
    destruct (decide (notOwnTeam currentUser team
                      ∧ 0 < ScoredTeam.score (scoreTeam currentUser team))) as [H|H].
    + rewrite fmap_cons, (filter_cons (λ st, ScoredTeam.score st = n)).
      destruct (decide (ScoredTeam.score (scoreTeam currentUser team) = n)) as [Hn|Hn].
      * rewrite decide_True by tauto. rewrite fmap_cons. f_equal. apply IH.
      * rewrite decide_False by tauto. apply IH.
    + rewrite decide_False by tauto. apply IH.
Qed.

Lemma getRecommendedTeams_spec_witness :
  let user := Sample.profile "dave" "Dave" ["React"; "Rust"; "Figma"] ["AI"] in
  let collection := (map_to_list (teams Sample.alice_rejoined)).*2 in
  StronglySorted (λ a b, ScoredTeam.score b ≤ ScoredTeam.score a)
    (getRecommendedTeams user collection)
  ∧ ∀ st, st ∈ getRecommendedTeams user collection →
          Team.ownerId (ScoredTeam.team st) ≠ "dave" ∧ ScoredTeam.score st ≠ 0.
Proof.
  intros user collection.
  destruct (getRecommendedTeams_spec user collection) as (Hall & Hsorted & _).
  split; [done|]. intros st Hst.
  destruct (Hall st Hst) as (_ & Hown & _ & Hscore & _). done.
Defined.

(** The spec's worked example: skills {A, B} and interest {C} against a team
    with skill {A} and interest {C} score [2 * 1 + 1 = 3]. *)
Example getRecommendedTeams_score_3 :
  let user := Sample.profile "u" "U" ["A"; "B"] ["C"] in
  let team := Team.mk "t" "T" "o" [] ["A"] ["C"] in
  getRecommendedTeams user [team] = [ScoredTeam.mk team 3 ["A"] ["C"]].
Proof. by vm_compute. Qed.

(** ** searchUsers *)

(** C10. Whatever the filters, no profile returned by [searchUsers] is the
    caller's own: none has the authenticated user's id. *)
Theorem searchUsers_excludes_caller (currentUser : option string)
    (filters : Filters.t) (usersCollection : list (string * User.t))
    (users : list User.t) :
  searchUsers currentUser filters usersCollection = Ok users →
  ∀ u, u ∈ users → currentUser ≠ Some (User.id u).
Proof.
  unfold searchUsers, getDocs_users.
  destruct currentUser as [currentUserId|]; [|done].
  case_decide; [done|].
  intros [= <-] u Hu [= Hid].
  assert (∃ d : string * User.t,
             u = d.2
             ∧ negb (bool_decide (User.id d.2 = currentUserId)) = true) as (d & -> & Hd).
  { destruct (truthy_string (Filters.name filters));
      [apply list_elem_of_filter in Hu as [_ Hu]|];
      apply list_elem_of_fmap in Hu as (d & -> & Hd);
      apply list_elem_of_filter in Hd as [Hq _];
      exists d; (split; [done|]);
      simpl in Hq; by apply andb_true_iff in Hq as [Hq _]. }
  apply negb_true_iff, bool_decide_eq_false in Hd. done.
Qed.

Lemma searchUsers_excludes_caller_witness :
  searchUsers (Some "alice")
    (Filters.mk (Some "") (Some "Any Skill") (Some "Any Interest") (Some "Any"))
    (map_to_list (users Sample.registered))
  = Ok [Sample.carol; Sample.bob]
  ∧ ∀ u, u ∈ [Sample.carol; Sample.bob] → Some "alice" ≠ Some (User.id u).
Proof.
  assert (Hrun : searchUsers (Some "alice")
            (Filters.mk (Some "") (Some "Any Skill") (Some "Any Interest") (Some "Any"))
            (map_to_list (users Sample.registered))
          = Ok [Sample.carol; Sample.bob]) by by vm_compute.
  split; [done|].
  exact (searchUsers_excludes_caller _ _ _ _ Hrun).
Defined.

(** ** What each operation does to the teams collection *)

Lemma createTeam_teams newId teamName owner db :
  teams (createTeam newId teamName owner db).2 = teams db
  ∨ teams (createTeam newId teamName owner db).2
    = <[newId := Team.mk newId teamName (User.id owner)
                   [UserPatch.delete_profileComplete owner]
                   (User.skills owner) (User.interests owner)]> (teams db).
Proof.
  unfold createTeam. run_m. unfold update_in.
  destruct (users db !! User.id owner); simpl; [by right | by left].
Qed.

Lemma leaveTeam_teams user teamId db :
  teams (leaveTeam user teamId db).2 = teams db
  ∨ teams (leaveTeam user teamId db).2 = delete teamId (teams db)
  ∨ ∃ team, teams db !! teamId = Some team
            ∧ User.id user ≠ Team.ownerId team
            ∧ teams (leaveTeam user teamId db).2
              = <[teamId := memberLeft user team]> (teams db).
Proof.
  unfold leaveTeam. run_m. unfold update_in.
  destruct (teams db !! teamId) as [team|] eqn:Hteam; simpl.
  - case_decide as Hown.
    + case_decide; simpl; [by left|].
      destruct (users db !! User.id user); simpl; [right; by left | by left].
    + simpl. rewrite Hteam. simpl.
      destruct (conversations db !! teamConversationId teamId); simpl; [|by left].
      destruct (users db !! User.id user); simpl; [|by left].
      right; right. by exists team.
  - destruct (users db !! User.id user); simpl; by left.
Qed.

Lemma handleInvitation_teams invitationId accepted user db :
  teams (handleInvitation invitationId accepted user db).2 = teams db
  ∨ ∃ invitation team,
      invitations db !! invitationId = Some invitation
      ∧ teams db !! Invitation.teamId invitation = Some team
      ∧ teams (handleInvitation invitationId accepted user db).2
        = <[Invitation.teamId invitation := memberJoined user team]> (teams db).
Proof.
  destruct (invitations db !! invitationId) as [invitation|] eqn:Hinv.
  - destruct accepted.
    + destruct (teams db !! Invitation.teamId invitation) as [team|] eqn:Hteam.
      * rewrite (handleInvitation_accept_commit _ _ _ _ _ Hinv Hteam).
        unfold commit. simpl. unfold update_in.
        destruct (users db !! User.id user); simpl; [|by left].
        rewrite Hteam. simpl.
        destruct (conversations db !! _); simpl; [|by left].
        right. by exists invitation, team.
      * left. by rewrite (handleInvitation_accept_no_team _ _ _ _ Hinv Hteam).
    + left. by rewrite (handleInvitation_decline _ _ _ _ Hinv).
  - left. unfold handleInvitation. run_m. by rewrite Hinv.
Qed.

Lemma deleteUserAccount_teams user db :
  teams (deleteUserAccount user db).2 = teams db
  ∨ (∃ teamId, teams (deleteUserAccount user db).2 = delete teamId (teams db))
  ∨ ∃ teamId team,
      truthy_teamId (User.teamId user) = Some teamId
      ∧ teams db !! teamId = Some team
      ∧ truthy_bool (User.isTeamOwner user) = false
      ∧ teams (deleteUserAccount user db).2
        = <[teamId := memberDeleted user team]> (teams db).
Proof.
  unfold deleteUserAccount. run_m.
  destruct (truthy_teamId (User.teamId user)) as [teamId|] eqn:Htid; simpl; [|by left].
  destruct (teams db !! teamId) as [team|] eqn:Hteam; simpl; [|by left].
  destruct (truthy_bool (User.isTeamOwner user)) eqn:Hflag.
  - case_decide; simpl; [by left|]. right; left. by exists teamId.
  - simpl. unfold update_in. rewrite Hteam. simpl.
    right; right. exists teamId, team. repeat split; try done.
    by destruct (conversations db !! teamConversationId teamId).
Qed.

Lemma sendInvitation_teams newId now team fromUser toUser db :
  teams (sendInvitation newId now team fromUser toUser db).2 = teams db.
Proof. unfold sendInvitation. run_m. by case_match. Qed.

(** ** The owner invariant *)

Lemma owner_ok_filter user team :
  User.id user ≠ Team.ownerId team → owner_ok team →
  Team.ownerId team
    ∈ User.id <$> filter (λ m, User.id m ≠ User.id user) (Team.members team).
Proof.
  unfold owner_ok. intros Hne Hin.
  apply list_elem_of_fmap in Hin as (m & Hm & Hin).
  apply list_elem_of_fmap. exists m. split; [done|].
  apply list_elem_of_filter. split; [congruence|done].
Qed.

Lemma owner_ok_memberLeft user team :
  User.id user ≠ Team.ownerId team → owner_ok team → owner_ok (memberLeft user team).
Proof. intros Hne Hok. unfold owner_ok, memberLeft. simpl. by apply owner_ok_filter. Qed.

Lemma owner_ok_memberDeleted user team :
  User.id user ≠ Team.ownerId team → owner_ok team →
  owner_ok (memberDeleted user team).
Proof.
  intros Hne Hok. unfold owner_ok, memberDeleted. simpl. by apply owner_ok_filter.
Qed.

Lemma owner_ok_memberJoined user team :
  owner_ok team → owner_ok (memberJoined user team).
Proof.
  unfold owner_ok, memberJoined, arrayUnion. simpl. intros Hin.
  case_decide; [done|]. rewrite fmap_app. apply elem_of_app. by left.
Qed.

Lemma createTeam_owner_inv newId teamName owner db :
  owner_inv db → owner_inv (createTeam newId teamName owner db).2.
Proof.
  unfold owner_inv. intros Hinv.
  destruct (createTeam_teams newId teamName owner db) as [->| ->]; [done|].
  apply map_Forall_insert_2; [|done]. unfold owner_ok. simpl. left.
Qed.

Lemma leaveTeam_owner_inv user teamId db :
  owner_inv db → owner_inv (leaveTeam user teamId db).2.
Proof.
  unfold owner_inv. intros Hinv.
  destruct (leaveTeam_teams user teamId db)
    as [->|[->|(team & Hteam & Hne & ->)]]; [done| |].
  - by apply map_Forall_delete.
  - apply map_Forall_insert_2; [|done].
    apply owner_ok_memberLeft; [done|]. by apply (Hinv _ _ Hteam).
Qed.

Lemma handleInvitation_owner_inv invitationId accepted user db :
  owner_inv db → owner_inv (handleInvitation invitationId accepted user db).2.
Proof.
  unfold owner_inv. intros Hinv.
  destruct (handleInvitation_teams invitationId accepted user db)
    as [->|(invitation & team & _ & Hteam & ->)]; [done|].
  apply map_Forall_insert_2; [|done].
  apply owner_ok_memberJoined. by apply (Hinv _ _ Hteam).
Qed.

Lemma deleteUserAccount_owner_inv user db :
  owner_flag_set user db →
  owner_inv db → owner_inv (deleteUserAccount user db).2.
Proof.
  unfold owner_inv. intros Hflag Hinv.
  destruct (deleteUserAccount_teams user db)
    as [->|[[teamId ->]|(teamId & team & Htid & Hteam & Hfalse & ->)]]; [done| |].
  - by apply map_Forall_delete.
  - apply map_Forall_insert_2; [|done].
    apply owner_ok_memberDeleted; [|by apply (Hinv _ _ Hteam)].
    intros Hown. specialize (Hflag _ _ Htid Hteam Hown). congruence.
Qed.

(** Where the flag is kept: each call of the service keeps the owner of
    every team among the team's members, provided that for
    [deleteUserAccount] the profile passed in carries the owner flag whenever
    the user owns the team the profile refers to. *)
Lemma owner_inv_preserved (c : Call) (db : Db) :
  owner_inv db →
  (∀ user, c = DeleteUserAccount user → owner_flag_set user db) →
  owner_inv (perform c db).
Proof.
  intros Hinv Hflag. destruct c; simpl.
  - by apply createTeam_owner_inv.
  - by apply leaveTeam_owner_inv.
  - unfold owner_inv. by rewrite sendInvitation_teams.
  - by apply handleInvitation_owner_inv.
  - apply deleteUserAccount_owner_inv; [by apply Hflag|done].
Qed.

Example owner_inv_preserved_bob :
  owner_inv (perform (DeleteUserAccount (Sample.current "bob" Sample.bob_joined))
               Sample.bob_joined).
Proof.
  apply owner_inv_preserved.
  - by_evaluation.
  - intros user [= <-] teamId team Htid Hteam Hown.
    vm_compute in Htid. injection Htid as <-.
    vm_compute in Hteam. injection Hteam as <-. by vm_compute in Hown.
Qed.

(** C8 at the failing input. The store is the one the longer history
    leaves, every call of which completes, with every team's owner among its
    members. Alice owns Alpha and is a member of it, but her stored profile
    has the owner flag off: leaving Beta cleared it, and accepting the
    invitation to Alpha set only [teamId] and [teamStatus]. Deleting her
    account with that profile completes; it decides on the flag, takes her
    for a regular member and removes her from Alpha's members, so that
    Alpha is left with Bob as only member and Alice, whose profile is gone,
    as owner. [leaveTeam], which decides on the team's [ownerId], rejects
    her on the same input and keeps the invariant. *)
Theorem deleteUserAccount_removes_owner :
  let db := Sample.alice_rejoined in
  let alice := Sample.current "alice" db in
  let db' := (deleteUserAccount alice db).2 in
  (Sample.replay Sample.history Sample.registered).1 = repeat false 9
  ∧ (handleInvitation "i3" true (Sample.current "alice" Sample.alice_reinvited)
       Sample.alice_reinvited).1 = Ok tt
  ∧ owner_inv db
  ∧ User.teamId alice = Some (Some "t1")
  ∧ User.isTeamOwner alice = Some false
  ∧ Team.ownerId (Sample.team "t1" db) = "alice"
  ∧ User.id <$> Team.members (Sample.team "t1" db) = ["alice"; "bob"; "alice"]
  ∧ (deleteUserAccount alice db).1 = Ok tt
  ∧ teams db' !! "t1" = Some (memberDeleted alice (Sample.team "t1" db))
  ∧ Team.ownerId (Sample.team "t1" db') = "alice"
  ∧ User.id <$> Team.members (Sample.team "t1" db') = ["bob"]
  ∧ users db' !! "alice" = None
  ∧ ¬ owner_inv db'
  ∧ owner_inv (leaveTeam alice "t1" db).2.
Proof.
  intros db alice db'.
  split; [by vm_compute|]. split; [by vm_compute|]. split; [by_evaluation|].
  split; [by vm_compute|]. split; [by vm_compute|]. split; [by vm_compute|].
  split; [by vm_compute|]. split; [by vm_compute|]. split; [by vm_compute|].
  split; [by vm_compute|]. split; [by vm_compute|]. split; [by vm_compute|].
  split; [refuted_by_evaluation | by_evaluation].
Qed.

(** ** The aggregates invariant *)

Lemma elem_of_flat_map {A B} (f : A → list B) (l : list A) (x : B) :
  x ∈ flat_map f l ↔ ∃ y, y ∈ l ∧ x ∈ f y.
Proof.
  rewrite list_elem_of_In, in_flat_map. split; intros (y & Hy & Hx); exists y.
  - by rewrite !list_elem_of_In.
  - by rewrite <- !list_elem_of_In.
Qed.

Lemma aggregates_ok_created newId teamName owner :
  aggregates_ok (Team.mk newId teamName (User.id owner)
                   [UserPatch.delete_profileComplete owner]
                   (User.skills owner) (User.interests owner)).
Proof. unfold aggregates_ok. simpl. by rewrite !app_nil_r. Qed.

Lemma aggregates_ok_memberLeft user team : aggregates_ok (memberLeft user team).
Proof. unfold aggregates_ok, memberLeft. simpl. by rewrite !list_to_set_Array_from_Set. Qed.

(** Adding a member's tags to sets that were the unions over the members. *)
Lemma union_with_joined (tags : User.t → list string) (old : list string)
    (members : list User.t) (user joined : User.t) :
  tags joined = tags user →
  (list_to_set old : gset string) = list_to_set (flat_map tags members) →
  (list_to_set (Array_from_Set (old ++ tags user)) : gset string)
  = list_to_set (flat_map tags (arrayUnion joined members)).
Proof.
  intros Htags Hold. rewrite list_to_set_Array_from_Set, list_to_set_app_L, Hold.
  apply set_eq. intros x.
  rewrite elem_of_union, !elem_of_list_to_set, !elem_of_flat_map.
  unfold arrayUnion. case_decide as Hin.
  - split; [intros [H|H]; [done|] | by left].
    exists joined. by rewrite Htags.
  - split.
    + intros [(y & Hy & Hx)|Hx].
      * exists y. split; [apply elem_of_app; by left | done].
      * exists joined. rewrite Htags. split; [|done].
        apply elem_of_app. right. by apply list_elem_of_singleton.
    + intros (y & Hy & Hx). apply elem_of_app in Hy as [Hy|Hy].
      * left. by exists y.
      * apply list_elem_of_singleton in Hy. subst y. right. by rewrite <- Htags.
Qed.

Lemma aggregates_ok_memberJoined user team :
  aggregates_ok team → aggregates_ok (memberJoined user team).
Proof.
  unfold aggregates_ok, memberJoined. simpl. intros [Hs Hi].
  split; by apply union_with_joined.
Qed.

Lemma createTeam_aggregates_inv newId teamName owner db :
  aggregates_inv db → aggregates_inv (createTeam newId teamName owner db).2.
Proof.
  unfold aggregates_inv. intros Hinv.
  destruct (createTeam_teams newId teamName owner db) as [->| ->]; [done|].
  apply map_Forall_insert_2; [apply aggregates_ok_created | done].
Qed.

Lemma leaveTeam_aggregates_inv user teamId db :
  aggregates_inv db → aggregates_inv (leaveTeam user teamId db).2.
Proof.
  unfold aggregates_inv. intros Hinv.
  destruct (leaveTeam_teams user teamId db)
    as [->|[->|(team & Hteam & Hne & ->)]]; [done| |].
  - by apply map_Forall_delete.
  - apply map_Forall_insert_2; [apply aggregates_ok_memberLeft | done].
Qed.

Lemma handleInvitation_aggregates_inv invitationId accepted user db :
  aggregates_inv db → aggregates_inv (handleInvitation invitationId accepted user db).2.
Proof.
  unfold aggregates_inv. intros Hinv.
  destruct (handleInvitation_teams invitationId accepted user db)
    as [->|(invitation & team & _ & Hteam & ->)]; [done|].
  apply map_Forall_insert_2; [|done].
  apply aggregates_ok_memberJoined. by apply (Hinv _ _ Hteam).
Qed.

(** C1 at the failing input. Bob has joined Alice's team, whose skills are
    the union {Python, React, Figma}, and deletes his account: the team keeps
    Alice as its only member and still lists Figma, so its derived sets are no
    longer the unions over its members. [leaveTeam] on the same input
    recomputes them; the lemmas above show that [createTeam], [leaveTeam] and
    [handleInvitation] keep the invariant on every input. *)
Theorem deleteUserAccount_stale_aggregates :
  let db := Sample.bob_joined in
  let bob := Sample.current "bob" db in
  aggregates_inv db
  ∧ (deleteUserAccount bob db).1 = Ok tt
  ∧ teams (deleteUserAccount bob db).2 !! "t1"
    = Some (Team.mk "t1" "Alpha" "alice"
              [UserPatch.delete_profileComplete Sample.alice]
              ["Python"; "React"; "Figma"] ["AI"; "UI/UX"])
  ∧ ¬ aggregates_inv (deleteUserAccount bob db).2
  ∧ teams (leaveTeam bob "t1" db).2 !! "t1"
    = Some (Team.mk "t1" "Alpha" "alice"
              [UserPatch.delete_profileComplete Sample.alice]
              ["Python"; "React"] ["AI"])
  ∧ aggregates_inv (leaveTeam bob "t1" db).2.
Proof.
  intros db bob.
  split; [by_evaluation|]. split; [by vm_compute|]. split; [by vm_compute|].
  split; [refuted_by_evaluation|]. split; [by vm_compute|].
  by_evaluation.
Qed.

(** ** Account deletion against leaveTeam *)

Lemma forget_aggregates_memberDeleted user team :
  forget_aggregates (memberDeleted user team) = forget_aggregates (memberLeft user team).
Proof. done. Qed.

(** Where the flag agrees: for a user whose profile refers to an existing
    team, whose owner flag is set exactly when the user's id is the team's
    [ownerId], and whose profile and team conversation are in the store,
    account deletion and [leaveTeam] branch alike: both throw and write
    nothing when the user owns a team with other members; both delete the
    team and its conversation when the owner is the last member; otherwise
    both remove the user from the member collection and from the
    conversation's participants. The resulting teams and conversations
    collections coincide, the team records being compared without their
    derived skills and interests. *)
Lemma deleteUserAccount_follows_leaveTeam (user : User.t) (teamId : string)
    (db : Db) (team : Team.t) (profile : User.t) (conv : Conversation.t) :
  truthy_teamId (User.teamId user) = Some teamId →
  teams db !! teamId = Some team →
  (truthy_bool (User.isTeamOwner user) = true ↔ User.id user = Team.ownerId team) →
  users db !! User.id user = Some profile →
  conversations db !! teamConversationId teamId = Some conv →
  let left := leaveTeam user teamId db in
  let deleted := deleteUserAccount user db in
  thrown deleted.1 = thrown left.1
  ∧ (thrown left.1 = true
     ↔ User.id user = Team.ownerId team ∧ 1 < length (Team.members team))
  ∧ (thrown left.1 = true → left.2 = db ∧ deleted.2 = db)
  ∧ conversations deleted.2 = conversations left.2
  ∧ forget_aggregates <$> teams deleted.2 = forget_aggregates <$> teams left.2
  ∧ (User.id user = Team.ownerId team → ¬ 1 < length (Team.members team) →
     teams deleted.2 = delete teamId (teams db)
     ∧ conversations deleted.2 = delete (teamConversationId teamId) (conversations db))
  ∧ (User.id user ≠ Team.ownerId team →
     teams left.2 = <[teamId := memberLeft user team]> (teams db)
     ∧ teams deleted.2 = <[teamId := memberDeleted user team]> (teams db)
     ∧ Team.members (memberDeleted user team) = Team.members (memberLeft user team)
     ∧ conversations deleted.2
       = <[teamConversationId teamId := participantLeft user conv]> (conversations db)).
Proof.
  intros Htid Hteam Hflag Hprof Hconv left deleted.
  unfold left, deleted, leaveTeam, deleteUserAccount. run_m.
  rewrite Htid, Hteam. simpl.
  destruct (decide (User.id user = Team.ownerId team)) as [Hown|Hown].
  - rewrite (proj2 Hflag Hown).
    destruct (decide (1 < length (Team.members team))) as [Hlen|Hlen]; simpl.
    + repeat split; try done.
    + rewrite (update_in_Some _ _ _ _ Hprof). simpl.
      repeat split; try done; by intros [? ?].
  - destruct (truthy_bool (User.isTeamOwner user)) eqn:Hb;
      [by destruct Hown; apply Hflag|].
    simpl. unfold update_in. rewrite Hteam. simpl. rewrite Hconv. simpl.
    rewrite Hprof. simpl.
    repeat split; try done; [by intros [? ?] | by rewrite !fmap_insert].
Qed.

Example deleteUserAccount_follows_leaveTeam_bob :
  let db := Sample.bob_joined in
  let bob := Sample.current "bob" db in
  conversations (deleteUserAccount bob db).2 = conversations (leaveTeam bob "t1" db).2
  ∧ forget_aggregates <$> teams (deleteUserAccount bob db).2
    = forget_aggregates <$> teams (leaveTeam bob "t1" db).2.
Proof.
  intros db bob.
  destruct (deleteUserAccount_follows_leaveTeam bob "t1" db (Sample.team "t1" db)
              bob (Sample.conversation "team_t1" db))
    as (_ & _ & _ & Hc & Ht & _); [by vm_compute ..|].
  by split.
Qed.

(** C3 at the failing input. The store is the one the longer history
    leaves, every call of which completes. Alice's profile refers to Alpha,
    which she owns and which has other members, and has the owner flag off.
    [leaveTeam] decides on the team's [ownerId]: it rejects her as the owner
    and writes nothing. Account deletion decides on the profile's flag: it
    takes the branch for a regular member, completes, and removes her from
    Alpha's members and from the participants of Alpha's conversation. The
    two do not branch alike, and the records they leave differ. *)
Theorem deleteUserAccount_takes_owner_for_member :
  let db := Sample.alice_rejoined in
  let alice := Sample.current "alice" db in
  let left := leaveTeam alice "t1" db in
  let deleted := deleteUserAccount alice db in
  (Sample.replay Sample.history Sample.registered).1 = repeat false 9
  ∧ (handleInvitation "i3" true (Sample.current "alice" Sample.alice_reinvited)
       Sample.alice_reinvited).1 = Ok tt
  ∧ truthy_teamId (User.teamId alice) = Some "t1"
  ∧ User.id alice = Team.ownerId (Sample.team "t1" db)
  ∧ 1 < length (Team.members (Sample.team "t1" db))
  ∧ truthy_bool (User.isTeamOwner alice) = false
  ∧ left
    = (Throw (Error "You are the owner. Please transfer ownership or remove other members before leaving."),
       db)
  ∧ deleted.1 = Ok tt
  ∧ thrown deleted.1 ≠ thrown left.1
  ∧ User.id <$> Team.members (Sample.team "t1" left.2) = ["alice"; "bob"; "alice"]
  ∧ User.id <$> Team.members (Sample.team "t1" deleted.2) = ["bob"]
  ∧ Conversation.participantIds (Sample.conversation "team_t1" left.2)
    = ["alice"; "bob"]
  ∧ Conversation.participantIds (Sample.conversation "team_t1" deleted.2) = ["bob"]
  ∧ forget_aggregates <$> teams deleted.2 ≠ forget_aggregates <$> teams left.2
  ∧ conversations deleted.2 ≠ conversations left.2.
Proof.
  intros db alice left deleted.
  split; [by vm_compute|]. split; [by vm_compute|]. split; [by vm_compute|].
  split; [by vm_compute|]. split; [by_evaluation|]. split; [by vm_compute|].
  split; [by vm_compute|]. split; [by vm_compute|]. split; [by vm_compute|].
  split; [by vm_compute|]. split; [by vm_compute|]. split; [by vm_compute|].
  split; [by vm_compute|]. split.
  - intros Heq. apply (f_equal (λ m, Team.members <$> m !! "t1")) in Heq.
    by vm_compute in Heq.
  - intros Heq.
    apply (f_equal (λ m, Conversation.participantIds <$> m !! "team_t1")) in Heq.
    by vm_compute in Heq.
Qed.

(** ** The end-to-end scenario

    Alice creates "Alpha": one member, and she is flagged as its owner. Bob
    is invited: exactly one pending invitation. Bob accepts: two members,
    Bob is in a team, the invitation is gone and the conversation has two
    participants. *)
Example end_to_end :
  length (Team.members (Sample.team "t1" Sample.alpha_created)) = 1
  ∧ User.isTeamOwner (Sample.current "alice" Sample.alpha_created) = Some true
  ∧ size (invitations Sample.bob_invited) = 1
  ∧ length (Team.members (Sample.team "t1" Sample.bob_joined)) = 2
  ∧ User.teamStatus (Sample.current "bob" Sample.bob_joined) = InATeam
  ∧ invitations Sample.bob_joined = ∅
  ∧ Conversation.participantIds (Sample.conversation "team_t1" Sample.bob_joined)
    = ["alice"; "bob"].
Proof. repeat split; by vm_compute. Qed.

(** * Further properties *)

(** ** createTeam *)

(** What [createTeam] returns and writes when the owner's profile is there. *)
Lemma createTeam_result newId teamName owner db profile :
  users db !! User.id owner = Some profile →
  createTeam newId teamName owner db =
    (Ok (Team.mk newId teamName (User.id owner)
           [UserPatch.delete_profileComplete owner]
           (User.skills owner) (User.interests owner)),
     mkDb (<[User.id owner := profileOwning newId profile]> (users db))
          (<[newId := Team.mk newId teamName (User.id owner)
                        [UserPatch.delete_profileComplete owner]
                        (User.skills owner) (User.interests owner)]> (teams db))
          (<[teamConversationId newId :=
               Conversation.mk
                 {[ User.id owner :=
                      ConversationParticipant.mk (User.id owner) (User.name owner)
                                                 (User.avatarInitial owner) ]}
                 [User.id owner] None (Some true) (Some teamName) (Some newId)]>
             (conversations db))
          (invitations db)).
Proof.
  intros Hprof. unfold createTeam. run_m.
  by rewrite (update_in_Some _ _ _ _ Hprof).
Qed.

(** X1. With the owner's profile in the store, [createTeam] returns the new
    team and writes three documents at once: the team, with the owner (less
    the onboarding flag) as its only member and the owner's tags as its
    skills and interests, readable back with [getTeam]; the owner's profile,
    now referring to the team with the owner flag set; and the team's group
    conversation, with the owner as its only participant. Every other team,
    profile, conversation and invitation is as before. *)
Theorem createTeam_effect (newId teamName : string) (owner : User.t) (db : Db)
    (profile : User.t) :
  users db !! User.id owner = Some profile →
  ∃ newTeam conv db',
    createTeam newId teamName owner db = (Ok newTeam, db')
    ∧ newTeam = Team.mk newId teamName (User.id owner)
                  [UserPatch.delete_profileComplete owner]
                  (User.skills owner) (User.interests owner)
    ∧ teams db' = <[newId := newTeam]> (teams db)
    ∧ getTeam newId db' = (Ok (Some newTeam), db')
    ∧ users db' = <[User.id owner := profileOwning newId profile]> (users db)
    ∧ conversations db' = <[teamConversationId newId := conv]> (conversations db)
    ∧ Conversation.participantIds conv = [User.id owner]
    ∧ dom (Conversation.participants conv) = {[User.id owner]}
    ∧ Conversation.isGroupChat conv = Some true
    ∧ Conversation.groupName conv = Some teamName
    ∧ Conversation.teamId conv = Some newId
    ∧ Conversation.lastMessage conv = None
    ∧ invitations db' = invitations db.
Proof.
  intros Hprof. eexists _, _, _. split; [by apply createTeam_result|].
  simpl. split; [done|]. split; [done|]. split.
  { unfold getTeam. run_m. by rewrite lookup_insert_eq. }
  split; [done|]. split; [done|]. split; [done|]. split; [apply dom_singleton_L|].
  done.
Qed.

Lemma createTeam_effect_witness :
  ∃ newTeam db',
    createTeam "t1" "Alpha" Sample.alice Sample.registered = (Ok newTeam, db')
    ∧ length (Team.members newTeam) = 1
    ∧ getTeam "t1" db' = (Ok (Some newTeam), db').
Proof.
  destruct (createTeam_effect "t1" "Alpha" Sample.alice Sample.registered Sample.alice)
    as (newTeam & conv & db' & Hrun & Hteam & _ & Hget & _); [by vm_compute|].
  exists newTeam, db'. split; [done|]. split; [by rewrite Hteam | done].
Defined.

(** X2. [createTeam] is all-or-nothing: it throws exactly when the owner
    has no profile document, and then the store is unchanged (no team and no
    conversation is left behind). *)
Theorem createTeam_all_or_nothing (newId teamName : string) (owner : User.t) (db : Db) :
  (thrown (createTeam newId teamName owner db).1 = true
   ↔ users db !! User.id owner = None)
  ∧ (users db !! User.id owner = None →
     createTeam newId teamName owner db
     = (Throw (NotFound ("users/" +:+ User.id owner)), db)).
Proof.
  unfold createTeam. run_m. unfold update_in.
  destruct (users db !! User.id owner) as [profile|] eqn:Hprof; simpl.
  - split; [split; intros; done | intros; done].
  - done.
Qed.

Lemma createTeam_all_or_nothing_witness :
  createTeam "t9" "Ghosts" (Sample.profile "dave" "Dave" [] []) Sample.registered
  = (Throw (NotFound "users/dave"), Sample.registered).
Proof.
  apply (createTeam_all_or_nothing "t9" "Ghosts" (Sample.profile "dave" "Dave" [] [])
           Sample.registered).
  by vm_compute.
Defined.

(** X3. Creating a team under an unused id and leaving it right away undoes
    the creation: the teams and conversations collections are as they were,
    and the owner's profile is back to looking for a team, with the owner
    flag off. *)
Theorem createTeam_then_leaveTeam (newId teamName : string) (owner : User.t)
    (db : Db) (profile : User.t) :
  users db !! User.id owner = Some profile →
  teams db !! newId = None →
  conversations db !! teamConversationId newId = None →
  let created := (createTeam newId teamName owner db).2 in
  ∃ db',
    leaveTeam owner newId created = (Ok tt, db')
    ∧ teams db' = teams db
    ∧ conversations db' = conversations db
    ∧ invitations db' = invitations db
    ∧ users db' = <[User.id owner := clearTeamFields profile]> (users db).
Proof.
  intros Hprof Hteam Hconv created.
  unfold created. rewrite (createTeam_result _ _ _ _ _ Hprof). simpl.
  eexists. split.
  - unfold leaveTeam. run_m. rewrite lookup_insert_eq. simpl.
    rewrite decide_True by done.
    unfold update_in. simpl. rewrite lookup_insert_eq. simpl. done.
  - simpl. rewrite !delete_insert_eq, insert_insert_eq.
    repeat split; by apply delete_id.
Qed.

Lemma createTeam_then_leaveTeam_witness :
  ∃ db', leaveTeam Sample.alice "t1"
           (createTeam "t1" "Alpha" Sample.alice Sample.registered).2 = (Ok tt, db')
         ∧ teams db' = teams Sample.registered
         ∧ conversations db' = conversations Sample.registered.
Proof.
  destruct (createTeam_then_leaveTeam "t1" "Alpha" Sample.alice Sample.registered
              Sample.alice) as (db' & Hrun & Ht & Hc & _); [by vm_compute ..|].
  by exists db'.
Defined.

(** ** leaveTeam *)

Lemma write_Throw w db e db' : write w db = (Throw e, db') → db' = db.
Proof. unfold write. destruct (apply_write w db); congruence. Qed.

(** X4. When the team document is gone, [leaveTeam] still clears the team
    fields of the user's profile and touches nothing else; without a profile
    document it throws and the store is unchanged. *)
Theorem leaveTeam_missing_team (user : User.t) (teamId : string) (db : Db) :
  teams db !! teamId = None →
  (∀ profile, users db !! User.id user = Some profile →
     leaveTeam user teamId db
     = (Ok tt, set_users (insert (User.id user) (clearTeamFields profile)) db))
  ∧ (users db !! User.id user = None →
     leaveTeam user teamId db = (Throw (NotFound ("users/" +:+ User.id user)), db)).
Proof.
  intros Hteam. unfold leaveTeam. run_m. rewrite Hteam. unfold update_in.
  split.
  - intros profile ->. simpl. unfold set_users. simpl. done.
  - intros ->. done.
Qed.

Lemma leaveTeam_missing_team_witness :
  let db := Sample.after (leaveTeam (Sample.current "alice" Sample.bob_invited) "t1")
              Sample.bob_invited in
  User.teamId (Sample.current "alice"
                 (leaveTeam (Sample.current "alice" Sample.bob_invited) "t1" db).2)
  = Some None.
Proof.
  intros db.
  destruct (leaveTeam_missing_team (Sample.current "alice" Sample.bob_invited) "t1" db)
    as [Hclear _]; [by vm_compute|].
  rewrite (Hclear (Sample.current "alice" db)); by vm_compute.
Defined.

Lemma elem_of_arrayRemove {A} `{EqDecision A} (x y : A) (l : list A) :
  y ∈ arrayRemove x l ↔ y ∈ l ∧ y ≠ x.
Proof. unfold arrayRemove. rewrite list_elem_of_filter. tauto. Qed.

(** What [leaveTeam] writes for a regular member when every document it
    updates is there. *)
Lemma leaveTeam_member_result user teamId db team conv profile :
  teams db !! teamId = Some team →
  User.id user ≠ Team.ownerId team →
  conversations db !! teamConversationId teamId = Some conv →
  users db !! User.id user = Some profile →
  leaveTeam user teamId db =
    (Ok tt,
     mkDb (<[User.id user := clearTeamFields profile]> (users db))
          (<[teamId := memberLeft user team]> (teams db))
          (<[teamConversationId teamId := participantLeft user conv]> (conversations db))
          (invitations db)).
Proof.
  intros Hteam Hown Hconv Hprof. unfold leaveTeam. run_m. rewrite Hteam.
  rewrite decide_False by done. run_m. unfold update_in.
  rewrite Hteam. simpl. rewrite Hconv. simpl. rewrite Hprof. simpl. done.
Qed.

(** X5. A regular member who leaves is removed from the team and from the
    conversation's participant ids in one step: the team keeps exactly the
    members with another id, in their order, with its identity and owner
    unchanged and its skills and interests recomputed from them; the
    conversation keeps the user's display entry; the user's profile is back
    to looking for a team; invitations are untouched. *)
Theorem leaveTeam_member (user : User.t) (teamId : string) (db : Db)
    (team : Team.t) (conv : Conversation.t) (profile : User.t) :
  teams db !! teamId = Some team →
  User.id user ≠ Team.ownerId team →
  conversations db !! teamConversationId teamId = Some conv →
  users db !! User.id user = Some profile →
  ∃ db' team' conv',
    leaveTeam user teamId db = (Ok tt, db')
    ∧ teams db' = <[teamId := team']> (teams db)
    ∧ Team.members team'
      = filter (λ m, User.id m ≠ User.id user) (Team.members team)
    ∧ (∀ m, m ∈ Team.members team' → User.id m ≠ User.id user)
    ∧ Team.id team' = Team.id team ∧ Team.name team' = Team.name team
    ∧ Team.ownerId team' = Team.ownerId team
    ∧ aggregates_ok team'
    ∧ NoDup (Team.skills team') ∧ NoDup (Team.interests team')
    ∧ conversations db' = <[teamConversationId teamId := conv']> (conversations db)
    ∧ (User.id user ∉ Conversation.participantIds conv')
    ∧ (∀ p, p ≠ User.id user →
            (p ∈ Conversation.participantIds conv'
             ↔ p ∈ Conversation.participantIds conv))
    ∧ Conversation.participants conv' = Conversation.participants conv
    ∧ users db' = <[User.id user := clearTeamFields profile]> (users db)
    ∧ invitations db' = invitations db.
Proof.
  intros Hteam Hown Hconv Hprof.
  eexists. exists (memberLeft user team), (participantLeft user conv).
  split; [by apply leaveTeam_member_result|]. simpl.
  split; [done|]. split; [done|]. split.
  { intros m Hm. by apply list_elem_of_filter in Hm as [Hne _]. }
  split; [done|]. split; [done|]. split; [done|].
  split; [apply aggregates_ok_memberLeft|].
  split; [apply NoDup_Array_from_Set|]. split; [apply NoDup_Array_from_Set|].
  split; [done|]. split.
  { intros Hin. apply elem_of_arrayRemove in Hin as [_ Hne]. done. }
  split; [|done].
  intros p Hp. rewrite elem_of_arrayRemove. tauto.
Qed.

Lemma leaveTeam_member_witness :
  let db := Sample.bob_joined in
  ∃ db' team',
    leaveTeam (Sample.current "bob" db) "t1" db = (Ok tt, db')
    ∧ teams db' = <[ "t1" := team' ]> (teams db)
    ∧ length (Team.members team') = 1.
Proof.
  intros db.
  destruct (leaveTeam_member (Sample.current "bob" db) "t1" db (Sample.team "t1" db)
              (Sample.conversation "team_t1" db) (Sample.current "bob" db))
    as (db' & team' & conv' & Hrun & Ht & Hm & _); [by vm_compute ..|].
  exists db', team'. split; [done|]. split; [done|]. rewrite Hm. by vm_compute.
Defined.

(** ** One batch, all or nothing *)

Lemma handleInvitation_Throw invitationId accepted user db e :
  (handleInvitation invitationId accepted user db).1 = Throw e →
  (handleInvitation invitationId accepted user db).2 = db.
Proof.
  destruct (invitations db !! invitationId) as [invitation|] eqn:Hinv.
  - destruct accepted.
    + destruct (teams db !! Invitation.teamId invitation) as [teamData|] eqn:Hteam.
      * rewrite (handleInvitation_accept_commit _ _ _ _ _ Hinv Hteam).
        intros Hthrow. destruct (commit _ db) as [r db'] eqn:Hc. simpl in *. subst r.
        by apply commit_Throw in Hc.
      * by rewrite (handleInvitation_accept_no_team _ _ _ _ Hinv Hteam).
    + by rewrite (handleInvitation_decline _ _ _ _ Hinv).
  - unfold handleInvitation. run_m. by rewrite Hinv.
Qed.

(** X6. [createTeam], [leaveTeam], [sendInvitation] and [handleInvitation]
    each issue at most one write or one batch, after their last check: when
    one of them throws, whatever the error, the store is exactly as before. *)
Theorem single_batch_all_or_nothing (db : Db) (e : Exn) :
  (∀ newId teamName owner,
     (createTeam newId teamName owner db).1 = Throw e →
     (createTeam newId teamName owner db).2 = db)
  ∧ (∀ user teamId,
       (leaveTeam user teamId db).1 = Throw e → (leaveTeam user teamId db).2 = db)
  ∧ (∀ newId now team fromUser toUser,
       (sendInvitation newId now team fromUser toUser db).1 = Throw e →
       (sendInvitation newId now team fromUser toUser db).2 = db)
  ∧ (∀ invitationId accepted user,
       (handleInvitation invitationId accepted user db).1 = Throw e →
       (handleInvitation invitationId accepted user db).2 = db).
Proof.
  split; [|split; [|split]].
  - intros newId teamName owner. unfold createTeam, bind, ret.
    destruct (commit _ db) as [[[]|e'] db'] eqn:Hc; simpl; [done|].
    intros _. by apply commit_Throw in Hc.
  - intros user teamId. unfold leaveTeam, bind, getDoc_team, throw.
    destruct (teams db !! teamId) as [team|].
    + repeat case_decide; try done;
        (destruct (commit _ db) as [[[]|e'] db'] eqn:Hc; simpl; [done|];
         intros _; by apply commit_Throw in Hc).
    + destruct (write _ db) as [[[]|e'] db'] eqn:Hw; simpl; [done|].
      intros _. by apply write_Throw in Hw.
  - intros newId now team fromUser toUser. unfold sendInvitation. run_m.
    by case_match.
  - intros invitationId accepted user. apply handleInvitation_Throw.
Qed.

Lemma single_batch_all_or_nothing_witness :
  let db := Sample.after (leaveTeam (Sample.current "alice" Sample.bob_invited) "t1")
              Sample.bob_invited in
  (handleInvitation "i1" true Sample.bob db).2 = db.
Proof.
  intros db.
  destruct (single_batch_all_or_nothing db (Error "Team not found."))
    as (_ & _ & _ & Hhandle).
  apply Hhandle. by vm_compute.
Defined.

(** ** handleInvitation *)

Lemma handleInvitation_unknown invitationId accepted user db :
  invitations db !! invitationId = None →
  handleInvitation invitationId accepted user db
  = (Throw (Error "Invitation not found."), db).
Proof. intros Hinv. unfold handleInvitation. run_m. by rewrite Hinv. Qed.

Lemma handleInvitation_Ok invitationId accepted user db :
  (handleInvitation invitationId accepted user db).1 = Ok tt →
  invitations (handleInvitation invitationId accepted user db).2
  = delete invitationId (invitations db).
Proof.
  destruct (invitations db !! invitationId) as [invitation|] eqn:Hinv.
  - destruct accepted.
    + destruct (teams db !! Invitation.teamId invitation) as [teamData|] eqn:Hteam.
      * rewrite (handleInvitation_accept_commit _ _ _ _ _ Hinv Hteam). unfold commit.
        destruct (apply_batch _ db) as [e|db'] eqn:Hb; [done|].
        intros _. by apply accept_batch_invitations in Hb.
      * by rewrite (handleInvitation_accept_no_team _ _ _ _ Hinv Hteam).
    + by rewrite (handleInvitation_decline _ _ _ _ Hinv).
  - by rewrite (handleInvitation_unknown _ _ _ _ Hinv).
Qed.

(** X7. An invitation is resolved at most once: after a call of
    [handleInvitation] that completed, any further call for the same
    invitation, accepting or declining and by any user, throws "Invitation
    not found." and writes nothing. *)
Theorem handleInvitation_once (invitationId : string) (accepted : bool)
    (user : User.t) (db : Db) :
  (handleInvitation invitationId accepted user db).1 = Ok tt →
  ∀ accepted' user',
    handleInvitation invitationId accepted' user'
      (handleInvitation invitationId accepted user db).2
    = (Throw (Error "Invitation not found."),
       (handleInvitation invitationId accepted user db).2).
Proof.
  intros Hok accepted' user'. apply handleInvitation_unknown.
  rewrite (handleInvitation_Ok _ _ _ _ Hok). apply lookup_delete_eq.
Qed.

Lemma handleInvitation_once_witness :
  handleInvitation "i1" false Sample.bob Sample.bob_joined
  = (Throw (Error "Invitation not found."), Sample.bob_joined).
Proof.
  apply (handleInvitation_once "i1" true Sample.bob Sample.bob_invited).
  by vm_compute.
Defined.

(** X8. What accepting does beyond the counts: the user's profile gets the
    team reference and the in-team status and keeps every other field, the
    owner flag included; the team keeps its identity, its owner and all its
    members, and its skills and interests become, without repetition,
    exactly its former ones together with the user's. *)
Theorem handleInvitation_accept_profile_and_tags (invitationId : string)
    (user : User.t) (db : Db) (invitation : Invitation.t) (team : Team.t)
    (profile : User.t) (conv : Conversation.t) :
  invitations db !! invitationId = Some invitation →
  teams db !! Invitation.teamId invitation = Some team →
  users db !! User.id user = Some profile →
  conversations db !! teamConversationId (Invitation.teamId invitation) = Some conv →
  ∃ db' profile' team',
    handleInvitation invitationId true user db = (Ok tt, db')
    ∧ users db' = <[User.id user := profile']> (users db)
    ∧ User.teamId profile' = Some (Some (Invitation.teamId invitation))
    ∧ User.teamStatus profile' = InATeam
    ∧ User.isTeamOwner profile' = User.isTeamOwner profile
    ∧ UserPatch.set_teamId (User.teamId profile)
        (UserPatch.set_teamStatus (User.teamStatus profile) profile') = profile
    ∧ teams db' = <[Invitation.teamId invitation := team']> (teams db)
    ∧ Team.id team' = Team.id team ∧ Team.name team' = Team.name team
    ∧ Team.ownerId team' = Team.ownerId team
    ∧ (∀ m, m ∈ Team.members team → m ∈ Team.members team')
    ∧ NoDup (Team.skills team') ∧ NoDup (Team.interests team')
    ∧ (∀ x, x ∈ Team.skills team' ↔ x ∈ Team.skills team ∨ x ∈ User.skills user)
    ∧ (∀ x, x ∈ Team.interests team'
            ↔ x ∈ Team.interests team ∨ x ∈ User.interests user).
Proof.
  intros Hinv Hteam Hprof Hconv.
  eexists. exists (profileJoined (Invitation.teamId invitation) profile),
                  (memberJoined user team).
  split.
  { rewrite (handleInvitation_accept_commit _ _ _ _ _ Hinv Hteam). unfold commit.
    by rewrite (accept_batch_applies _ _ _ _ _ _ _ Hprof Hteam Hconv). }
  simpl. split; [done|]. split; [done|]. split; [done|]. split; [done|].
  split; [by destruct profile|].
  split; [done|]. split; [done|]. split; [done|]. split; [done|].
  split.
  { intros m Hm. unfold arrayUnion. case_decide; [done|].
    apply elem_of_app. by left. }
  split; [apply NoDup_Array_from_Set|]. split; [apply NoDup_Array_from_Set|].
  split; intros x; by rewrite elem_of_Array_from_Set, elem_of_app.
Qed.

Lemma handleInvitation_accept_profile_and_tags_witness :
  ∃ db' profile',
    handleInvitation "i1" true Sample.bob Sample.bob_invited = (Ok tt, db')
    ∧ users db' = <[ "bob" := profile' ]> (users Sample.bob_invited)
    ∧ User.teamStatus profile' = InATeam.
Proof.
  destruct (handleInvitation_accept_profile_and_tags "i1" Sample.bob Sample.bob_invited
              (Sample.invitation "i1" Sample.bob_invited)
              (Sample.team "t1" Sample.bob_invited)
              (Sample.current "bob" Sample.bob_invited)
              (Sample.conversation "team_t1" Sample.bob_invited))
    as (db' & profile' & team' & Hrun & Hu & _ & Hs & _); [by vm_compute ..|].
  by exists db', profile'.
Defined.

Lemma filter_all {A} (P : A → Prop) `{∀ x, Decision (P x)} (l : list A) :
  Forall P l → filter P l = l.
Proof.
  induction 1 as [|x l Hx _ IH]; [done|].
  rewrite filter_cons_True by done. by rewrite IH.
Qed.

(** X9. Joining and then leaving gives the roster back. For a user who is
    neither the owner nor yet a member or participant, accepting an
    invitation and then leaving the team (with whatever copy of the profile
    the client then holds) restores the team's member list and
    the conversation's participant ids exactly; the invitation is gone, the
    team's skills and interests are the de-duplicated tags of its members,
    and the conversation still holds the display entry the user got on
    joining. *)
Theorem accept_then_leave (invitationId : string) (user : User.t) (db : Db)
    (invitation : Invitation.t) (team : Team.t) (profile : User.t)
    (conv : Conversation.t) (leaver : User.t) :
  invitations db !! invitationId = Some invitation →
  teams db !! Invitation.teamId invitation = Some team →
  users db !! User.id user = Some profile →
  conversations db !! teamConversationId (Invitation.teamId invitation) = Some conv →
  User.id user ≠ Team.ownerId team →
  Forall (λ m, User.id m ≠ User.id user) (Team.members team) →
  User.id user ∉ Conversation.participantIds conv →
  User.id leaver = User.id user →
  let teamId := Invitation.teamId invitation in
  let joined := (handleInvitation invitationId true user db).2 in
  ∃ db' team' conv',
    leaveTeam leaver teamId joined = (Ok tt, db')
    ∧ teams db' = <[teamId := team']> (teams db)
    ∧ Team.members team' = Team.members team
    ∧ Team.id team' = Team.id team ∧ Team.name team' = Team.name team
    ∧ Team.ownerId team' = Team.ownerId team
    ∧ Team.skills team' = Array_from_Set (flat_map User.skills (Team.members team))
    ∧ Team.interests team'
      = Array_from_Set (flat_map User.interests (Team.members team))
    ∧ conversations db' = <[teamConversationId teamId := conv']> (conversations db)
    ∧ Conversation.participantIds conv' = Conversation.participantIds conv
    ∧ Conversation.participants conv' !! User.id user
      = Some (ConversationParticipant.mk (User.id user) (User.name user)
                                         (User.avatarInitial user))
    ∧ users db' = <[User.id user := clearTeamFields profile]> (users db)
    ∧ invitations db' = delete invitationId (invitations db).
Proof.
  intros Hinv Hteam Hprof Hconv Hown Hnew Hpart Hid teamId joined.
  unfold joined. rewrite (handleInvitation_accept_commit _ _ _ _ _ Hinv Hteam).
  unfold commit. rewrite (accept_batch_applies _ _ _ _ _ _ _ Hprof Hteam Hconv).
  simpl.
  assert (Hmembers :
    filter (λ m, User.id m ≠ User.id user)
      (arrayUnion (UserPatch.delete_profileComplete user) (Team.members team))
    = Team.members team).
  { rewrite arrayUnion_new.
    - rewrite filter_app, (filter_all _ _ Hnew).
      rewrite filter_cons_False by (simpl; tauto). by rewrite app_nil_r.
    - intros Hin. by apply (proj1 (Forall_forall _ _) Hnew _ Hin). }
  assert (Hids :
    arrayRemove (User.id user)
      (arrayUnion (User.id user) (Conversation.participantIds conv))
    = Conversation.participantIds conv).
  { rewrite (arrayUnion_new _ _ Hpart). unfold arrayRemove.
    rewrite filter_app, filter_cons_False by tauto. rewrite app_nil_r.
    apply filter_all. apply Forall_forall. intros p Hp ->. done. }
  eexists _, _, _. split.
  { erewrite leaveTeam_member_result; [done| | | |]; simpl; rewrite ?Hid.
    - apply lookup_insert_eq.
    - done.
    - apply lookup_insert_eq.
    - apply lookup_insert_eq. }
  simpl. rewrite Hid, !insert_insert_eq. split; [done|].
  unfold memberLeft, participantLeft. simpl. rewrite Hid, Hmembers, Hids.
  split; [done|]. split; [done|]. split; [done|]. split; [done|].
  split; [done|]. split; [done|]. split; [done|]. split; [done|].
  split; [cbn; by rewrite lookup_insert_eq|]. done.
Qed.

Lemma accept_then_leave_witness :
  let db := Sample.bob_invited in
  ∃ db' team',
    leaveTeam (Sample.current "bob" (handleInvitation "i1" true Sample.bob db).2) "t1"
      (handleInvitation "i1" true Sample.bob db).2 = (Ok tt, db')
    ∧ teams db' = <[ "t1" := team' ]> (teams db)
    ∧ Team.members team' = Team.members (Sample.team "t1" db).
Proof.
  intros db.
  destruct (accept_then_leave "i1" Sample.bob db (Sample.invitation "i1" db)
              (Sample.team "t1" db) (Sample.current "bob" db)
              (Sample.conversation "team_t1" db)
              (Sample.current "bob" (handleInvitation "i1" true Sample.bob db).2))
    as (db' & team' & conv' & Hrun & Ht & Hm & _);
    [by vm_compute | by vm_compute | by vm_compute | by vm_compute | by vm_compute
    | by_evaluation | by_evaluation | by vm_compute |].
  by exists db', team'.
Defined.

(** ** deleteUserAccount *)

Lemma deleteUserAccount_unfold user :
  deleteUserAccount user
  = bind (detachFromTeam user) (λ _, write (DeleteUser (User.id user))).
Proof. done. Qed.

Lemma preserves_ret {A X} (part : Db → X) (a : A) : preserves part (ret a).
Proof. by intros db. Qed.

Lemma preserves_throw {A X} (part : Db → X) e : preserves part (@throw A e).
Proof. by intros db. Qed.

Lemma preserves_bind {A B X} (part : Db → X) (c : M A) (k : A → M B) :
  preserves part c → (∀ a, preserves part (k a)) → preserves part (bind c k).
Proof.
  intros Hc Hk db. unfold bind. specialize (Hc db).
  destruct (c db) as [[a|e] db1]; simpl in *; [|done].
  by rewrite Hk.
Qed.

Lemma preserves_users_write w : user_write w = false → preserves users (write w).
Proof.
  intros Hw db. unfold write.
  destruct w; simpl in *; try done; unfold update_in;
    match goal with |- context [?m !! ?k] => by destruct (m !! k) end.
Qed.

Lemma preserves_getDoc_team {X} (part : Db → X) k : preserves part (getDoc_team k).
Proof. by intros db. Qed.

Lemma detachFromTeam_users user : preserves users (detachFromTeam user).
Proof.
  unfold detachFromTeam. destruct (truthy_teamId _); [|apply preserves_ret].
  apply preserves_bind; [apply preserves_getDoc_team|].
  intros [team|]; [|apply preserves_ret].
  destruct (truthy_bool _); [case_decide; [apply preserves_throw|]|];
    (apply preserves_bind; [|intros _]; by apply preserves_users_write).
Qed.

Lemma detachFromTeam_invitations user : keeps_invitations (detachFromTeam user).
Proof.
  unfold detachFromTeam. destruct (truthy_teamId _); [|auto with keeps].
  apply keeps_bind; [auto with keeps|].
  intros [team|]; [|auto with keeps].
  destruct (truthy_bool _); [case_decide; [auto with keeps|]|];
    apply keeps_bind; auto with keeps.
Qed.

(** X10. [deleteUserAccount] removes exactly the user's own profile, and
    only when it completes: on completion the users collection is the former
    one without that document; when it throws, every profile is still there.
    It never touches the invitations collection, so invitations sent by or
    addressed to the deleted user stay. *)
Theorem deleteUserAccount_profile (user : User.t) (db : Db) :
  ((deleteUserAccount user db).1 = Ok tt →
   users (deleteUserAccount user db).2 = delete (User.id user) (users db))
  ∧ (thrown (deleteUserAccount user db).1 = true →
     users (deleteUserAccount user db).2 = users db)
  ∧ invitations (deleteUserAccount user db).2 = invitations db.
Proof.
  rewrite deleteUserAccount_unfold. unfold bind.
  pose proof (detachFromTeam_users user db) as Hu.
  pose proof (detachFromTeam_invitations user db) as Hi.
  destruct (detachFromTeam user db) as [[[]|e] db1]; simpl in *.
  - rewrite <- Hu, <- Hi. done.
  - done.
Qed.

Lemma deleteUserAccount_profile_witness :
  let db := Sample.bob_invited in
  users (deleteUserAccount Sample.bob db).2 = delete "bob" (users db)
  ∧ invitations (deleteUserAccount Sample.bob db).2 !! "i1"
    = Some (Sample.invitation "i1" db).
Proof.
  intros db.
  destruct (deleteUserAccount_profile Sample.bob db) as (Hok & _ & Hinv).
  split; [apply Hok; by vm_compute|]. rewrite Hinv. by vm_compute.
Defined.

(** X11. Account deletion is not one batch. For a regular member whose
    team's conversation document is missing, the team is written first, so
    the call throws with the member already removed from the team while the
    user's profile is still in the store. *)
Theorem deleteUserAccount_partial (user : User.t) (db : Db) (teamId : string)
    (team : Team.t) :
  truthy_teamId (User.teamId user) = Some teamId →
  teams db !! teamId = Some team →
  truthy_bool (User.isTeamOwner user) = false →
  conversations db !! teamConversationId teamId = None →
  deleteUserAccount user db
  = (Throw (NotFound ("conversations/" +:+ teamConversationId teamId)),
     set_teams (insert teamId (memberDeleted user team)) db).
Proof.
  intros Htid Hteam Hflag Hconv. unfold deleteUserAccount. run_m.
  rewrite Htid, Hteam, Hflag. simpl. unfold update_in. rewrite Hteam. simpl.
  rewrite Hconv. simpl. done.
Qed.

Lemma deleteUserAccount_partial_witness :
  let db := set_conversations (delete "team_t1") Sample.bob_joined in
  let bob := Sample.current "bob" db in
  thrown (deleteUserAccount bob db).1 = true
  ∧ length (Team.members (Sample.team "t1" (deleteUserAccount bob db).2)) = 1
  ∧ users (deleteUserAccount bob db).2 !! "bob" = Some bob.
Proof.
  intros db bob.
  rewrite (deleteUserAccount_partial bob db "t1" (Sample.team "t1" db));
    [|by vm_compute ..].
  split; [done|]. split; by vm_compute.
Defined.

(** X12. A user whose profile names no team, or a team that no longer
    exists, is deleted outright: the call completes and the only change is
    the removal of the profile document. *)
Theorem deleteUserAccount_without_team (user : User.t) (db : Db) :
  (truthy_teamId (User.teamId user) = None
   ∨ ∃ teamId, truthy_teamId (User.teamId user) = Some teamId
               ∧ teams db !! teamId = None) →
  deleteUserAccount user db = (Ok tt, set_users (delete (User.id user)) db).
Proof.
  intros [Hnone|(teamId & Htid & Hteam)]; unfold deleteUserAccount; run_m.
  - by rewrite Hnone.
  - by rewrite Htid, Hteam.
Qed.

Lemma deleteUserAccount_without_team_witness :
  deleteUserAccount Sample.carol Sample.bob_joined
  = (Ok tt, set_users (delete "carol") Sample.bob_joined).
Proof.
  apply (deleteUserAccount_without_team Sample.carol Sample.bob_joined).
  left. by vm_compute.
Defined.

(** ** Invariants along executions *)

(** X13. Every call other than account deletion keeps the derived sets of
    every team equal to the unions over its members. *)
Theorem aggregates_inv_preserved (c : Call) (db : Db) :
  (∀ user, c ≠ DeleteUserAccount user) →
  aggregates_inv db → aggregates_inv (perform c db).
Proof.
  intros Hc Hinv. destruct c; simpl.
  - by apply createTeam_aggregates_inv.
  - by apply leaveTeam_aggregates_inv.
  - unfold aggregates_inv. by rewrite sendInvitation_teams.
  - by apply handleInvitation_aggregates_inv.
  - by destruct (Hc user).
Qed.

Lemma aggregates_inv_preserved_witness :
  aggregates_inv
    (perform (LeaveTeam (Sample.current "bob" Sample.bob_joined) "t1")
       Sample.bob_joined).
Proof.
  apply aggregates_inv_preserved; [done | by_evaluation].
Defined.

Lemma teamConversationId_inj a b :
  teamConversationId a = teamConversationId b → a = b.
Proof. cbv [teamConversationId String.append]. by intros [= ->]. Qed.

Lemma elem_of_arrayUnion {A} `{EqDecision A} (x y : A) (l : list A) :
  y ∈ arrayUnion x l ↔ y = x ∨ y ∈ l.
Proof.
  unfold arrayUnion. case_decide as Hx.
  - split; [by right | intros [->|?]; done].
  - rewrite elem_of_app, list_elem_of_singleton. tauto.
Qed.

Lemma synced_removed user team conv :
  synced team conv →
  (list_to_set (arrayRemove (User.id user) (Conversation.participantIds conv))
     : gset string)
  = list_to_set
      (User.id <$> filter (λ m, User.id m ≠ User.id user) (Team.members team)).
Proof.
  unfold synced. intros Hs. apply set_eq. intros x.
  rewrite set_eq in Hs. specialize (Hs x).
  rewrite !elem_of_list_to_set in *. rewrite elem_of_arrayRemove, Hs.
  rewrite !list_elem_of_fmap. split.
  - intros [(m & -> & Hm) Hne]. exists m. split; [done|].
    apply list_elem_of_filter. done.
  - intros (m & -> & Hm). apply list_elem_of_filter in Hm as [Hne Hm].
    split; [by exists m | done].
Qed.

Lemma synced_memberLeft user team conv :
  synced team conv → synced (memberLeft user team) (participantLeft user conv).
Proof. intros Hs. unfold synced. simpl. by apply synced_removed. Qed.

Lemma synced_memberDeleted user team conv :
  synced team conv → synced (memberDeleted user team) (participantLeft user conv).
Proof. intros Hs. unfold synced. simpl. by apply synced_removed. Qed.

Lemma synced_memberJoined user team conv :
  synced team conv → synced (memberJoined user team) (participantJoined user conv).
Proof.
  unfold synced. simpl. intros Hs. apply set_eq. intros x.
  rewrite set_eq in Hs. specialize (Hs x).
  rewrite !elem_of_list_to_set in *. rewrite elem_of_arrayUnion, Hs.
  rewrite !list_elem_of_fmap. split.
  - intros [->|(m & -> & Hm)].
    + exists (UserPatch.delete_profileComplete user). split; [done|].
      apply elem_of_arrayUnion. by left.
    + exists m. split; [done|]. apply elem_of_arrayUnion. by right.
  - intros (m & -> & Hm). apply elem_of_arrayUnion in Hm as [->|Hm].
    + by left.
    + right. by exists m.
Qed.

Lemma roster_inv_same db db' :
  teams db' = teams db → conversations db' = conversations db →
  roster_inv db → roster_inv db'.
Proof. unfold roster_inv. by intros -> ->. Qed.

Lemma roster_inv_insert db db' teamId team' conv' :
  teams db' = <[teamId := team']> (teams db) →
  conversations db' = <[teamConversationId teamId := conv']> (conversations db) →
  synced team' conv' →
  roster_inv db → roster_inv db'.
Proof.
  unfold roster_inv. intros -> -> Hs Hinv k team Hk.
  apply lookup_insert_Some in Hk as [[<- <-]|[Hne Hk]].
  - by rewrite lookup_insert_eq.
  - rewrite lookup_insert_ne; [by apply Hinv|].
    intros Heq. by apply teamConversationId_inj in Heq.
Qed.

Lemma roster_inv_delete db db' teamId :
  teams db' = delete teamId (teams db) →
  conversations db' = delete (teamConversationId teamId) (conversations db) →
  roster_inv db → roster_inv db'.
Proof.
  unfold roster_inv. intros -> -> Hinv k team Hk.
  apply lookup_delete_Some in Hk as [Hne Hk].
  rewrite lookup_delete_ne; [by apply Hinv|].
  intros Heq. by apply teamConversationId_inj in Heq.
Qed.

Lemma createTeam_roster_inv newId teamName owner db :
  roster_inv db → roster_inv (createTeam newId teamName owner db).2.
Proof.
  intros Hinv. destruct (users db !! User.id owner) as [profile|] eqn:Hprof.
  - rewrite (createTeam_result _ _ _ _ _ Hprof). simpl.
    eapply roster_inv_insert; [done | done | | done].
    unfold synced. simpl. done.
  - unfold createTeam. run_m. unfold update_in. rewrite Hprof. simpl. done.
Qed.

Lemma leaveTeam_roster_inv user teamId db :
  roster_inv db → roster_inv (leaveTeam user teamId db).2.
Proof.
  intros Hinv. unfold leaveTeam. run_m. unfold update_in.
  destruct (teams db !! teamId) as [team|] eqn:Hteam; simpl.
  - pose proof (Hinv _ _ Hteam) as Hsync. simpl in Hsync.
    case_decide as Hown.
    + case_decide; simpl; [done|].
      destruct (users db !! User.id user); simpl; [|done].
      by eapply roster_inv_delete.
    + simpl. rewrite Hteam. simpl.
      destruct (conversations db !! teamConversationId teamId) as [conv|] eqn:Hconv;
        simpl; [|done].
      destruct (users db !! User.id user); simpl; [|done].
      eapply roster_inv_insert; [done | done | | done].
      by apply synced_memberLeft.
  - destruct (users db !! User.id user); simpl; [|done].
    by eapply roster_inv_same.
Qed.

Lemma handleInvitation_roster_inv invitationId accepted user db :
  roster_inv db → roster_inv (handleInvitation invitationId accepted user db).2.
Proof.
  intros Hinv.
  destruct (invitations db !! invitationId) as [invitation|] eqn:Hi.
  - destruct accepted.
    + destruct (teams db !! Invitation.teamId invitation) as [team|] eqn:Hteam.
      * pose proof (Hinv _ _ Hteam) as Hsync. simpl in Hsync.
        destruct (conversations db !! teamConversationId (Invitation.teamId invitation))
          as [conv|] eqn:Hconv; [|done].
        rewrite (handleInvitation_accept_commit _ _ _ _ _ Hi Hteam). unfold commit.
        destruct (users db !! User.id user) as [profile|] eqn:Hprof.
        -- rewrite (accept_batch_applies _ _ _ _ _ _ _ Hprof Hteam Hconv). simpl.
           eapply roster_inv_insert; [done | done | | done].
           by apply (synced_memberJoined user team conv).
        -- simpl. unfold update_in. rewrite Hprof. simpl. done.
      * by rewrite (handleInvitation_accept_no_team _ _ _ _ Hi Hteam).
    + rewrite (handleInvitation_decline _ _ _ _ Hi). by eapply roster_inv_same.
  - by rewrite (handleInvitation_unknown _ _ _ _ Hi).
Qed.

Lemma deleteUserAccount_roster_inv user db :
  roster_inv db → roster_inv (deleteUserAccount user db).2.
Proof.
  intros Hinv. unfold deleteUserAccount. run_m.
  destruct (truthy_teamId (User.teamId user)) as [teamId|]; simpl;
    [|by eapply roster_inv_same].
  destruct (teams db !! teamId) as [team|] eqn:Hteam; simpl;
    [|by eapply roster_inv_same].
  pose proof (Hinv _ _ Hteam) as Hsync. simpl in Hsync.
  destruct (conversations db !! teamConversationId teamId) as [conv|] eqn:Hconv;
    [|done].
  destruct (truthy_bool (User.isTeamOwner user)).
  - case_decide; simpl; [done|]. by eapply roster_inv_delete.
  - simpl. unfold update_in. rewrite Hteam. simpl. rewrite Hconv. simpl.
    eapply roster_inv_insert; [done | done | | done].
    by apply (synced_memberDeleted user team conv).
Qed.

Lemma sendInvitation_roster_inv newId now team fromUser toUser db :
  roster_inv db → roster_inv (sendInvitation newId now team fromUser toUser db).2.
Proof.
  intros Hinv. unfold sendInvitation. run_m. case_match; [done|].
  by eapply roster_inv_same.
Qed.

(** X14. The roster and the chat stay in step. If every team has its
    conversation and the conversation's participants are the team's members,
    the same holds after any call of the service, whether it completes or
    throws, and so along every sequential execution. *)
Theorem roster_inv_preserved :
  (∀ c db, roster_inv db → roster_inv (perform c db))
  ∧ (∀ db calls db', roster_inv db → execution db calls db' → roster_inv db')
  ∧ roster_inv (mkDb ∅ ∅ ∅ ∅).
Proof.
  assert (Hstep : ∀ c db, roster_inv db → roster_inv (perform c db)).
  { intros c db Hinv. destruct c; simpl.
    - by apply createTeam_roster_inv.
    - by apply leaveTeam_roster_inv.
    - by apply sendInvitation_roster_inv.
    - by apply handleInvitation_roster_inv.
    - by apply deleteUserAccount_roster_inv. }
  split; [done|]. split.
  - intros db calls db' Hinv Hex.
    induction Hex as [|db c calls db' _ _ IH]; [done|]. by apply IH, Hstep.
  - unfold roster_inv. simpl. apply map_Forall_empty.
Qed.

Lemma roster_inv_preserved_witness :
  roster_inv Sample.alice_rejoined
  ∧ roster_inv (perform (DeleteUserAccount
                           (Sample.current "alice" Sample.alice_rejoined))
                  Sample.alice_rejoined).
Proof.
  destruct roster_inv_preserved as (Hstep & _ & _).
  assert (Hpre : roster_inv Sample.alice_rejoined) by by_evaluation.
  split; [done|]. by apply Hstep.
Defined.

(** ** getRecommendedTeams *)

Lemma score_positive currentUser team :
  0 < ScoredTeam.score (scoreTeam currentUser team)
  ↔ ∃ x, (x ∈ User.skills currentUser ∧ x ∈ Team.skills team)
         ∨ (x ∈ User.interests currentUser ∧ x ∈ Team.interests team).
Proof.
  unfold scoreTeam. simpl.
  set (cs := filter _ (Array_from_Set (User.skills currentUser))).
  set (ci := filter _ (Array_from_Set (User.interests currentUser))).
  assert (Hcs : ∀ x, x ∈ cs ↔ x ∈ User.skills currentUser ∧ x ∈ Team.skills team)
    by (intros x; apply elem_of_common).
  assert (Hci : ∀ x, x ∈ ci ↔ x ∈ User.interests currentUser ∧ x ∈ Team.interests team)
    by (intros x; apply elem_of_common).
  split.
  - intros Hpos. destruct cs as [|x cs'].
    + destruct ci as [|x ci']; [simpl in Hpos; lia|].
      exists x. right. apply Hci. left.
    + exists x. left. apply Hcs. left.
  - intros (x & [Hx|Hx]).
    + apply Hcs in Hx. destruct cs; [by apply elem_of_nil in Hx | simpl; lia].
    + apply Hci in Hx. destruct ci; [by apply elem_of_nil in Hx | simpl; lia].
Qed.

(** X15. Which teams are recommended. A team appears in the result exactly
    when it is in the collection, the user neither owns it nor is among its
    members, and it shares at least one skill or one interest with the user.
    So a user without skills and interests is recommended nothing, and the
    result never has more entries than there are teams. *)
Theorem getRecommendedTeams_which (currentUser : User.t) (teamsCollection : list Team.t) :
  (∀ team,
     team ∈ ScoredTeam.team <$> getRecommendedTeams currentUser teamsCollection
     ↔ team ∈ teamsCollection
       ∧ notOwnTeam currentUser team
       ∧ ∃ x, (x ∈ User.skills currentUser ∧ x ∈ Team.skills team)
              ∨ (x ∈ User.interests currentUser ∧ x ∈ Team.interests team))
  ∧ (User.skills currentUser = [] → User.interests currentUser = [] →
     getRecommendedTeams currentUser teamsCollection = [])
  ∧ length (getRecommendedTeams currentUser teamsCollection) ≤ length teamsCollection.
Proof.
  assert (Hperm :
    getRecommendedTeams currentUser teamsCollection
    ≡ₚ scoreTeam currentUser
         <$> filter (λ team, notOwnTeam currentUser team
                             ∧ 0 < ScoredTeam.score (scoreTeam currentUser team))
               teamsCollection).
  { unfold getRecommendedTeams. rewrite recommended_candidates.
    apply (Array_sort_Permutation ScoredTeam.score). }
  assert (Hwhich : ∀ team,
     team ∈ ScoredTeam.team <$> getRecommendedTeams currentUser teamsCollection
     ↔ team ∈ teamsCollection
       ∧ notOwnTeam currentUser team
       ∧ ∃ x, (x ∈ User.skills currentUser ∧ x ∈ Team.skills team)
              ∨ (x ∈ User.interests currentUser ∧ x ∈ Team.interests team)).
  { intros team. rewrite Hperm, <- list_fmap_compose, <- score_positive.
    rewrite list_elem_of_fmap. split.
    - intros (t & -> & Ht). apply list_elem_of_filter in Ht as [[Hown Hs] Hin].
      done.
    - intros (Hin & Hown & Hs). exists team. split; [done|].
      apply list_elem_of_filter. done. }
  split; [done|]. split.
  - intros Hs Hi.
    destruct (getRecommendedTeams currentUser teamsCollection) as [|st l] eqn:Hres;
      [done|].
    assert (Hin : ScoredTeam.team st ∈ ScoredTeam.team <$> st :: l) by left.
    apply Hwhich in Hin as (_ & _ & x & [[Hx _]|[Hx _]]).
    + rewrite Hs in Hx. by apply elem_of_nil in Hx.
    + rewrite Hi in Hx. by apply elem_of_nil in Hx.
  - rewrite Hperm, length_fmap. apply length_filter.
Qed.

Lemma getRecommendedTeams_which_witness :
  let collection := (map_to_list (teams Sample.alice_rejoined)).*2 in
  getRecommendedTeams (Sample.profile "erin" "Erin" [] []) collection = []
  ∧ Sample.team "t2" Sample.alice_rejoined
    ∈ ScoredTeam.team
      <$> getRecommendedTeams (Sample.profile "dave" "Dave" ["Rust"] []) collection.
Proof.
  intros collection. split.
  - by apply (getRecommendedTeams_which (Sample.profile "erin" "Erin" [] []) collection).
  - apply (getRecommendedTeams_which (Sample.profile "dave" "Dave" ["Rust"] [])
             collection).
    split; [by_evaluation|]. split; [by_evaluation|].
    exists "Rust". left. split; by_evaluation.
Defined.

(** ** searchUsers *)

Lemma append_cons c s t : String c s +:+ t = String c (s +:+ t).
Proof. done. Qed.

Lemma append_nil_l s : "" +:+ s = s.
Proof. done. Qed.

Lemma prefix_spec a s : String.prefix a s = true ↔ ∃ post, s = a +:+ post.
Proof.
  revert s. induction a as [|c a IH]; intros s.
  - destruct s; (split; [intros _; by eexists | done]).
  - destruct s as [|d s]; simpl.
    + split; [done | by intros (post & [=])].
    + destruct (ascii_dec c d) as [->|Hne].
      * rewrite IH. split; intros (post & Hpost); exists post.
        -- by rewrite append_cons, Hpost.
        -- rewrite append_cons in Hpost. by injection Hpost.
      * split; [done|]. intros (post & Hpost). rewrite append_cons in Hpost.
        injection Hpost as Hd _. by destruct Hne.
Qed.

Lemma includes_nil sub : includes "" sub = String.prefix sub "" || false.
Proof. done. Qed.

Lemma includes_cons c s sub :
  includes (String c s) sub = String.prefix sub (String c s) || includes s sub.
Proof. done. Qed.

(** [includes] holds exactly of the substrings. *)
Lemma includes_spec s sub :
  includes s sub = true ↔ ∃ pre post, s = pre +:+ sub +:+ post.
Proof.
  induction s as [|c s IH];
    [rewrite includes_nil|rewrite includes_cons]; rewrite orb_true_iff, prefix_spec.
  - split.
    + intros [(post & Hpost)|?]; [|done]. by exists "", post.
    + intros (pre & post & Hs). left. destruct pre; [by exists post | done].
  - rewrite IH. split.
    + intros [(post & Hpost)|(pre & post & Hs)].
      * by exists "", post.
      * exists (String c pre), post. by rewrite append_cons, Hs.
    + intros (pre & post & Hs). destruct pre as [|d pre].
      * left. by exists post.
      * right. rewrite append_cons in Hs. injection Hs as _ Hs. by exists pre, post.
Qed.

Lemma selected_Some v any s :
  selected v any = Some s ↔ v = Some s ∧ s ≠ "" ∧ s ≠ any.
Proof.
  unfold selected, truthy_string. destruct v as [t|].
  - destruct (decide (t = "")) as [Ht|Ht], (decide (t = any)) as [Ha|Ha];
      rewrite ?(bool_decide_eq_true_2 _ Ht), ?(bool_decide_eq_false_2 _ Ht),
        ?(bool_decide_eq_true_2 _ Ha), ?(bool_decide_eq_false_2 _ Ha); simpl.
    + split; [done|]. intros ([= <-] & Hs & _). done.
    + split; [done|]. intros ([= <-] & Hs & _). done.
    + split; [done|]. intros ([= <-] & _ & Hs). done.
    + split; [by intros [= <-] | by intros ([= <-] & _)].
  - split; [done | by intros [? _]].
Qed.

Lemma selected_None v any :
  selected v any = None ↔ ∀ s, v = Some s → s = "" ∨ s = any.
Proof.
  split.
  - intros Hnone s ->. destruct (decide (s = "")) as [|Hs]; [by left|].
    destruct (decide (s = any)) as [|Ha]; [by right|].
    assert (selected (Some s) any = Some s) by by apply selected_Some.
    congruence.
  - intros Hv. destruct (selected v any) as [s|] eqn:Hsel; [|done].
    apply selected_Some in Hsel as (-> & Hs & Ha). by destruct (Hv s eq_refl).
Qed.

Lemma selected_forall v any (P : string → Prop) :
  (∀ s, v = Some s → s ≠ "" → s ≠ any → P s)
  ↔ match selected v any with Some s => P s | None => True end.
Proof.
  destruct (selected v any) as [s|] eqn:Hs.
  - apply selected_Some in Hs as (-> & Hne & Ha).
    split; [intros HP; by apply HP | by intros HP s' [= <-]].
  - split; [done|]. intros _ s Hv Hne Ha.
    destruct (proj1 (selected_None v any) Hs s Hv); done.
Qed.

(** The conjunction of the [where] clauses of a search. *)
Lemma searchUsers_where currentUserId filters (u : User.t) :
  forallb (matches u) (searchQueries currentUserId filters) = true
  ↔ User.id u ≠ currentUserId
    ∧ (∀ s, Filters.skill filters = Some s → s ≠ "" → s ≠ "Any Skill" →
            s ∈ User.skills u)
    ∧ (∀ s, Filters.interest filters = Some s → s ≠ "" → s ≠ "Any Interest" →
            s ∈ User.interests u)
    ∧ (∀ a, Filters.availability filters = Some a → a ≠ "" → a ≠ "Any" →
            User.teamStatus u
            = if decide (a = "Available") then LookingForATeam else InATeam).
Proof.
  rewrite (selected_forall (Filters.skill filters)),
    (selected_forall (Filters.interest filters)),
    (selected_forall (Filters.availability filters)).
  unfold searchQueries. rewrite !forallb_app, !andb_true_iff. simpl.
  rewrite andb_true_r, negb_true_iff, bool_decide_eq_false.
  destruct (selected (Filters.skill filters) "Any Skill"),
    (selected (Filters.interest filters) "Any Interest"),
    (selected (Filters.availability filters) "Any"); simpl;
    rewrite ?andb_true_r, ?bool_decide_eq_true; tauto.
Qed.

(** The store rejects the search's query exactly when a skill and an
    interest are both chosen. *)
Lemma searchQueries_rejected currentUserId filters :
  1 < length (filter (λ w, arrayContains w = true) (searchQueries currentUserId filters))
  ↔ is_Some (selected (Filters.skill filters) "Any Skill")
    ∧ is_Some (selected (Filters.interest filters) "Any Interest").
Proof.
  unfold searchQueries.
  destruct (selected (Filters.skill filters) "Any Skill") as [s|],
    (selected (Filters.interest filters) "Any Interest") as [i|],
    (selected (Filters.availability filters) "Any") as [a|].
  all: match goal with
       | |- context [length ?l] =>
           let n := eval vm_compute in (length l) in change (length l) with n
       end.
  all: split; [intros Hlen | intros [[? Hs] [? Hi]]]; try done; try lia.
  all: split; eauto.
Qed.

(** X16. Which profiles a search returns, for names and a name query in
    ASCII. Without an authenticated user the search throws. For an
    authenticated caller, the store rejects the query when a skill and an
    interest are both chosen, and the search throws; otherwise the store
    serves the query, the search completes, and its result is the collection's profiles, in the collection's order,
    narrowed to exactly those that are not the caller, list the chosen
    skill or interest, have the chosen availability, and whose lower-cased
    name contains the lower-cased query. An empty value and the entries
    "Any Skill", "Any Interest" and "Any" choose nothing. *)
Theorem searchUsers_which (currentUserId : string) (filters : Filters.t)
    (usersCollection : list (string * User.t)) :
  (∀ n, Filters.name filters = Some n → isAscii n) →
  Forall (λ u, isAscii (User.name u)) usersCollection.*2 →
  (∀ s i,
     Filters.skill filters = Some s → s ≠ "" → s ≠ "Any Skill" →
     Filters.interest filters = Some i → i ≠ "" → i ≠ "Any Interest" →
     searchUsers (Some currentUserId) filters usersCollection = Throw InvalidArgument)
  ∧ ((∀ s, Filters.skill filters = Some s → s = "" ∨ s = "Any Skill")
     ∨ (∀ i, Filters.interest filters = Some i → i = "" ∨ i = "Any Interest") →
     ∃ users,
       searchUsers (Some currentUserId) filters usersCollection = Ok users
       ∧ users `sublist_of` usersCollection.*2
       ∧ ∀ u, u ∈ users ↔
           u ∈ usersCollection.*2
           ∧ User.id u ≠ currentUserId
           ∧ (∀ s, Filters.skill filters = Some s → s ≠ "" → s ≠ "Any Skill" →
                   s ∈ User.skills u)
           ∧ (∀ s, Filters.interest filters = Some s → s ≠ "" → s ≠ "Any Interest" →
                   s ∈ User.interests u)
           ∧ (∀ a, Filters.availability filters = Some a → a ≠ "" → a ≠ "Any" →
                   User.teamStatus u
                   = if decide (a = "Available") then LookingForATeam else InATeam)
           ∧ (∀ n, Filters.name filters = Some n → n ≠ "" →
                   ∃ pre post,
                     toLowerCase (User.name u) = pre +:+ toLowerCase n +:+ post))
  ∧ searchUsers None filters usersCollection
    = Throw (Error "No authenticated user found").
Proof.
  intros _ _. split; [|split; [|done]].
  { intros s i Hs Hs1 Hs2 Hi Hi1 Hi2. unfold searchUsers, getDocs_users.
    fold (searchQueries currentUserId filters).
    rewrite decide_True; [done|]. apply searchQueries_rejected. split.
    - exists s. by apply selected_Some.
    - exists i. by apply selected_Some. }
  intros Hone. unfold searchUsers, getDocs_users.
  fold (searchQueries currentUserId filters).
  rewrite decide_False; last first.
  { rewrite searchQueries_rejected. intros [[s Hs] [i Hi]].
    apply selected_Some in Hs as (Hs & ? & ?), Hi as (Hi & ? & ?).
    destruct Hone as [Hone|Hone]; [by destruct (Hone _ Hs) | by destruct (Hone _ Hi)]. }
  eexists. split; [done|].
  set (queries := searchQueries currentUserId filters).
  assert (Hsnap : ∀ u,
            u ∈ map (λ d : string * User.t, d.2)
                  (filter (λ d, forallb (matches d.2) queries = true) usersCollection)
            ↔ u ∈ usersCollection.*2 ∧ forallb (matches u) queries = true).
  { intros u. rewrite !list_elem_of_fmap. split.
    - intros (d & -> & Hd). apply list_elem_of_filter in Hd as [Hq Hd].
      split; [by exists d | done].
    - intros [(d & -> & Hd) Hq]. exists d. split; [done|].
      by apply list_elem_of_filter. }
  assert (Hsub : map (λ d : string * User.t, d.2)
                   (filter (λ d, forallb (matches d.2) queries = true) usersCollection)
                 `sublist_of` usersCollection.*2).
  { apply (fmap_sublist snd), sublist_filter. }
  destruct (Filters.name filters) as [n|] eqn:Hname.
  - change (truthy_string (Some n)) with (negb (bool_decide (n = ""))).
    destruct (decide (n = "")) as [->|Hn].
    + rewrite bool_decide_eq_true_2 by done. cbn [negb]. split; [done|].
      intros u. rewrite Hsnap. unfold queries. rewrite searchUsers_where.
      split; [intros (? & ? & ? & ? & ?); repeat split; try done;
              by intros n [= <-] | intros (? & ? & ? & ? & ? & _); done].
    + rewrite (bool_decide_eq_false_2 _ Hn). cbn [negb]. split.
      * etrans; [apply sublist_filter | done].
      * intros u. rewrite list_elem_of_filter, Hsnap.
        unfold queries. rewrite searchUsers_where, includes_spec.
        split.
        -- intros (Hinc & ? & ? & ? & ? & ?). repeat split; try done.
           by intros n' [= <-] _.
        -- intros (? & ? & ? & ? & ? & Hinc). split; [by apply Hinc|done].
  - change (truthy_string None) with false. cbn iota. split; [done|].
    intros u. rewrite Hsnap. unfold queries. rewrite searchUsers_where.
    split; [intros (? & ? & ? & ? & ?); repeat split; done
           | intros (? & ? & ? & ? & ? & _); done].
Qed.

Lemma searchUsers_which_witness :
  (∃ found,
     searchUsers (Some "alice")
       (Filters.mk (Some "O") (Some "Figma") (Some "Any Interest") (Some "Available"))
       (map_to_list (users Sample.registered)) = Ok found
     ∧ (Sample.bob ∈ found) ∧ (Sample.carol ∉ found))
  ∧ searchUsers (Some "alice")
      (Filters.mk (Some "O") (Some "Figma") (Some "UI/UX") (Some "Available"))
      (map_to_list (users Sample.registered)) = Throw InvalidArgument.
Proof.
  split.
  - destruct (searchUsers_which "alice"
                (Filters.mk (Some "O") (Some "Figma") (Some "Any Interest")
                            (Some "Available"))
                (map_to_list (users Sample.registered)))
      as (_ & [found (Hrun & _ & Hwhich)] & _).
    + intros n [= <-]. by_evaluation.
    + by_evaluation.
    + right. intros i [= <-]. by right.
    + exists found. split; [exact Hrun|]. split.
      * apply Hwhich. split; [by_evaluation|]. split; [by vm_compute|].
        split; [intros s [= <-] _ _; by_evaluation|].
        split; [intros s [= <-] _ Hne; by destruct Hne|].
        split; [intros a [= <-] _ _; reflexivity|].
        intros n [= <-] _. exists "b", "b". reflexivity.
      * intros Hin. apply Hwhich in Hin as (_ & _ & Hskill & _).
        specialize (Hskill "Figma" eq_refl).
        assert (H : "Figma" ∈ User.skills Sample.carol) by by apply Hskill.
        by vm_compute in H; apply list_elem_of_In in H; destruct H as [H|[]].
  - destruct (searchUsers_which "alice"
                (Filters.mk (Some "O") (Some "Figma") (Some "UI/UX")
                            (Some "Available"))
                (map_to_list (users Sample.registered)))
      as (Hboth & _).
    + intros n [= <-]. by_evaluation.
    + by_evaluation.
    + by apply (Hboth "Figma" "UI/UX").
Defined.

Lemma toLowerCase_toUpperCase_ascii c :
  toLowerCase_ascii (toUpperCase_ascii c) = toLowerCase_ascii c.
Proof. by destruct c as [[] [] [] [] [] [] [] []]. Qed.

Lemma toLowerCase_idemp_ascii c :
  toLowerCase_ascii (toLowerCase_ascii c) = toLowerCase_ascii c.
Proof. by destruct c as [[] [] [] [] [] [] [] []]. Qed.

Lemma toLowerCase_toUpperCase s : toLowerCase (toUpperCase s) = toLowerCase s.
Proof.
  induction s as [|c s IH]; [done|]. simpl.
  by rewrite toLowerCase_toUpperCase_ascii, IH.
Qed.

Lemma toLowerCase_idemp s : toLowerCase (toLowerCase s) = toLowerCase s.
Proof.
  induction s as [|c s IH]; [done|]. simpl.
  by rewrite toLowerCase_idemp_ascii, IH.
Qed.

Lemma searchUsers_name_ext currentUser n1 n2 skill interest availability coll :
  truthy_string (Some n1) = truthy_string (Some n2) →
  toLowerCase n1 = toLowerCase n2 →
  searchUsers currentUser (Filters.mk (Some n1) skill interest availability) coll
  = searchUsers currentUser (Filters.mk (Some n2) skill interest availability) coll.
Proof.
  intros Ht Hl. unfold searchUsers.
  cbn [Filters.name Filters.skill Filters.interest Filters.availability default
       from_option id].
  by rewrite Ht, Hl.
Qed.

(** X17. The name search ignores case (of the ASCII letters, as
    [toLowerCase] is modelled): writing the query in upper case or
    in lower case returns the same profiles as writing it as it is, whatever
    the other filters; and the match itself compares lower-cased names, so
    the case of the stored names does not matter either. *)
Theorem searchUsers_case_insensitive (currentUser : option string) (n : string)
    (skill interest availability : option string)
    (usersCollection : list (string * User.t)) :
  searchUsers currentUser (Filters.mk (Some (toUpperCase n)) skill interest availability)
    usersCollection
  = searchUsers currentUser (Filters.mk (Some n) skill interest availability)
      usersCollection
  ∧ searchUsers currentUser
      (Filters.mk (Some (toLowerCase n)) skill interest availability) usersCollection
    = searchUsers currentUser (Filters.mk (Some n) skill interest availability)
        usersCollection.
Proof.
  split; apply searchUsers_name_ext.
  - by destruct n.
  - apply toLowerCase_toUpperCase.
  - by destruct n.
  - apply toLowerCase_idemp.
Qed.

Lemma searchUsers_case_insensitive_witness :
  searchUsers (Some "alice") (Filters.mk (Some "BOB") None None None)
    (map_to_list (users Sample.registered))
  = Ok [Sample.bob].
Proof.
  destruct (searchUsers_case_insensitive (Some "alice") "bob" None None None
              (map_to_list (users Sample.registered))) as [Hupper _].
  etrans; [exact Hupper | by vm_compute].
Defined.

(** ** getSuggestedTeammates *)

Lemma filter_snd {A B} (P : B → Prop) (Q : A * B → Prop)
    `{∀ x, Decision (P x)} `{∀ d, Decision (Q d)} (l : list (A * B)) :
  (∀ d, Q d ↔ P d.2) → (filter Q l).*2 = filter P l.*2.
Proof.
  intros HQ. induction l as [|d l IH]; [done|].
  rewrite fmap_cons, !filter_cons.
  destruct (decide (Q d)) as [Hd|Hd], (decide (P d.2)) as [Hp|Hp].
  - by rewrite fmap_cons, IH.
  - by apply HQ in Hd.
  - by apply HQ in Hp.
  - done.
Qed.

(** X18. The dashboard's suggestions are at most four profiles, none of them
    the caller's and all of them looking for a team: the first four such
    profiles of the collection, in its order, or all of them when there are
    fewer. Without an authenticated user the call throws. *)
Theorem getSuggestedTeammates_spec (currentUserId : string)
    (usersCollection : list (string * User.t)) :
  (∃ suggested,
     getSuggestedTeammates (Some currentUserId) usersCollection = Ok suggested
     ∧ length suggested ≤ 4
     ∧ (∀ u, u ∈ suggested →
             User.id u ≠ currentUserId ∧ User.teamStatus u = LookingForATeam
             ∧ u ∈ usersCollection.*2)
     ∧ suggested
       = take 4 (filter (λ u, User.id u ≠ currentUserId
                              ∧ User.teamStatus u = LookingForATeam)
                        usersCollection.*2)
     ∧ suggested `sublist_of` usersCollection.*2)
  ∧ getSuggestedTeammates None usersCollection
    = Throw (Error "No authenticated user found").
Proof.
  split; [|done]. unfold getSuggestedTeammates. eexists. split; [done|].
  assert (Heq :
    map (λ d : string * User.t, d.2)
      (take 4
         (filter (λ d : string * User.t,
                    negb (bool_decide (User.id d.2 = currentUserId))
                    && bool_decide (User.teamStatus d.2 = LookingForATeam) = true)
                 usersCollection))
    = take 4 (filter (λ u, User.id u ≠ currentUserId
                           ∧ User.teamStatus u = LookingForATeam)
                     usersCollection.*2)).
  { change (map (λ d : string * User.t, d.2)) with (fmap (M := list) (@snd string User.t)).
    rewrite fmap_take. f_equal. apply filter_snd. intros d.
    rewrite andb_true_iff, negb_true_iff, bool_decide_eq_false, bool_decide_eq_true.
    done. }
  rewrite Heq. split.
  { rewrite length_take. lia. }
  split.
  { intros u Hu. apply (subseteq_take 4) in Hu.
    apply list_elem_of_filter in Hu as [[? ?] ?]. done. }
  split; [done|].
  etrans; [apply sublist_take | apply sublist_filter].
Qed.

Lemma getSuggestedTeammates_spec_witness :
  ∃ suggested,
    getSuggestedTeammates (Some "alice") (map_to_list (users Sample.bob_joined))
    = Ok suggested
    ∧ ∀ u, u ∈ suggested → User.teamStatus u = LookingForATeam.
Proof.
  destruct (getSuggestedTeammates_spec "alice" (map_to_list (users Sample.bob_joined)))
    as [(suggested & Hrun & _ & Hall & _) _].
  exists suggested. split; [done|]. intros u Hu. by destruct (Hall u Hu) as (_ & ? & _).
Defined.

(** ** updateUserProfile *)

Lemma PartialUser_apply_idemp p u :
  PartialUser.apply p (PartialUser.apply p u) = PartialUser.apply p u.
Proof. by destruct p as [[] [] [] [] [] [] [] [] [] [] [] [] [] [] []]. Qed.

(** X19. [updateUserProfile] overwrites the fields the form names and keeps
    the others, and returns the profile exactly as stored: saving with
    nothing named changes nothing, and saving the same data twice is the
    same as saving it once. It writes that one profile only: the member
    summaries embedded in teams, and the teams' skills and interests, keep
    the values they had. On a missing profile it throws and the store is
    unchanged; the "Could not retrieve" error never occurs. *)
Theorem updateUserProfile_spec (userId : string) (profileData : PartialUser.t)
    (db : Db) :
  (∀ profile, users db !! userId = Some profile →
     updateUserProfile userId profileData db
     = (Ok (PartialUser.apply profileData profile),
        set_users (insert userId (PartialUser.apply profileData profile)) db)
     ∧ teams (updateUserProfile userId profileData db).2 = teams db
     ∧ updateUserProfile userId PartialUser.empty db = (Ok profile, db)
     ∧ updateUserProfile userId profileData
         (updateUserProfile userId profileData db).2
       = updateUserProfile userId profileData db)
  ∧ (users db !! userId = None →
     updateUserProfile userId profileData db
     = (Throw (NotFound ("users/" +:+ userId)), db))
  ∧ (updateUserProfile userId profileData db).1
    ≠ Throw (Error "Could not retrieve updated user profile.").
Proof.
  assert (Hrun : ∀ p d profile, users d !! userId = Some profile →
            updateUserProfile userId p d
            = (Ok (PartialUser.apply p profile),
               set_users (insert userId (PartialUser.apply p profile)) d)).
  { intros p d profile Hprof. unfold updateUserProfile, getUserProfile. run_m.
    rewrite (update_in_Some _ _ _ _ Hprof). simpl. by rewrite lookup_insert_eq. }
  split; [|split].
  - intros profile Hprof. rewrite (Hrun _ _ _ Hprof). split; [done|]. split; [done|].
    split.
    + rewrite (Hrun _ _ _ Hprof).
      replace (PartialUser.apply PartialUser.empty profile) with profile
        by by destruct profile.
      unfold set_users. rewrite (insert_id _ _ _ Hprof). by destruct db.
    + simpl. erewrite Hrun; [|simpl; apply lookup_insert_eq].
      rewrite PartialUser_apply_idemp. unfold set_users. simpl.
      by rewrite insert_insert_eq.
  - intros Hnone. unfold updateUserProfile. run_m.
    by rewrite (update_in_None _ _ _ Hnone).
  - destruct (users db !! userId) as [profile|] eqn:Hprof.
    + by rewrite (Hrun _ _ _ Hprof).
    + unfold updateUserProfile. run_m. by rewrite (update_in_None _ _ _ Hprof).
Qed.

Lemma updateUserProfile_spec_witness :
  let onboarding :=
    PartialUser.mk None None None (Some "CS Student") (Some 4%Z) None None
      (Some "College of Computer Science") (Some ["AI"]) (Some ["Python"; "Go"])
      None None (Some true) None None in
  let db := Sample.bob_joined in
  User.skills (Sample.current "bob" (updateUserProfile "bob" onboarding db).2)
  = ["Python"; "Go"]
  ∧ teams (updateUserProfile "bob" onboarding db).2 = teams db.
Proof.
  intros onboarding db.
  destruct (updateUserProfile_spec "bob" onboarding db) as [Hsome _].
  destruct (Hsome (Sample.current "bob" db)) as (Hrun & Hteams & _); [by vm_compute|].
  split; [|done]. rewrite Hrun. by vm_compute.
Defined.

(** ** findOrCreateConversation *)

Lemma Array_sort2_sym a b : Array_sort2 a b = Array_sort2 b a.
Proof.
  unfold Array_sort2, String.ltb. rewrite (String.compare_antisym a b).
  destruct (String.compare b a) eqn:Hc; simpl; try done.
  apply String.compare_eq_iff in Hc. by subst.
Qed.

Lemma findOrCreateConversation_existing currentUser otherUser db conv :
  conversations db
    !! String.concat "_" (Array_sort2 (User.id currentUser) (User.id otherUser))
  = Some conv →
  findOrCreateConversation currentUser otherUser db
  = (Ok (String.concat "_" (Array_sort2 (User.id currentUser) (User.id otherUser))),
     db).
Proof.
  intros Hconv. unfold findOrCreateConversation, getDoc_conversation. run_m.
  by rewrite Hconv.
Qed.

(** X20. A direct conversation has one id for its two parties, whoever
    opens it: the two user ids joined by an underscore in one of the two
    orders, the same for both parties; for ASCII ids it is the sorted order,
    the smaller id first. The first call creates the conversation with both
    as participants and no last message; a conversation that is already
    there is never overwritten, so a further call by either party returns
    the same id and leaves the store as it is. *)
Theorem findOrCreateConversation_spec (currentUser otherUser : User.t) (db : Db) :
  let opened := findOrCreateConversation currentUser otherUser db in
  ∃ conversationId,
    opened.1 = Ok conversationId
    ∧ (findOrCreateConversation otherUser currentUser db).1 = Ok conversationId
    ∧ (conversationId = User.id currentUser +:+ "_" +:+ User.id otherUser
       ∨ conversationId = User.id otherUser +:+ "_" +:+ User.id currentUser)
    ∧ (isAscii (User.id currentUser) → isAscii (User.id otherUser) →
       conversationId
       = if String.ltb (User.id otherUser) (User.id currentUser)
         then User.id otherUser +:+ "_" +:+ User.id currentUser
         else User.id currentUser +:+ "_" +:+ User.id otherUser)
    ∧ (is_Some (conversations db !! conversationId) → opened.2 = db)
    ∧ (conversations db !! conversationId = None →
       ∃ conv,
         opened.2 = set_conversations (insert conversationId conv) db
         ∧ Conversation.participantIds conv = [User.id currentUser; User.id otherUser]
         ∧ dom (Conversation.participants conv)
           = {[User.id currentUser; User.id otherUser]}
         ∧ Conversation.lastMessage conv = None
         ∧ Conversation.isGroupChat conv = None)
    ∧ findOrCreateConversation otherUser currentUser opened.2
      = (Ok conversationId, opened.2)
    ∧ findOrCreateConversation currentUser otherUser opened.2
      = (Ok conversationId, opened.2).
Proof.
  intros opened.
  set (conversationId :=
         String.concat "_" (Array_sort2 (User.id currentUser) (User.id otherUser))).
  exists conversationId.
  assert (Hsym : String.concat "_" (Array_sort2 (User.id otherUser) (User.id currentUser))
                 = conversationId)
    by (unfold conversationId; by rewrite Array_sort2_sym).
  assert (Hopened : is_Some (conversations opened.2 !! conversationId)
                    ∧ opened.1 = Ok conversationId).
  { unfold opened, findOrCreateConversation, getDoc_conversation. run_m.
    fold conversationId.
    destruct (conversations db !! conversationId) eqn:Hc; simpl.
    - by rewrite Hc.
    - by rewrite lookup_insert_eq. }
  destruct Hopened as [[conv' Hconv'] Hid].
  split; [done|]. split.
  { unfold findOrCreateConversation, getDoc_conversation. run_m. rewrite Hsym.
    by destruct (conversations db !! conversationId). }
  split.
  { unfold conversationId, Array_sort2. destruct (String.ltb _ _); simpl; auto. }
  split.
  { intros _ _. unfold conversationId, Array_sort2.
    by destruct (String.ltb _ _). }
  split.
  { intros [conv Hconv]. unfold opened.
    by rewrite (findOrCreateConversation_existing _ _ _ _ Hconv). }
  split.
  { intros Hnone. unfold opened, findOrCreateConversation, getDoc_conversation.
    run_m. fold conversationId. rewrite Hnone. simpl.
    eexists. split; [done|]. simpl. split; [done|]. split; [|done].
    rewrite dom_insert_L, dom_singleton_L. apply (comm_L (∪)). }
  split.
  - rewrite <- Hsym in Hconv'.
    rewrite (findOrCreateConversation_existing _ _ _ _ Hconv'). by rewrite Hsym.
  - by rewrite (findOrCreateConversation_existing _ _ _ _ Hconv').
Qed.

Lemma findOrCreateConversation_spec_witness :
  let opened := findOrCreateConversation Sample.bob Sample.alice Sample.registered in
  opened.1 = Ok "alice_bob"
  ∧ findOrCreateConversation Sample.alice Sample.bob opened.2 = (Ok "alice_bob", opened.2).
Proof.
  intros opened.
  destruct (findOrCreateConversation_spec Sample.bob Sample.alice Sample.registered)
    as (conversationId & Hid & _ & _ & Hsorted & _ & _ & Hagain & _).
  assert (Hbob : isAscii (User.id Sample.bob)) by by_evaluation.
  assert (Halice : isAscii (User.id Sample.alice)) by by_evaluation.
  rewrite (Hsorted Hbob Halice) in Hid, Hagain.
  split; [exact Hid | exact Hagain].
Defined.

(** ** The recipient's pending invitations *)

Lemma elem_of_query {A} (P : A → bool) (m : gmap string A) k d :
  (k, d) ∈ query P m ↔ m !! k = Some d ∧ P d = true.
Proof.
  unfold query. rewrite list_elem_of_filter, elem_of_map_to_list. simpl. tauto.
Qed.

Lemma NoDup_query_keys {A} (P : A → bool) (m : gmap string A) :
  NoDup (query P m).*1.
Proof.
  apply (sublist_NoDup _ (map_to_list m).*1).
  - apply NoDup_fst_map_to_list.
  - apply (fmap_sublist fst), sublist_filter.
Qed.

(** X21. What the recipient sees. The snapshot delivered for a state of the
    store holds exactly the invitations addressed to the caller, each once;
    when no (team, recipient) pair has two pending invitations it shows each
    inviting team at most once. An invitation that [sendInvitation] has just
    written is in the recipient's snapshot, with the team's and the sender's
    names as passed; once [handleInvitation] has completed for it, it is in
    nobody's snapshot. *)
Theorem listenForInvitations_spec (db : Db) :
  (∀ currentUserId,
     ∃ snapshot,
       listenForInvitations (Some currentUserId) db = Ok snapshot
       ∧ (∀ k i, (k, i) ∈ snapshot
                 ↔ invitations db !! k = Some i
                   ∧ Invitation.toUserId i = currentUserId)
       ∧ NoDup snapshot.*1
       ∧ (unique_pending db →
          ∀ k1 i1 k2 i2, (k1, i1) ∈ snapshot → (k2, i2) ∈ snapshot →
                         Invitation.teamId i1 = Invitation.teamId i2 → k1 = k2))
  ∧ (∀ newId now team fromUser toUser snapshot,
       (sendInvitation newId now team fromUser toUser db).1 = Ok tt →
       listenForInvitations (Some (User.id toUser))
         (sendInvitation newId now team fromUser toUser db).2 = Ok snapshot →
       (newId,
        Invitation.mk (Team.id team) (Team.name team)
          (Invitation.mkSender (User.id fromUser) (User.name fromUser))
          (User.id toUser) pending now) ∈ snapshot)
  ∧ (∀ invitationId accepted user currentUserId snapshot,
       (handleInvitation invitationId accepted user db).1 = Ok tt →
       listenForInvitations (Some currentUserId)
         (handleInvitation invitationId accepted user db).2 = Ok snapshot →
       invitationId ∉ snapshot.*1)
  ∧ listenForInvitations None db = Throw (Error "No authenticated user found").
Proof.
  assert (Hin : ∀ cur d k i,
            (k, i) ∈ query (λ i, bool_decide (Invitation.toUserId i = cur)
                                 && bool_decide (Invitation.status i = pending))
                           (invitations d)
            ↔ invitations d !! k = Some i ∧ Invitation.toUserId i = cur).
  { intros cur d k i. rewrite elem_of_query, andb_true_iff, !bool_decide_eq_true.
    destruct (Invitation.status i). tauto. }
  split; [|split; [|split; [|done]]].
  - intros cur. eexists. split; [done|]. split; [apply Hin|].
    split; [apply NoDup_query_keys|].
    intros Hu k1 i1 k2 i2 H1 H2 Ht.
    apply Hin in H1 as [H1 Hto1]. apply Hin in H2 as [H2 Hto2].
    apply (Hu k1 k2 i1 i2); try done; try by destruct (Invitation.status _).
    congruence.
  - intros newId now team fromUser toUser snapshot Hok Hsnap.
    injection Hsnap as <-. apply Hin. split; [|done].
    destruct (pending_dec (Team.id team) (User.id toUser) db)
      as [(k & i & Hk & Hp)|Hnone].
    + by rewrite (sendInvitation_existing _ _ _ _ _ _ _ _ Hk Hp) in Hok.
    + rewrite (sendInvitation_new _ _ _ _ _ _ Hnone). simpl.
      apply lookup_insert_eq.
  - intros invitationId accepted user cur snapshot Hok Hsnap.
    injection Hsnap as <-. intros Hk.
    apply list_elem_of_fmap in Hk as ([k i] & Heq & Hki). simpl in Heq. subst k.
    apply Hin in Hki as [Hki _].
    rewrite (handleInvitation_Ok _ _ _ _ Hok) in Hki.
    by rewrite lookup_delete_eq in Hki.
Qed.

Lemma listenForInvitations_spec_witness :
  ∃ snapshot,
    listenForInvitations (Some "bob") Sample.bob_invited = Ok snapshot
    ∧ ("i1", Sample.invitation "i1" Sample.bob_invited) ∈ snapshot.
Proof.
  destruct (listenForInvitations_spec Sample.bob_invited) as (Hsnap & _).
  destruct (Hsnap "bob") as (snapshot & Hrun & Hin & _).
  exists snapshot. split; [done|]. apply Hin. split; by vm_compute.
Defined.

(** ** Inviting from the profile page *)

Lemma handleInvite_with_team newId now c user db teamId team :
  truthy_teamId (User.teamId c) = Some teamId →
  teams db !! teamId = Some team →
  handleInvite newId now (Some c) user db
  = try_catch (sendInvitation newId now team c user) db.
Proof.
  intros Htid Hteam. unfold handleInvite. rewrite Htid.
  unfold try_catch, getTeam. run_m. by rewrite Hteam.
Qed.

Lemma handleInvite_without_team newId now currentUser user db :
  (currentUser = None
   ∨ ∃ c, currentUser = Some c
          ∧ (truthy_teamId (User.teamId c) = None
             ∨ ∃ teamId, truthy_teamId (User.teamId c) = Some teamId
                         ∧ teams db !! teamId = None)) →
  handleInvite newId now currentUser user db = (Ok tt, db).
Proof.
  intros [->|(c & -> & [Hnone|(teamId & Htid & Hteam)])]; unfold handleInvite.
  - done.
  - by rewrite Hnone.
  - rewrite Htid. unfold try_catch, getTeam. run_m. by rewrite Hteam.
Qed.

(** X22. The invite button never fails and never invites twice. The handler
    always completes. When the viewer's profile refers to an existing team
    and no invitation of that team to the viewed user is pending, it writes
    exactly one pending invitation, carrying the stored team's id and name
    and the viewer as sender; in every other case, a pending invitation
    included, it leaves the store as it is. Pressing the button again,
    at once, changes nothing. *)
Theorem handleInvite_spec (newId : string) (now : Z) (currentUser : option User.t)
    (user : User.t) (db : Db) :
  (handleInvite newId now currentUser user db).1 = Ok tt
  ∧ (∀ c teamId team,
       currentUser = Some c →
       truthy_teamId (User.teamId c) = Some teamId →
       teams db !! teamId = Some team →
       (∀ k i, invitations db !! k = Some i →
               ¬ pendingFor (Team.id team) (User.id user) i) →
       (handleInvite newId now currentUser user db).2
       = set_invitations
           (insert newId
              (Invitation.mk (Team.id team) (Team.name team)
                 (Invitation.mkSender (User.id c) (User.name c))
                 (User.id user) pending now)) db)
  ∧ (∀ c teamId team k i,
       currentUser = Some c →
       truthy_teamId (User.teamId c) = Some teamId →
       teams db !! teamId = Some team →
       invitations db !! k = Some i →
       pendingFor (Team.id team) (User.id user) i →
       (handleInvite newId now currentUser user db).2 = db)
  ∧ ((currentUser = None
      ∨ ∃ c, currentUser = Some c
             ∧ (truthy_teamId (User.teamId c) = None
                ∨ ∃ teamId, truthy_teamId (User.teamId c) = Some teamId
                            ∧ teams db !! teamId = None)) →
     (handleInvite newId now currentUser user db).2 = db)
  ∧ (∀ newId' now',
       (handleInvite newId' now' currentUser user
          (handleInvite newId now currentUser user db).2).2
       = (handleInvite newId now currentUser user db).2).
Proof.
  assert (Hcases :
    currentUser = None
    ∨ (∃ c, currentUser = Some c
            ∧ (truthy_teamId (User.teamId c) = None
               ∨ ∃ teamId, truthy_teamId (User.teamId c) = Some teamId
                           ∧ teams db !! teamId = None))
    ∨ ∃ c teamId team, currentUser = Some c
                       ∧ truthy_teamId (User.teamId c) = Some teamId
                       ∧ teams db !! teamId = Some team).
  { destruct currentUser as [c|]; [|by left]. right.
    destruct (truthy_teamId (User.teamId c)) as [teamId|] eqn:Htid;
      [|left; exists c; auto].
    destruct (teams db !! teamId) as [team|] eqn:Hteam.
    - right. by exists c, teamId, team.
    - left. exists c. split; [done|]. right. by exists teamId. }
  assert (Hwith : ∀ c teamId team id' now',
            truthy_teamId (User.teamId c) = Some teamId →
            teams db !! teamId = Some team →
            (∀ k i, invitations db !! k = Some i →
                    ¬ pendingFor (Team.id team) (User.id user) i) →
            handleInvite id' now' (Some c) user db
            = (Ok tt,
               set_invitations
                 (insert id'
                    (Invitation.mk (Team.id team) (Team.name team)
                       (Invitation.mkSender (User.id c) (User.name c))
                       (User.id user) pending now')) db)).
  { intros c teamId team id' now' Htid Hteam Hnone.
    rewrite (handleInvite_with_team _ _ _ _ _ _ _ Htid Hteam). unfold try_catch.
    by rewrite (sendInvitation_new _ _ _ _ _ _ Hnone). }
  assert (Hpending : ∀ c teamId team d k i id' now',
            truthy_teamId (User.teamId c) = Some teamId →
            teams d !! teamId = Some team →
            invitations d !! k = Some i →
            pendingFor (Team.id team) (User.id user) i →
            handleInvite id' now' (Some c) user d = (Ok tt, d)).
  { intros c teamId team d k i id' now' Htid Hteam Hk Hp.
    rewrite (handleInvite_with_team _ _ _ _ _ _ _ Htid Hteam). unfold try_catch.
    by rewrite (sendInvitation_existing _ _ _ _ _ _ _ _ Hk Hp). }
  split; [|split; [|split; [|split]]].
  - destruct Hcases as [H|[H|(c & teamId & team & -> & Htid & Hteam)]].
    + rewrite handleInvite_without_team; auto.
    + rewrite handleInvite_without_team; auto.
    + destruct (pending_dec (Team.id team) (User.id user) db)
        as [(k & i & Hk & Hp)|Hnone].
      * by rewrite (Hpending _ _ _ _ _ _ _ _ Htid Hteam Hk Hp).
      * by rewrite (Hwith _ _ _ _ _ Htid Hteam Hnone).
  - intros c teamId team -> Htid Hteam Hnone.
    by rewrite (Hwith _ _ _ _ _ Htid Hteam Hnone).
  - intros c teamId team k i -> Htid Hteam Hk Hp.
    by rewrite (Hpending _ _ _ _ _ _ _ _ Htid Hteam Hk Hp).
  - intros H. by rewrite handleInvite_without_team.
  - intros newId' now'.
    destruct Hcases as [H|[H|(c & teamId & team & -> & Htid & Hteam)]].
    + rewrite (handleInvite_without_team newId) by auto. cbn [snd].
      by rewrite handleInvite_without_team by auto.
    + rewrite (handleInvite_without_team newId) by auto. cbn [snd].
      by rewrite handleInvite_without_team by auto.
    + destruct (pending_dec (Team.id team) (User.id user) db)
        as [(k & i & Hk & Hp)|Hnone].
      * rewrite (Hpending c teamId team db k i newId now Htid Hteam Hk Hp).
        cbn [snd].
        by rewrite (Hpending c teamId team db k i newId' now' Htid Hteam Hk Hp).
      * rewrite (Hwith c teamId team newId now Htid Hteam Hnone). cbn [snd].
        erewrite (Hpending c teamId team _ newId _ newId' now' Htid).
        -- done.
        -- done.
        -- cbn. apply lookup_insert_eq.
        -- by repeat split.
Qed.

Lemma handleInvite_spec_witness :
  let db := Sample.alpha_created in
  let alice := Sample.current "alice" db in
  size (invitations (handleInvite "i1" 1000 (Some alice) Sample.bob db).2) = 1
  ∧ size (invitations
            (handleInvite "i2" 1001 (Some alice) Sample.bob
               (handleInvite "i1" 1000 (Some alice) Sample.bob db).2).2) = 1.
Proof.
  intros db alice.
  destruct (handleInvite_spec "i1" 1000 (Some alice) Sample.bob db)
    as (_ & Hnew & _ & _ & Hagain).
  rewrite Hagain.
  rewrite (Hnew alice "t1" (Sample.team "t1" db)); [by vm_compute | done | ..].
  - by vm_compute.
  - by vm_compute.
  - intros k i Hk. by vm_compute in Hk.
Defined.

(** ** Text entered in the forms *)

Lemma chars_cons c s : chars (String c s) = c :: chars s.
Proof. done. Qed.

Lemma split_cons sep c s :
  split sep (String c s)
  = if Ascii.eqb c sep then "" :: split sep s
    else match split sep s with
         | h :: t => String c h :: t
         | [] => [String c ""]
         end.
Proof. done. Qed.

Lemma split_not_nil sep s : split sep s ≠ [].
Proof.
  induction s as [|c s IH]; [done|]. rewrite split_cons.
  destruct (Ascii.eqb c sep); [done|]. by destruct (split sep s).
Qed.

(** No piece of a split contains the separator. *)
Lemma split_no_sep sep s t : t ∈ split sep s → sep ∉ chars t.
Proof.
  revert t. induction s as [|c s IH]; intros t.
  - simpl. intros Ht%list_elem_of_singleton. subst. apply not_elem_of_nil.
  - rewrite split_cons. destruct (Ascii.eqb c sep) eqn:Hc.
    + intros [->|Ht]%elem_of_cons; [apply not_elem_of_nil | by apply IH].
    + apply Ascii.eqb_neq in Hc. destruct (split sep s) as [|h l] eqn:Hs.
      * by destruct (split_not_nil sep s).
      * intros [->|Ht]%elem_of_cons.
        -- rewrite chars_cons, not_elem_of_cons. split; [done|].
           apply IH. left.
        -- apply IH. by right.
Qed.

(** A string without the separator is its own only piece, and a separator
    after such a string starts the next piece. *)
Lemma split_whole sep a : sep ∉ chars a → split sep a = [a].
Proof.
  induction a as [|c a IH]; [done|]. rewrite chars_cons, not_elem_of_cons.
  intros [Hc Ha]. rewrite split_cons, (proj2 (Ascii.eqb_neq _ _)) by done.
  by rewrite IH.
Qed.

Lemma split_app sep a b :
  sep ∉ chars a → split sep (a +:+ String sep b) = a :: split sep b.
Proof.
  induction a as [|c a IH].
  - intros _. rewrite append_nil_l, split_cons. by rewrite Ascii.eqb_refl.
  - rewrite chars_cons, not_elem_of_cons. intros [Hc Ha].
    rewrite append_cons, split_cons, (proj2 (Ascii.eqb_neq _ _)) by done.
    by rewrite IH.
Qed.

Lemma trimStart_chars s c : c ∈ chars (trimStart s) → c ∈ chars s.
Proof.
  induction s as [|d s IH]; [done|]. cbn [trimStart].
  destruct (isWhiteSpace d); [|done]. intros Hc. rewrite chars_cons. right. auto.
Qed.

Lemma trimEnd_cons c s :
  trimEnd (String c s)
  = match trimEnd s with
    | "" => if isWhiteSpace c then "" else String c ""
    | r' => String c r'
    end.
Proof. done. Qed.

Lemma trimEnd_chars s c : c ∈ chars (trimEnd s) → c ∈ chars s.
Proof.
  revert c. induction s as [|d s IH]; intros c; [done|]. rewrite trimEnd_cons.
  destruct (trimEnd s) as [|e r] eqn:Hr.
  - destruct (isWhiteSpace d); [by intros ?%elem_of_nil|].
    rewrite !chars_cons. intros [->|?%elem_of_nil]%elem_of_cons; [left|done].
  - rewrite !chars_cons. intros [->|Hc]%elem_of_cons; [left|].
    right. by apply IH.
Qed.

Lemma trimEnd_idemp s : trimEnd (trimEnd s) = trimEnd s.
Proof.
  induction s as [|d s IH]; [done|]. rewrite trimEnd_cons.
  destruct (trimEnd s) as [|e r] eqn:Hr.
  - destruct (isWhiteSpace d) eqn:Hd; [done|]. rewrite trimEnd_cons. simpl.
    by rewrite Hd.
  - rewrite trimEnd_cons, IH. done.
Qed.

Lemma trimStart_head s :
  trimStart s = ""
  ∨ ∃ c r, trimStart s = String c r ∧ isWhiteSpace c = false.
Proof.
  induction s as [|d s IH]; [by left|]. simpl.
  destruct (isWhiteSpace d) eqn:Hd; [done|]. right. by exists d, s.
Qed.

Lemma trimEnd_head c r :
  isWhiteSpace c = false → ∃ r', trimEnd (String c r) = String c r'.
Proof.
  intros Hc. rewrite trimEnd_cons. destruct (trimEnd r); rewrite ?Hc; by eexists.
Qed.

Lemma trimStart_trim s : trimStart (trim s) = trim s.
Proof.
  unfold trim. destruct (trimStart_head s) as [->|(c & r & -> & Hc)]; [done|].
  destruct (trimEnd_head c r Hc) as [r' ->]. simpl. by rewrite Hc.
Qed.

Lemma trimEnd_trim s : trimEnd (trim s) = trim s.
Proof. unfold trim. apply trimEnd_idemp. Qed.

Lemma trim_clean t : trimStart t = t → trimEnd t = t → trim t = t.
Proof. unfold trim. by intros -> ->. Qed.

(** White space in front of the text does not change its tags. *)
Lemma parseTags_space value c :
  isWhiteSpace c = true → c ≠ ","%char →
  parseTags (String c value) = parseTags value.
Proof.
  intros Hc Hne. unfold parseTags. rewrite split_cons.
  rewrite (proj2 (Ascii.eqb_neq _ _)) by done.
  destruct (split "," value) as [|h l] eqn:Hs; [by destruct (split_not_nil "," value)|].
  simpl. unfold trim at 1 3. simpl. by rewrite Hc.
Qed.

Lemma parseTags_cons t value :
  cleanTag t → parseTags (t +:+ String "," value) = t :: parseTags value.
Proof.
  intros (Hne & Hcomma & Hs & He). unfold parseTags.
  rewrite (split_app _ _ _ Hcomma). simpl. rewrite (trim_clean _ Hs He).
  by rewrite filter_cons_True.
Qed.

Lemma parseTags_one t : cleanTag t → parseTags t = [t].
Proof.
  intros (Hne & Hcomma & Hs & He). unfold parseTags.
  rewrite (split_whole _ _ Hcomma). simpl. rewrite (trim_clean _ Hs He).
  by rewrite filter_cons_True.
Qed.

Lemma parseTags_showTags tags : Forall cleanTag tags → parseTags (showTags tags) = tags.
Proof.
  unfold showTags. induction 1 as [|t tags Ht Htags IH]; [done|].
  destruct tags as [|t' tags]; [by apply parseTags_one|].
  change (String.concat ", " (t :: t' :: tags))
    with (t +:+ String "," (String " " (String.concat ", " (t' :: tags)))).
  rewrite (parseTags_cons _ _ Ht), parseTags_space by done. by rewrite IH.
Qed.

Lemma parseTags_clean value : Forall cleanTag (parseTags value).
Proof.
  apply Forall_forall. intros t Ht. unfold parseTags in Ht.
  apply list_elem_of_filter in Ht as [Hne Ht].
  apply list_elem_of_fmap in Ht as (piece & -> & Hpiece).
  split; [done|]. split; [|split; [apply trimStart_trim | apply trimEnd_trim]].
  intros Hc. apply (split_no_sep _ _ _ Hpiece).
  unfold trim in Hc. by apply trimStart_chars, trimEnd_chars.
Qed.

(** X23. The tags read from a form field (ASCII white space, as [trim]
    is modelled). Whatever is typed, every tag
    kept is non-empty, has no comma and no white space at either end; an
    empty or blank field gives no tags. *)
Theorem parseTags_tags (value : string) :
  (∀ t, t ∈ parseTags value →
        t ≠ "" ∧ (","%char ∉ chars t) ∧ trimStart t = t ∧ trimEnd t = t ∧ trim t = t)
  ∧ parseTags "" = []
  ∧ (Forall (λ c, isWhiteSpace c = true) (chars value) → parseTags value = []).
Proof.
  split; [|split; [done|]].
  - intros t Ht.
    destruct (proj1 (Forall_forall _ _) (parseTags_clean value) t Ht)
      as (Hne & Hc & Hs & He).
    repeat split; try done. by apply trim_clean.
  - induction value as [|c value IH]; [done|].
    rewrite chars_cons, Forall_cons. intros [Hc Hv].
    rewrite parseTags_space; [by apply IH | done |].
    intros ->. done.
Qed.

Lemma parseTags_tags_witness :
  parseTags " Python, React ,, Figma  ," = ["Python"; "React"; "Figma"]
  ∧ parseTags "  " = [].
Proof.
  split; [by vm_compute|].
  apply (proj2 (proj2 (parseTags_tags "  "))). by repeat constructor.
Defined.

(** X24. Showing and reading tags round-trips. A list of well-formed
    ASCII tags (not empty, no comma, no white space at either end) shown in
    the profile form, joined by comma and space, is read back as the same
    list; and what is read from any text is unchanged by being shown and
    read again. *)
Theorem parseTags_round_trip (tags : list string) (value : string) :
  (Forall isAscii tags → Forall cleanTag tags → parseTags (showTags tags) = tags)
  ∧ parseTags (showTags (parseTags value)) = parseTags value.
Proof.
  split; [intros _; apply parseTags_showTags|].
  apply parseTags_showTags, parseTags_clean.
Qed.

Lemma parseTags_round_trip_witness :
  parseTags (showTags ["Python"; "Machine Learning"; "UI/UX"])
  = ["Python"; "Machine Learning"; "UI/UX"].
Proof.
  apply (parseTags_round_trip ["Python"; "Machine Learning"; "UI/UX"] "").
  - repeat constructor; by_evaluation.
  - repeat constructor; try done; by_evaluation.
Defined.

Lemma concat_cons2 sep w w' ws :
  String.concat sep (w :: w' :: ws) = w +:+ sep +:+ String.concat sep (w' :: ws).
Proof. done. Qed.

(** Joining with a separator and splitting on it gives the pieces back. *)
Lemma split_concat sep words :
  words ≠ [] → Forall (λ w, sep ∉ chars w) words →
  split sep (String.concat (String sep "") words) = words.
Proof.
  intros Hne Hwords. induction Hwords as [|w words Hw Hwords IH]; [done|].
  destruct words as [|w' words]; [by apply split_whole|].
  rewrite concat_cons2.
  change (String sep "" +:+ String.concat (String sep "") (w' :: words))
    with (String sep (String.concat (String sep "") (w' :: words))).
  rewrite (split_app _ _ _ Hw), IH; done.
Qed.

Lemma length_toUpperCase s : String.length (toUpperCase s) = String.length s.
Proof. induction s as [|c s IH]; [done|]. simpl. by rewrite IH. Qed.

Lemma length_initials words :
  Forall (λ w, w ≠ "") words →
  String.length (String.concat "" (map firstChar words)) = length words.
Proof.
  induction 1 as [|w words Hw Hwords IH]; [done|].
  destruct w as [|c w]; [done|].
  destruct words as [|w' words]; [done|].
  cbn [map] in *. rewrite concat_cons2.
  change (S (String.length (String.concat "" (firstChar w' :: map firstChar words)))
          = S (length (w' :: words))).
  by rewrite IH.
Qed.

(** X25. The avatar label written into a new profile at sign-up is never
    empty: it is "?" when the name has no word. For a name made of ASCII
    words separated by single spaces it is the first characters of all the
    words, one per word, with the letters [a-z] in upper case. *)
Theorem avatarInitialOf_spec (name : string) (words : list string) :
  avatarInitialOf name ≠ ""
  ∧ (∀ uid email, User.avatarInitial (newUserProfile uid name email) ≠ "")
  ∧ avatarInitialOf "" = "?"
  ∧ (words ≠ [] →
     Forall (λ w, w ≠ "" ∧ (" "%char ∉ chars w) ∧ isAscii w) words →
     avatarInitialOf (String.concat " " words)
     = toUpperCase (String.concat "" (map firstChar words))
     ∧ String.length (avatarInitialOf (String.concat " " words)) = length words).
Proof.
  assert (Hnonempty : avatarInitialOf name ≠ "")
    by (unfold avatarInitialOf; by case_decide).
  split; [done|]. split; [done|]. split; [done|].
  - intros Hne Hwords.
    assert (Hsplit : split " " (String.concat " " words) = words).
    { apply split_concat; [done|]. eapply Forall_impl; [exact Hwords|].
      by intros w (_ & ? & _). }
    assert (Hlen : String.length (toUpperCase (String.concat "" (map firstChar words)))
                   = length words).
    { rewrite length_toUpperCase. apply length_initials.
      eapply Forall_impl; [exact Hwords|]. by intros w []. }
    unfold avatarInitialOf. rewrite Hsplit. case_decide as Hempty.
    + rewrite Hempty in Hlen. simpl in Hlen. by destruct words.
    + done.
Qed.

Lemma avatarInitialOf_spec_witness :
  avatarInitialOf "ada byron lovelace" = "ABL".
Proof.
  destruct (avatarInitialOf_spec "" ["ada"; "byron"; "lovelace"])
    as (_ & _ & _ & Hwords).
  destruct Hwords as [Heq _]; [done | |].
  - repeat constructor; try done; by_evaluation.
  - exact Heq.
Defined.

(** ** Messaging *)

(** X26. Members see their team's chat, and only while they are members.
    When every team's conversation lists the team's members, the
    conversation of a team is in the conversation list of each of its
    members; and once a regular member's [leaveTeam] has completed, it is no
    longer in that user's list. *)
Theorem team_chat_visible (db : Db) (teamId : string) (team : Team.t) :
  teams db !! teamId = Some team →
  (roster_inv db →
   ∀ m, m ∈ Team.members team →
     ∃ snapshot conv,
       getConversations (Some (User.id m)) db = Ok snapshot
       ∧ (teamConversationId teamId, conv) ∈ snapshot)
  ∧ (∀ user snapshot,
       User.id user ≠ Team.ownerId team →
       (leaveTeam user teamId db).1 = Ok tt →
       getConversations (Some (User.id user)) (leaveTeam user teamId db).2
       = Ok snapshot →
       teamConversationId teamId ∉ snapshot.*1).
Proof.
  intros Hteam. split.
  - intros Hinv m Hm. pose proof (Hinv _ _ Hteam) as Hsync. simpl in Hsync.
    destruct (conversations db !! teamConversationId teamId) as [conv|] eqn:Hconv;
      [|done].
    eexists _, conv. split; [done|]. apply elem_of_query. split; [done|].
    apply bool_decide_eq_true.
    apply (elem_of_list_to_set (C := gset string)). rewrite Hsync.
    apply elem_of_list_to_set. by apply list_elem_of_fmap_2.
  - intros user snapshot Hown Hok Hsnap. injection Hsnap as <-. intros Hin.
    apply list_elem_of_fmap in Hin as ([k conv'] & Hk & Hin). simpl in Hk. subst k.
    apply elem_of_query in Hin as [Hconv' Hpart]. apply bool_decide_eq_true in Hpart.
    revert Hok Hconv'. unfold leaveTeam. run_m. rewrite Hteam.
    rewrite decide_False by done. run_m. unfold update_in. rewrite Hteam. simpl.
    destruct (conversations db !! teamConversationId teamId) as [conv|]; simpl;
      [|done].
    destruct (users db !! User.id user); simpl; [|done].
    intros _. rewrite lookup_insert_eq. intros [= <-]. simpl in Hpart.
    by apply elem_of_arrayRemove in Hpart as [_ Hne].
Qed.

Lemma team_chat_visible_witness :
  let db := Sample.bob_joined in
  ∃ snapshot,
    getConversations (Some "bob") db = Ok snapshot
    ∧ "team_t1" ∈ snapshot.*1.
Proof.
  intros db.
  destruct (team_chat_visible db "t1" (Sample.team "t1" db)) as [Hsee _];
    [by vm_compute|].
  assert (Hr : roster_inv db) by by_evaluation.
  assert (Hm : UserPatch.delete_profileComplete Sample.bob
               ∈ Team.members (Sample.team "t1" db)) by by_evaluation.
  destruct (Hsee Hr _ Hm) as (snapshot & conv & Hrun & Hin).
  exists snapshot.
  change (User.id (UserPatch.delete_profileComplete Sample.bob)) with "bob" in Hrun.
  split; [exact Hrun|].
  apply list_elem_of_fmap. exists ("team_t1", conv).
  split; [reflexivity | exact Hin].
Defined.

(** X27. Sending a message is two writes, not one batch. For an
    authenticated sender the message is always stored under the
    conversation, with the sender's id and the time of sending; if the
    conversation document exists the call completes and that message becomes
    its last message, participants untouched; if it does not, the call
    throws with the message already stored. Without an authenticated user
    nothing is written. The messages page sends nothing for a blank text. *)
Theorem sendMessage_spec (currentUserId newId : string) (now : Z)
    (conversationId text : string) (chat : Chat) :
  let sent := sendMessage (Some currentUserId) newId now conversationId text chat in
  let newMessage := Conversation.mkMessage text now currentUserId in
  (∃ stored, messages sent.2 !! conversationId = Some stored
             ∧ stored !! newId = Some newMessage)
  ∧ (∀ k, k ≠ conversationId → messages sent.2 !! k = messages chat !! k)
  ∧ (∀ conv, conversations (store chat) !! conversationId = Some conv →
       sent.1 = Ok tt
       ∧ ∃ conv', conversations (store sent.2)
                  = <[conversationId := conv']> (conversations (store chat))
                  ∧ Conversation.lastMessage conv' = Some newMessage
                  ∧ Conversation.participantIds conv' = Conversation.participantIds conv
                  ∧ Conversation.participants conv' = Conversation.participants conv)
  ∧ (conversations (store chat) !! conversationId = None →
     sent.1 = Throw (NotFound ("conversations/" +:+ conversationId))
     ∧ store sent.2 = store chat)
  ∧ teams (store sent.2) = teams (store chat)
  ∧ users (store sent.2) = users (store chat)
  ∧ sendMessage None newId now conversationId text chat
    = (Throw (Error "No authenticated user found"), chat)
  ∧ (∀ currentUser selected,
       trim text = "" →
       handleSendMessage currentUser newId now selected text chat = (Ok tt, chat)).
Proof.
  intros sent newMessage. unfold sent, sendMessage, write. simpl. unfold update_in.
  destruct (conversations (store chat) !! conversationId) as [conv|] eqn:Hconv;
    simpl.
  - split; [eexists; split; [apply lookup_insert_eq | apply lookup_insert_eq]|].
    split; [intros k Hk; by apply lookup_insert_ne|].
    split.
    { intros conv0 [= <-]. split; [done|]. by eexists. }
    split; [done|]. split; [done|]. split; [done|]. split; [done|].
    intros currentUser selected Hblank. unfold handleSendMessage.
    by rewrite (bool_decide_eq_true_2 _ Hblank).
  - split; [eexists; split; [apply lookup_insert_eq | apply lookup_insert_eq]|].
    split; [intros k Hk; by apply lookup_insert_ne|].
    split; [done|]. split; [done|]. split; [done|]. split; [done|]. split; [done|].
    intros currentUser selected Hblank. unfold handleSendMessage.
    by rewrite (bool_decide_eq_true_2 _ Hblank).
Qed.

Lemma sendMessage_spec_witness :
  let chat := mkChat Sample.bob_joined ∅ in
  (sendMessage (Some "bob") "m1" 2000 "team_t1" "hello" chat).1 = Ok tt
  ∧ (sendMessage (Some "bob") "m1" 2000 "team_t9" "hello" chat).1
    = Throw (NotFound "conversations/team_t9").
Proof.
  intros chat.
  destruct (sendMessage_spec "bob" "m1" 2000 "team_t1" "hello" chat)
    as (_ & _ & Hsome & _).
  destruct (sendMessage_spec "bob" "m1" 2000 "team_t9" "hello" chat)
    as (_ & _ & _ & Hnone & _).
  split.
  - by destruct (Hsome (Sample.conversation "team_t1" Sample.bob_joined)
                   ltac:(by vm_compute)) as [? _].
  - by destruct (Hnone ltac:(by vm_compute)) as [? _].
Defined.
